(** * search-in-js: recursive phrase search, grouping and reporting

    A shallow embedding of [search-recursively.js] (the Matcher, the File
    Scanner and the Tree Walker) and of the driver module that groups the
    results per pattern, formats the report and writes it.

    Conventions of the embedding.
    - A JavaScript string is a [string]: a sequence of code units, here the
      code units 0..255 (the Latin-1 range).  Case mapping, white space and
      word characters are the ECMAScript ones restricted to that range.
    - [RegExp] is a built-in of the host; it is modelled by a parser for a
      fragment of the pattern syntax and a matcher that computes, for a
      position of the input, every position at which a match can end.
      Patterns outside the fragment yield [OutOfModel], which is neither a
      normal result nor an exception.
    - Exceptions are explicit: fallible code returns a [result]; the stateful
      traversal runs in a state-and-exception monad whose [try_catch] is the
      [try { } catch { }] of the source.
    - The file system is a finite tree of nodes (symbolic-link cycles are
      outside the model). *)

From Stdlib Require Import String Ascii List Bool Arith NArith Lia DecimalString.
From Stdlib Require Import Sorting.Permutation Sorting.Sorted.
Import ListNotations.
Open Scope string_scope.

(** ** Results and exceptions *)

Inductive result (A : Type) : Type :=
| Ok (a : A)
| Throw (e : string)
| OutOfModel.
Arguments Ok {A} a.
Arguments Throw {A} e.
Arguments OutOfModel {A}.

Definition rbind {A B : Type} (m : result A) (k : A -> result B) : result B :=
  match m with
  | Ok a => k a
  | Throw e => Throw e
  | OutOfModel => OutOfModel
  end.

Declare Scope result_scope.
Delimit Scope result_scope with result.
Notation "'let?' x ':=' m 'in' k" := (rbind m (fun x => k))
  (at level 10, x name, m at level 100, k at level 200) : result_scope.

(** [Array.prototype.some] with a callback that may throw: the elements are
    visited in order and the visit stops at the first one the callback
    accepts. *)
Fixpoint some_result {A : Type} (f : A -> result bool) (l : list A) : result bool :=
  match l with
  | [] => Ok false
  | a :: l' =>
      match f a with
      | Ok true => Ok true
      | Ok false => some_result f l'
      | Throw e => Throw e
      | OutOfModel => OutOfModel
      end
  end.

(** ** JavaScript strings *)

Definition code (c : ascii) : nat := nat_of_ascii c.

Definition between (lo hi : nat) (c : ascii) : bool :=
  (lo <=? code c)%nat && (code c <=? hi)%nat.

(** [String.prototype.toLowerCase] on one code unit: A-Z and the Latin-1
    capitals U+00C0..U+00DE (the multiplication sign U+00D7 apart). *)
Definition toLowerChar (c : ascii) : ascii :=
  if between 65 90 c || (between 192 222 c && negb (code c =? 215)%nat)
  then ascii_of_nat (code c + 32) else c.

(** The [Canonicalize] operation of a case-insensitive, non-unicode [RegExp]:
    the code unit is upper-cased when the upper-case form is one code unit.
    In the Latin-1 range this maps a-z and U+00E0..U+00FE (the division sign
    U+00F7 apart) 32 places down; the sharp s (its upper-case form has two
    code units), the micro sign and the y with diaeresis (whose upper-case
    forms lie outside the range and are shared with no other code unit of
    the range) are kept. *)
Definition canonicalize (c : ascii) : ascii :=
  if between 97 122 c || (between 224 254 c && negb (code c =? 247)%nat)
  then ascii_of_nat (code c - 32) else c.

(** White space and line terminators stripped by [String.prototype.trim]:
    TAB, LF, VT, FF, CR, SP and NBSP. *)
Definition isWhiteSpace (c : ascii) : bool :=
  between 9 13 c || (code c =? 32)%nat || (code c =? 160)%nat.

(** Line terminators, which [.] does not match: LF and CR. *)
Definition isLineTerminator (c : ascii) : bool :=
  (code c =? 10)%nat || (code c =? 13)%nat.

(** Word characters of [\b]: A-Z, a-z, 0-9 and the underscore. *)
Definition isWordChar (c : ascii) : bool :=
  between 48 57 c || between 65 90 c || between 97 122 c || (code c =? 95)%nat.

Fixpoint str_map (f : ascii -> ascii) (s : string) : string :=
  match s with
  | EmptyString => EmptyString
  | String c t => String (f c) (str_map f t)
  end.

Definition toLowerCase (s : string) : string := str_map toLowerChar s.

(** [s.startsWith(p)] *)
Fixpoint startsWith (s p : string) {struct p} : bool :=
  match p with
  | EmptyString => true
  | String a p' =>
      match s with
      | EmptyString => false
      | String b s' => Ascii.eqb a b && startsWith s' p'
      end
  end.

(** [s.endsWith(p)] *)
Definition endsWith (s p : string) : bool :=
  (String.length p <=? String.length s)%nat &&
  String.eqb (substring (String.length s - String.length p) (String.length p) s) p.

(** [s.slice(1)] *)
Definition slice_from1 (s : string) : string :=
  match s with
  | EmptyString => EmptyString
  | String _ t => t
  end.

(** [s.slice(0, -1)] *)
Definition slice_to_last (s : string) : string :=
  substring 0 (String.length s - 1) s.

Fixpoint trimStart (s : string) : string :=
  match s with
  | EmptyString => EmptyString
  | String c t => if isWhiteSpace c then trimStart t else s
  end.

Fixpoint trimEnd (s : string) : string :=
  match s with
  | EmptyString => EmptyString
  | String c t =>
      match trimEnd t with
      | EmptyString => if isWhiteSpace c then EmptyString else String c EmptyString
      | t' => String c t'
      end
  end.

(** [s.trim()] *)
Definition trim (s : string) : string := trimEnd (trimStart s).

Definition LF : ascii := ascii_of_nat 10.
Definition newline : string := String LF EmptyString.

(** [s.split('\n')] *)
Fixpoint split_lines (s : string) : list string :=
  match s with
  | EmptyString => [EmptyString]
  | String c t =>
      if Ascii.eqb c LF then EmptyString :: split_lines t
      else match split_lines t with
           | h :: r => String c h :: r
           | [] => [String c EmptyString]
           end
  end.

(** [a.join('\n')] *)
Definition join_lines (l : list string) : string := String.concat newline l.

(** ** The regular expressions of the host *)

Inductive regex : Type :=
| REmpty
| RChar (c : ascii)
| RAny
| RBol
| REol
| RWordB
| RNotWordB
| RSeq (r1 r2 : regex)
| RAlt (r1 r2 : regex)
| RStar (r : regex).

(** A position of the input: the code unit before it (none at the start of
    the input) and the rest of the input. *)
Definition position : Type := (option ascii * string)%type.

Definition char_matches (ignoreCase : bool) (c d : ascii) : bool :=
  if ignoreCase then Ascii.eqb (canonicalize c) (canonicalize d)
  else Ascii.eqb c d.

Definition wordBefore (x : position) : bool :=
  match fst x with Some c => isWordChar c | None => false end.

Definition wordAfter (x : position) : bool :=
  match snd x with String c _ => isWordChar c | EmptyString => false end.

(** The iterations of a starred term, as [RepeatMatcher] runs them: an
    iteration that consumes nothing is rejected, so [length rest] iterations
    are enough. *)
Fixpoint star_ends (step : position -> list position) (fuel : nat)
    (x : position) : list position :=
  x :: match fuel with
       | 0 => []
       | S n =>
           flat_map (star_ends step n)
             (filter (fun y => (String.length (snd y) <? String.length (snd x))%nat)
                     (step x))
       end.

(** Every position at which a match of [r] that starts at [x] can end. *)
Fixpoint ends (ignoreCase : bool) (r : regex) (x : position) : list position :=
  match r with
  | REmpty => [x]
  | RChar c =>
      match snd x with
      | String d t => if char_matches ignoreCase c d then [(Some d, t)] else []
      | EmptyString => []
      end
  | RAny =>
      match snd x with
      | String d t => if isLineTerminator d then [] else [(Some d, t)]
      | EmptyString => []
      end
  | RBol => match fst x with None => [x] | Some _ => [] end
  | REol => match snd x with EmptyString => [x] | String _ _ => [] end
  | RWordB => if xorb (wordBefore x) (wordAfter x) then [x] else []
  | RNotWordB => if xorb (wordBefore x) (wordAfter x) then [] else [x]
  | RSeq r1 r2 => flat_map (ends ignoreCase r2) (ends ignoreCase r1 x)
  | RAlt r1 r2 => ends ignoreCase r1 x ++ ends ignoreCase r2 x
  | RStar r1 => star_ends (ends ignoreCase r1) (String.length (snd x)) x
  end.

Definition matches_at (ignoreCase : bool) (r : regex) (x : position) : bool :=
  match ends ignoreCase r x with
  | [] => false
  | _ :: _ => true
  end.

(** The search of [RegExp.prototype.exec] from [lastIndex = 0]: the first
    position, from left to right, at which the pattern matches. *)
Fixpoint search (ignoreCase : bool) (r : regex) (prev : option ascii)
    (s : string) : bool :=
  matches_at ignoreCase r (prev, s) ||
  match s with
  | EmptyString => false
  | String c t => search ignoreCase r (Some c) t
  end.

(** *** Pattern syntax *)

Definition char_in (c : ascii) (s : string) : bool :=
  existsb (Ascii.eqb c) (list_ascii_of_string s).

(** [SyntaxCharacter] of the pattern grammar. *)
Definition isSyntaxCharacter (c : ascii) : bool := char_in c "^$\.*+?()[]{}|".

Inductive lastTerm : Type :=
| LNone
| LAtom (r : regex)
| LQuant (r : regex)
| LLazy (r : regex)
| LAssert (r : regex).

(** The alternatives of a group read so far, the terms of the current
    alternative, and its last term, which a quantifier may still follow. *)
Record frame : Type := mkFrame {
  f_alts : option regex;
  f_seq : regex;
  f_last : lastTerm
}.

Definition empty_frame : frame := mkFrame None REmpty LNone.

Definition close_seq (f : frame) : regex :=
  match f_last f with
  | LNone => f_seq f
  | LAtom r | LQuant r | LLazy r | LAssert r => RSeq (f_seq f) r
  end.

Definition finish (f : frame) : regex :=
  match f_alts f with
  | None => close_seq f
  | Some a => RAlt a (close_seq f)
  end.

Definition push_term (f : frame) (t : lastTerm) : frame :=
  mkFrame (f_alts f) (close_seq f) t.

Definition next_alternative (f : frame) : frame :=
  mkFrame (Some (finish f)) REmpty LNone.

Definition nothing_to_repeat : string := "Invalid regular expression: Nothing to repeat".

(** A quantifier [q] applied to the last term. *)
Definition quantify (q : regex -> regex) (f : frame) : result frame :=
  match f_last f with
  | LAtom r => Ok (mkFrame (f_alts f) (f_seq f) (LQuant (q r)))
  | _ => Throw nothing_to_repeat
  end.

(** [?] is a quantifier after an atom and the lazy mark after a quantifier. *)
Definition question (f : frame) : result frame :=
  match f_last f with
  | LAtom r => Ok (mkFrame (f_alts f) (f_seq f) (LQuant (RAlt r REmpty)))
  | LQuant r => Ok (mkFrame (f_alts f) (f_seq f) (LLazy r))
  | _ => Throw nothing_to_repeat
  end.

(** The parser: one pass over the pattern, with the enclosing groups on a
    stack.  Character classes, braced quantifiers, look-around and named
    groups, back-references and the escapes other than [\b], [\B] and an
    escaped syntax character (or [/]) are outside the fragment. *)
Fixpoint parse (stack : list frame) (f : frame) (p : string) : result regex :=
  match p with
  | EmptyString =>
      match stack with
      | [] => Ok (finish f)
      | _ :: _ => Throw "Invalid regular expression: Unterminated group"
      end
  | String c rest =>
      if Ascii.eqb c "\" then
        match rest with
        | EmptyString => Throw "Invalid regular expression: \ at end of pattern"
        | String e rest' =>
            if Ascii.eqb e "b" then parse stack (push_term f (LAssert RWordB)) rest'
            else if Ascii.eqb e "B" then parse stack (push_term f (LAssert RNotWordB)) rest'
            else if isSyntaxCharacter e || Ascii.eqb e "/"
            then parse stack (push_term f (LAtom (RChar e))) rest'
            else OutOfModel
        end
      else if Ascii.eqb c "." then parse stack (push_term f (LAtom RAny)) rest
      else if Ascii.eqb c "^" then parse stack (push_term f (LAssert RBol)) rest
      else if Ascii.eqb c "$" then parse stack (push_term f (LAssert REol)) rest
      else if Ascii.eqb c "*" then
        match quantify RStar f with
        | Ok f' => parse stack f' rest
        | Throw e => Throw e
        | OutOfModel => OutOfModel
        end
      else if Ascii.eqb c "+" then
        match quantify (fun r => RSeq r (RStar r)) f with
        | Ok f' => parse stack f' rest
        | Throw e => Throw e
        | OutOfModel => OutOfModel
        end
      else if Ascii.eqb c "?" then
        match question f with
        | Ok f' => parse stack f' rest
        | Throw e => Throw e
        | OutOfModel => OutOfModel
        end
      else if Ascii.eqb c "|" then parse stack (next_alternative f) rest
      else if Ascii.eqb c "(" then
        match rest with
        | String q rest' =>
            if Ascii.eqb q "?" then
              match rest' with
              | String k rest'' =>
                  if Ascii.eqb k ":" then parse (f :: stack) empty_frame rest''
                  else OutOfModel
              | EmptyString => Throw "Invalid regular expression: Invalid group"
              end
            else parse (f :: stack) empty_frame rest
        | EmptyString => parse (f :: stack) empty_frame rest
        end
      else if Ascii.eqb c ")" then
        match stack with
        | g :: stack' => parse stack' (push_term g (LAtom (finish f))) rest
        | [] => Throw "Invalid regular expression: Unmatched ')'"
        end
      else if Ascii.eqb c "[" || Ascii.eqb c "{" then OutOfModel
      else parse stack (push_term f (LAtom (RChar c))) rest
  end.

Record RegExp : Type := mkRegExp {
  re_source : regex;
  re_ignoreCase : bool
}.

(** [new RegExp(pattern, flags)], the flags being ['g'] or ['gi']. *)
Definition RegExp_new (pattern flags : string) : result RegExp :=
  match parse [] empty_frame pattern with
  | Ok r => Ok (mkRegExp r (char_in "i" flags))
  | Throw e => Throw e
  | OutOfModel => OutOfModel
  end.

(** [re.test(s)] on a freshly built expression ([lastIndex] is 0). *)
Definition RegExp_test (re : RegExp) (s : string) : bool :=
  search (re_ignoreCase re) (re_source re) None s.

(** ** State and exceptions *)

Definition M (S A : Type) : Type := S -> result A * S.

Definition ret {S A : Type} (a : A) : M S A := fun s => (Ok a, s).

Definition bind {S A B : Type} (m : M S A) (k : A -> M S B) : M S B :=
  fun s =>
    match m s with
    | (Ok a, s') => k a s'
    | (Throw e, s') => (Throw e, s')
    | (OutOfModel, s') => (OutOfModel, s')
    end.

Definition throw {S A : Type} (e : string) : M S A := fun s => (Throw e, s).

Definition lift {S A : Type} (r : result A) : M S A := fun s => (r, s).

Definition modify {S : Type} (f : S -> S) : M S unit := fun s => (Ok tt, f s).

(** [try { m } catch (error) { h error }]: what [m] did to the state before
    it threw is kept. *)
Definition try_catch {S A : Type} (m : M S A) (h : string -> M S A) : M S A :=
  fun s =>
    match m s with
    | (Throw e, s') => h e s'
    | other => other
    end.

Definition when {S : Type} (b : bool) (m : M S unit) : M S unit :=
  if b then m else ret tt.

Declare Scope monad_scope.
Delimit Scope monad_scope with monad.
Notation "x <- m ;; k" := (bind m (fun x => k))
  (at level 61, m at next level, right associativity) : monad_scope.
Notation "m ;; k" := (bind m (fun _ => k))
  (at level 61, right associativity) : monad_scope.

(** ** The data model *)

Record PatternSpec : Type := mkPattern {
  include : string;
  exclude : list string;
  wholeWord : bool;
  caseSensitive : bool
}.

(** A pattern is a bare phrase or a configuration object. *)
Inductive SearchPattern : Type :=
| Phrase (s : string)
| Config (c : PatternSpec).

Record MatchLine : Type := mkLine {
  content : string;
  lineNumber : nat
}.

Record FileResult : Type := mkFileResult {
  fileName : string;
  lines : list MatchLine
}.

Record Options : Type := mkOptions {
  excludeDirs : list string;
  includeFiles : list string;
  verbose : bool
}.

Definition default_excludeDirs : list string := ["node_modules"; ".git"].

(** ** The file system *)

#[local] Set Warnings "-register-all".

Inductive node : Type :=
| NFile (text : string)
| NFileUnreadable (message : string)
| NDir (entries : list (string * node))
| NDirUnreadable (message : string)
| NNoStat (message : string)
| NOther.

Record Stats : Type := mkStats {
  isDirectory : bool;
  isFile : bool
}.

(** [fs.statSync]: throws on an entry that cannot be examined. *)
Definition statSync (n : node) : result Stats :=
  match n with
  | NFile _ | NFileUnreadable _ => Ok (mkStats false true)
  | NDir _ | NDirUnreadable _ => Ok (mkStats true false)
  | NNoStat m => Throw m
  | NOther => Ok (mkStats false false)
  end.

(** [fs.readFileSync(path, 'utf8')] *)
Definition readFileSync (n : node) : result string :=
  match n with
  | NFile text => Ok text
  | NFileUnreadable m => Throw m
  | NDir _ | NDirUnreadable _ => Throw "EISDIR: illegal operation on a directory, read"
  | NNoStat m => Throw m
  | NOther => Throw "EINVAL: invalid argument, read"
  end.

(** The error of [fs.readdirSync] on what is not a readable directory. *)
Definition readdir_failure (n : node) : string :=
  match n with
  | NDirUnreadable m | NNoStat m => m
  | _ => "ENOTDIR: not a directory, scandir"
  end.

Inductive logEntry : Type :=
| ConsoleLog (s : string)
| ConsoleError (s : string).

Inductive call : Type :=
| CallTraverseDirectory (path : string)
| CallSearchInFile (path : string).

(** The state of one [searchRecursively] run: the [results] array of the
    closure, the console, and the calls made so far. *)
Record scan : Type := mkScan {
  results : list FileResult;
  console : list logEntry;
  calls : list call
}.

Definition push_result (r : FileResult) : M scan unit :=
  modify (fun s => mkScan (results s ++ [r]) (console s) (calls s)).

Definition console_write (e : logEntry) : M scan unit :=
  modify (fun s => mkScan (results s) (console s ++ [e]) (calls s)).

Definition record_call (c : call) : M scan unit :=
  modify (fun s => mkScan (results s) (console s) (calls s ++ [c])).

(** ** [path.extname] (POSIX) *)

Record extState : Type := mkExt {
  startDot : option nat;
  startPart : nat;
  endIdx : option nat;
  matchedSlash : bool;
  preDotState : option bool
}.

(** [preDotState] is 0 ([None]), 1 ([Some true]) or -1 ([Some false]); the
    indices [startDot] and [end] are -1 ([None]) until they are set.  The
    loop runs over the code units from the last to the first. *)
Fixpoint extname_loop (chars : list (nat * ascii)) (st : extState) : extState :=
  match chars with
  | [] => st
  | (i, c) :: more =>
      if Ascii.eqb c "/" then
        if negb (matchedSlash st)
        then mkExt (startDot st) (i + 1) (endIdx st) (matchedSlash st) (preDotState st)
        else extname_loop more st
      else
        let st1 :=
          match endIdx st with
          | None => mkExt (startDot st) (startPart st) (Some (i + 1)) false (preDotState st)
          | Some _ => st
          end in
        let st2 :=
          if Ascii.eqb c "." then
            match startDot st1 with
            | None => mkExt (Some i) (startPart st1) (endIdx st1) (matchedSlash st1) (preDotState st1)
            | Some _ => mkExt (startDot st1) (startPart st1) (endIdx st1) (matchedSlash st1) (Some true)
            end
          else
            match startDot st1 with
            | Some _ => mkExt (startDot st1) (startPart st1) (endIdx st1) (matchedSlash st1) (Some false)
            | None => st1
            end in
        extname_loop more st2
  end.

Definition extname (path : string) : string :=
  let chars := list_ascii_of_string path in
  let st := extname_loop (rev (combine (seq 0 (List.length chars)) chars))
                         (mkExt None 0 None true None) in
  match startDot st, endIdx st, preDotState st with
  | Some sd, Some e, Some pre =>
      if pre && (sd =? e - 1)%nat && (sd =? startPart st + 1)%nat then EmptyString
      else substring sd (e - sd) path
  | _, _, _ => EmptyString
  end.

(** ** [searchRecursively] *)

(** The character class of the escaping [replace]:
    [/[.*+?^${}()|[\]\\]/g]. *)
Definition isRegexSpecial (c : ascii) : bool := char_in c ".*+?^${}()|[]\".

(** [pattern.replace(/[.*+?^${}()|[\]\\]/g, '\\$&')] *)
Fixpoint escapeRegex (pattern : string) : string :=
  match pattern with
  | EmptyString => EmptyString
  | String c t =>
      if isRegexSpecial c then String "\" (String c (escapeRegex t))
      else String c (escapeRegex t)
  end.

(** The string-or-object pattern in object form, with the defaults of the
    destructuring. *)
Definition normalize (searchPattern : SearchPattern) : PatternSpec :=
  match searchPattern with
  | Phrase s => mkPattern s [] false false
  | Config c => c
  end.

Section SearchRecursively.

(** What the closures of [searchRecursively] capture: the options, the
    normalised pattern, and [path.join] of the host. *)
Variable options : Options.
Variable searchConfig : PatternSpec.
Variable path_join : string -> string -> string.

Definition createSearchRegex (pattern : string) (isWholeWord : bool)
    : result RegExp :=
  let escapedPattern := escapeRegex pattern in
  let wordBoundary := if isWholeWord then "\b" else "" in
  RegExp_new (wordBoundary ++ escapedPattern ++ wordBoundary)
             (if caseSensitive searchConfig then "g" else "gi").

Definition matchesSearchCriteria (line : string) : result bool :=
  (let? includeRegex := createSearchRegex (include searchConfig) (wholeWord searchConfig) in
   if negb (RegExp_test includeRegex line) then Ok false
   else
     let? excluded :=
       some_result
         (fun excludePhrase =>
            let? excludeRegex := createSearchRegex excludePhrase (wholeWord searchConfig) in
            Ok (RegExp_test excludeRegex line))
         (exclude searchConfig) in
     Ok (negb excluded))%result.

Definition shouldIncludeFile (fileName : string) : bool :=
  if (List.length (includeFiles options) =? 0)%nat then true
  else
    let ext := toLowerCase (extname fileName) in
    existsb
      (fun pattern =>
         if startsWith pattern "*" then
           endsWith (toLowerCase fileName) (slice_from1 pattern)
         else if endsWith pattern "*" then
           startsWith (toLowerCase fileName) (slice_to_last pattern)
         else String.eqb ext (toLowerCase pattern))
      (includeFiles options).

(** The [forEach] over the lines of a file, [index] counting from 0. *)
Fixpoint matchingLinesFrom (index : nat) (lines : list string)
    : result (list MatchLine) :=
  match lines with
  | [] => Ok []
  | line :: rest =>
      (let? hit := matchesSearchCriteria line in
       let? more := matchingLinesFrom (S index) rest in
       Ok (if hit then mkLine (trim line) (index + 1) :: more else more))%result
  end.

Definition searchInFile (filePath : string) (file : node) : M scan unit :=
  (record_call (CallSearchInFile filePath) ;;
   try_catch
     (if negb (shouldIncludeFile filePath) then ret tt
      else
        content <- lift (readFileSync file) ;;
        matchingLines <- lift (matchingLinesFrom 0 (split_lines content)) ;;
        when (0 <? List.length matchingLines)%nat
             (push_result (mkFileResult filePath matchingLines)))
     (fun error =>
        when (verbose options)
             (console_write
                (ConsoleError ("Error reading file " ++ filePath ++ ": " ++ error)))))%monad.

Definition shouldSkipDirectory (dirName : string) : bool :=
  existsb
    (fun excludeDir =>
       if startsWith excludeDir "*" then
         endsWith dirName (slice_from1 excludeDir)
       else if endsWith excludeDir "*" then
         startsWith dirName (slice_to_last excludeDir)
       else String.eqb dirName excludeDir)
    (excludeDirs options).

(** [dir] is what the file system holds at [currentPath]. *)
Fixpoint traverseDirectory (currentPath : string) (dir : node) {struct dir}
    : M scan unit :=
  (record_call (CallTraverseDirectory currentPath) ;;
   try_catch
     (match dir with
      | NDir entries =>
          (fix each (items : list (string * node)) : M scan unit :=
             match items with
             | [] => ret tt
             | (item, child) :: more =>
                 try_catch
                   (let fullPath := path_join currentPath item in
                    stat <- lift (statSync child) ;;
                    if isDirectory stat then
                      if negb (shouldSkipDirectory item)
                      then traverseDirectory fullPath child
                      else when (verbose options)
                             (console_write
                                (ConsoleLog ("Skipping excluded directory: " ++ fullPath)))
                    else if isFile stat then searchInFile fullPath child
                    else ret tt)
                   (fun error =>
                      when (verbose options)
                           (console_write
                              (ConsoleError ("Error processing " ++ item ++ " in "
                                             ++ currentPath ++ ": " ++ error)))) ;;
                 each more
             end) entries
      | other => throw (readdir_failure other)
      end)
     (fun error =>
        when (verbose options)
             (console_write
                (ConsoleError ("Error reading directory " ++ currentPath ++ ": " ++ error)))))%monad.

End SearchRecursively.

(** [searchRecursively(dirPath, searchPattern, options)], [root] being what
    the file system holds at [dirPath] and [out] the console so far: the
    outcome (the [results] array on normal completion) and the final state. *)
Definition searchRecursively (path_join : string -> string -> string)
    (dirPath : string) (root : node) (searchPattern : SearchPattern)
    (options : Options) (out : list logEntry) : result (list FileResult) * scan :=
  let searchConfig := normalize searchPattern in
  match traverseDirectory options searchConfig path_join dirPath root
          (mkScan [] out []) with
  | (Ok _, s) => (Ok (results s), s)
  | (Throw e, s) => (Throw e, s)
  | (OutOfModel, s) => (OutOfModel, s)
  end.

(** ** Grouping, formatting and the driver *)

(** A [Set] of strings in insertion order. *)
Definition StringSet : Type := list string.

Definition set_has (s : StringSet) (x : string) : bool :=
  existsb (String.eqb x) s.

(** [s.add(x)] *)
Definition set_add (s : StringSet) (x : string) : StringSet :=
  if set_has s x then s else (s ++ [x])%list.

(** A [Map] from strings to sets, in insertion order of the keys. *)
Definition GroupedResult : Type := list (string * StringSet).

(** [m.get(k)] *)
Fixpoint map_get (m : GroupedResult) (k : string) : option StringSet :=
  match m with
  | [] => None
  | (k', v) :: m' => if String.eqb k' k then Some v else map_get m' k
  end.

(** [m.set(k, v)]: an existing key keeps its place. *)
Fixpoint map_set (m : GroupedResult) (k : string) (v : StringSet) : GroupedResult :=
  match m with
  | [] => [(k, v)]
  | (k', v') :: m' =>
      if String.eqb k' k then (k, v) :: m' else (k', v') :: map_set m' k v
  end.

(** [m.get(k).add(x)]; [get] of an absent key is [undefined]. *)
Definition map_get_add (m : GroupedResult) (k x : string) : result GroupedResult :=
  match map_get m k with
  | Some s => Ok (map_set m k (set_add s x))
  | None => Throw "TypeError: Cannot read properties of undefined (reading 'add')"
  end.

(** [typeof pattern === 'string' ? pattern : pattern.include] *)
Definition searchTermOf (pattern : SearchPattern) : string :=
  match pattern with
  | Phrase s => s
  | Config c => include c
  end.

(** [pattern.wholeWord], [pattern.caseSensitive] and [pattern.exclude || []];
    a string has none of the three properties. *)
Definition pattern_wholeWord (pattern : SearchPattern) : bool :=
  match pattern with
  | Phrase _ => false
  | Config c => wholeWord c
  end.

Definition pattern_caseSensitive (pattern : SearchPattern) : bool :=
  match pattern with
  | Phrase _ => false
  | Config c => caseSensitive c
  end.

Definition pattern_exclude (pattern : SearchPattern) : list string :=
  match pattern with
  | Phrase _ => []
  | Config c => exclude c
  end.

(** The expression the grouping builds for a term of [pattern], tested on
    [text]. *)
Definition groupRegexTest (pattern : SearchPattern) (term text : string)
    : result bool :=
  (let? re :=
     RegExp_new (if pattern_wholeWord pattern then "\b" ++ term ++ "\b" else term)
                (if pattern_caseSensitive pattern then "g" else "gi") in
   Ok (RegExp_test re text))%result.

(** [result.lines.map(line => line.content).join('\n')] *)
Definition matchedText (r : FileResult) : string :=
  join_lines (map content (lines r)).

(** The body of the inner [forEach] of [groupResultsByPattern]. *)
Definition groupStep (r : FileResult) (groupedResults : GroupedResult)
    (pattern : SearchPattern) : result GroupedResult :=
  let text := matchedText r in
  let searchTerm := searchTermOf pattern in
  (let? found := groupRegexTest pattern searchTerm text in
   if found then
     let? hasExclusion :=
       some_result (fun excludeTerm => groupRegexTest pattern excludeTerm text)
                   (pattern_exclude pattern) in
     if negb hasExclusion
     then map_get_add groupedResults searchTerm (fileName r)
     else Ok groupedResults
   else Ok groupedResults)%result.

(** A [forEach] whose body may throw. *)
Fixpoint foldM {A B : Type} (f : B -> A -> result B) (l : list A) (b : B)
    : result B :=
  match l with
  | [] => Ok b
  | a :: l' => (let? b' := f b a in foldM f l' b')%result
  end.

Definition groupResultsByPattern (allResults : list FileResult)
    (patterns : list SearchPattern) : result GroupedResult :=
  let groupedResults :=
    fold_left (fun m pattern => map_set m (searchTermOf pattern) []) patterns [] in
  foldM (fun m r => foldM (groupStep r) patterns m) allResults groupedResults.

(** [Array.prototype.sort] without a comparator, on strings: ascending in
    the order of the code units. *)
Fixpoint sort_insert (x : string) (l : list string) : list string :=
  match l with
  | [] => [x]
  | y :: l' => if String.leb x y then x :: l else y :: sort_insert x l'
  end.

Fixpoint sort (l : list string) : list string :=
  match l with
  | [] => []
  | x :: l' => sort_insert x (sort l')
  end.

(** The [lines] array of [formatSimpleResults]. *)
Definition reportLines (groupedResults : GroupedResult) : list string :=
  flat_map (fun entry => fst entry :: (sort (snd entry) ++ [EmptyString])%list)
           groupedResults.

Definition formatSimpleResults (groupedResults : GroupedResult) : string :=
  join_lines (reportLines groupedResults).

Record SearchJob : Type := mkJob {
  directories : list string;
  patterns : list SearchPattern;
  fileTypes : list string;
  jobExcludeDirs : list string;
  folder : string;
  jobFileName : string;
  jobVerbose : bool
}.

(** The host of a run: what the file system holds at a path, [path.join],
    and the failures, if any, of [fs.mkdir] and [fs.writeFile]. *)
Record Host : Type := mkHost {
  lookup : string -> node;
  host_join : string -> string -> string;
  mkdir_failure : string -> option string;
  writeFile_failure : string -> string -> option string
}.

(** The state of a [performSearch] run: the console and the files written. *)
Record run : Type := mkRun {
  run_console : list logEntry;
  written : list (string * string)
}.

Definition run_log (e : logEntry) : M run unit :=
  modify (fun s => mkRun (run_console s ++ [e]) (written s)).

(** [await fs.mkdir(folder, { recursive: true })] *)
Definition mkdir (h : Host) (dir : string) : M run unit :=
  match mkdir_failure h dir with
  | Some e => throw e
  | None => ret tt
  end.

(** [await fs.writeFile(filePath, data, 'utf8')] *)
Definition writeFile (h : Host) (filePath data : string) : M run unit :=
  match writeFile_failure h filePath data with
  | Some e => throw e
  | None => modify (fun s => mkRun (run_console s) (written s ++ [(filePath, data)]))
  end.

(** One [searchRecursively] call of the driver; the console is shared. *)
Definition runSearch (h : Host) (options : Options) (dir : string)
    (pattern : SearchPattern) : M run (list FileResult) :=
  fun s =>
    let (r, s') := searchRecursively (host_join h) dir (lookup h dir) pattern
                     options (run_console s) in
    (r, mkRun (console s') (written s)).

(** The two nested loops that fill [allResults]. *)
Fixpoint searchPatterns (h : Host) (options : Options) (dir : string)
    (ps : list SearchPattern) (allResults : list FileResult)
    : M run (list FileResult) :=
  match ps with
  | [] => ret allResults
  | pattern :: ps' =>
      (found <- runSearch h options dir pattern ;;
       searchPatterns h options dir ps' (allResults ++ found))%monad
  end.

Fixpoint searchDirectories (h : Host) (options : Options) (dirs : list string)
    (ps : list SearchPattern) (allResults : list FileResult)
    : M run (list FileResult) :=
  match dirs with
  | [] => ret allResults
  | dir :: dirs' =>
      (allResults' <- searchPatterns h options dir ps allResults ;;
       searchDirectories h options dirs' ps allResults')%monad
  end.

(** The decimal form of the timestamp in the template literal. *)
Definition decimal (n : nat) : string :=
  DecimalString.NilEmpty.string_of_uint (Nat.to_uint n).

Definition performSearch (h : Host) (job : SearchJob) (timestamp : nat)
    : M run string :=
  (try_catch
     (mkdir h (folder job) ;;
      allResults <-
        searchDirectories h
          (mkOptions (jobExcludeDirs job) (fileTypes job) (jobVerbose job))
          (directories job) (patterns job) [] ;;
      groupedResults <- lift (groupResultsByPattern allResults (patterns job)) ;;
      let formattedResults := formatSimpleResults groupedResults in
      let fullFileName := jobFileName job ++ "-" ++ decimal timestamp ++ ".txt" in
      let filePath := host_join h (folder job) fullFileName in
      writeFile h filePath formattedResults ;;
      when (jobVerbose job) (run_log (ConsoleLog ("Results written to: " ++ filePath))) ;;
      ret filePath)
     (fun error =>
        run_log (ConsoleError ("Error in performSearch: " ++ error)) ;;
        throw error))%monad.

(** ** Notions used by the statements *)

(** [p] occurs in [L] up to case: some substring of [L] has the lower-case
    form of [p]. *)
Definition ci_substring (p L : string) : Prop :=
  exists pre mid post, L = pre ++ mid ++ post /\ toLowerCase mid = toLowerCase p.

(** [p] occurs in [L] as it is written. *)
Definition cs_substring (p L : string) : Prop :=
  exists pre post, L = pre ++ p ++ post.

Definition occurs (isCaseSensitive : bool) (p L : string) : Prop :=
  if isCaseSensitive then cs_substring p L else ci_substring p L.

(** The test of the Matcher for one phrase: the expression of
    [createSearchRegex], applied to [text]. *)
Definition matcherPhraseTest (searchConfig : PatternSpec) (phrase text : string)
    : result bool :=
  (let? re := createSearchRegex searchConfig phrase (wholeWord searchConfig) in
   Ok (RegExp_test re text))%result.

(** The frame after the literals of [p], and the sequence they build. *)
Fixpoint push_lits (f : frame) (p : string) : frame :=
  match p with
  | EmptyString => f
  | String c t => push_lits (push_term f (LAtom (RChar c))) t
  end.

Fixpoint lit_seq (r0 : regex) (p : string) : regex :=
  match p with
  | EmptyString => r0
  | String c t => lit_seq (RSeq r0 (RChar c)) t
  end.

(** The expression [createSearchRegex] builds for a phrase: its code units
    as a sequence of literals, between two word boundaries in whole-word
    mode. *)
Definition phraseRegex (isWholeWord : bool) (p : string) : regex :=
  if isWholeWord then RSeq (lit_seq (RSeq REmpty RWordB) p) RWordB
  else lit_seq REmpty p.

(** A word boundary: a word character on exactly one side. *)
Definition boundary (x : position) : bool := xorb (wordBefore x) (wordAfter x).

(** The test of one phrase by the Matcher, in closed form. *)
Definition phraseFound (cfg : PatternSpec) (p L : string) : bool :=
  search (negb (caseSensitive cfg)) (phraseRegex (wholeWord cfg) p) None L.

(** [mid] is [p] up to the case rule of the expression. *)
Definition same_text (ignoreCase : bool) (p mid : string) : Prop :=
  if ignoreCase then toLowerCase mid = toLowerCase p else mid = p.

(** The last code unit of [pre], or [prev] when [pre] is empty. *)
Fixpoint last_char (prev : option ascii) (pre : string) : option ascii :=
  match pre with
  | EmptyString => prev
  | String c t => last_char (Some c) t
  end.

(** The code unit before an occurrence, when [pre] is what comes before it,
    and the code unit after it, when [post] is what comes after. *)
Definition ends_with_word (pre : string) : bool :=
  match last_char None pre with
  | Some c => isWordChar c
  | None => false
  end.

Definition starts_with_word (post : string) : bool :=
  match post with
  | String c _ => isWordChar c
  | EmptyString => false
  end.

(** An occurrence of [p] in [L], up to the case rule, with no word
    character next to it on either side. *)
Definition whole_word_occurrence (ignoreCase : bool) (p L : string) : Prop :=
  exists pre mid post,
    L = pre ++ mid ++ post /\ same_text ignoreCase p mid /\
    ends_with_word pre = false /\ starts_with_word post = false.

(** A phrase without any of the characters the Matcher escapes. *)
Fixpoint plain (s : string) : bool :=
  match s with
  | EmptyString => true
  | String c t => negb (isRegexSpecial c) && plain t
  end.

(** Reading the literal [p] at a position. *)
Fixpoint eat (ignoreCase : bool) (p : string) (x : position) : option position :=
  match p with
  | EmptyString => Some x
  | String c t =>
      match snd x with
      | String d s' =>
          if char_matches ignoreCase c d then eat ignoreCase t (Some d, s') else None
      | EmptyString => None
      end
  end.

Definition opt_list {A : Type} (o : option A) : list A :=
  match o with
  | Some a => [a]
  | None => []
  end.

Definition all_ascii : list ascii := map ascii_of_nat (seq 0 256).

(** *** The traversal as a writer *)

(** What a traversal appends to the state of the run. *)
Definition scan_app (s d : scan) : scan :=
  mkScan (results s ++ results d) (console s ++ console d) (calls s ++ calls d).

Definition scan_nil : scan := mkScan [] [] [].

Definition said (b : bool) (e : logEntry) : scan :=
  mkScan [] (if b then [e] else []) [].

(** The verdict of the Matcher on a line, in closed form. *)
Definition lineMatches (cfg : PatternSpec) (L : string) : bool :=
  phraseFound cfg (include cfg) L
  && negb (existsb (fun e => phraseFound cfg e L) (exclude cfg)).

Fixpoint linesOf (cfg : PatternSpec) (index : nat) (ls : list string)
    : list MatchLine :=
  match ls with
  | [] => []
  | line :: rest =>
      if lineMatches cfg line
      then mkLine (trim line) (index + 1) :: linesOf cfg (S index) rest
      else linesOf cfg (S index) rest
  end.

(** What [searchInFile] appends. *)
Definition fileOutput (o : Options) (cfg : PatternSpec) (filePath : string)
    (file : node) : scan :=
  scan_app (mkScan [] [] [CallSearchInFile filePath])
    (if negb (shouldIncludeFile o filePath) then scan_nil
     else
       match readFileSync file with
       | Ok text =>
           let found := linesOf cfg 0 (split_lines text) in
           mkScan (if (0 <? List.length found)%nat
                   then [mkFileResult filePath found] else []) [] []
       | Throw e =>
           said (verbose o) (ConsoleError ("Error reading file " ++ filePath ++ ": " ++ e))
       | OutOfModel => scan_nil
       end).

(** What [traverseDirectory] appends. *)
Fixpoint walk (o : Options) (cfg : PatternSpec) (path_join : string -> string -> string)
    (currentPath : string) (dir : node) {struct dir} : scan :=
  scan_app (mkScan [] [] [CallTraverseDirectory currentPath])
    (match dir with
     | NDir entries =>
         (fix each (items : list (string * node)) : scan :=
            match items with
            | [] => scan_nil
            | (item, child) :: more =>
                let fullPath := path_join currentPath item in
                scan_app
                  (match child with
                   | NNoStat m =>
                       said (verbose o)
                         (ConsoleError ("Error processing " ++ item ++ " in "
                                        ++ currentPath ++ ": " ++ m))
                   | NDir _ | NDirUnreadable _ =>
                       if negb (shouldSkipDirectory o item)
                       then walk o cfg path_join fullPath child
                       else said (verbose o)
                              (ConsoleLog ("Skipping excluded directory: " ++ fullPath))
                   | NFile _ | NFileUnreadable _ => fileOutput o cfg fullPath child
                   | NOther => scan_nil
                   end)
                  (each more)
            end) entries
     | other =>
         said (verbose o)
           (ConsoleError ("Error reading directory " ++ currentPath ++ ": "
                          ++ readdir_failure other))
     end).

(** The loop of [traverseDirectory] over the entries, and its writer. *)
Fixpoint eachItem (o : Options) (cfg : PatternSpec)
    (path_join : string -> string -> string) (currentPath : string)
    (items : list (string * node)) : M scan unit :=
  match items with
  | [] => ret tt
  | (item, child) :: more =>
      (try_catch
         (let fullPath := path_join currentPath item in
          stat <- lift (statSync child) ;;
          if isDirectory stat then
            if negb (shouldSkipDirectory o item)
            then traverseDirectory o cfg path_join fullPath child
            else when (verbose o)
                   (console_write
                      (ConsoleLog ("Skipping excluded directory: " ++ fullPath)))
          else if isFile stat then searchInFile o cfg fullPath child
          else ret tt)
         (fun error =>
            when (verbose o)
                 (console_write
                    (ConsoleError ("Error processing " ++ item ++ " in "
                                   ++ currentPath ++ ": " ++ error)))) ;;
       eachItem o cfg path_join currentPath more)%monad
  end.

Definition walkItem (o : Options) (cfg : PatternSpec)
    (path_join : string -> string -> string) (currentPath : string)
    (entry : string * node) : scan :=
  let fullPath := path_join currentPath (fst entry) in
  match snd entry with
  | NNoStat m =>
      said (verbose o)
        (ConsoleError ("Error processing " ++ fst entry ++ " in "
                       ++ currentPath ++ ": " ++ m))
  | NDir _ | NDirUnreadable _ =>
      if negb (shouldSkipDirectory o (fst entry))
      then walk o cfg path_join fullPath (snd entry)
      else said (verbose o) (ConsoleLog ("Skipping excluded directory: " ++ fullPath))
  | NFile _ | NFileUnreadable _ => fileOutput o cfg fullPath (snd entry)
  | NOther => scan_nil
  end.

Fixpoint walkItems (o : Options) (cfg : PatternSpec)
    (path_join : string -> string -> string) (currentPath : string)
    (items : list (string * node)) : scan :=
  match items with
  | [] => scan_nil
  | entry :: more =>
      scan_app (walkItem o cfg path_join currentPath entry)
               (walkItems o cfg path_join currentPath more)
  end.

(** *** Directory names and the rules that exclude them *)

Definition isDirNode (n : node) : Prop :=
  match n with
  | NDir _ | NDirUnreadable _ => True
  | _ => False
  end.

Definition isFileNode (n : node) : Prop :=
  match n with
  | NFile _ | NFileUnreadable _ => True
  | _ => False
  end.

(** A directory name and a rule, in the words of the specification: the
    name is the rule, or the rule is [*suffix] and the name ends with the
    suffix, or the rule is [prefix*] and the name starts with the prefix. *)
Definition ruleCovers (rule dirName : string) : Prop :=
  dirName = rule \/
  (exists suffix, rule = "*" ++ suffix /\ exists front, dirName = front ++ suffix) \/
  (exists prefix, rule = prefix ++ "*" /\ exists back, dirName = prefix ++ back).

Definition coveredBySomeRule (rules : list string) (dirName : string) : Prop :=
  exists rule, In rule rules /\ ruleCovers rule dirName.

(** The same, a rule that starts with [*] being a suffix rule only. *)
Definition ruleExcludes (rule dirName : string) : Prop :=
  dirName = rule \/
  (exists suffix, rule = "*" ++ suffix /\ exists front, dirName = front ++ suffix) \/
  (startsWith rule "*" = false /\
   exists prefix, rule = prefix ++ "*" /\ exists back, dirName = prefix ++ back).

Definition excludedName (rules : list string) (dirName : string) : Prop :=
  exists rule, In rule rules /\ ruleExcludes rule dirName.

(** The calls a walk of [dir] at [currentPath] may make: the walk of [dir]
    itself, the scan of a file entry, and the calls that a sub-directory
    whose name no rule excludes may make. *)
Inductive reached (rules : list string) (path_join : string -> string -> string)
    : string -> node -> call -> Prop :=
| reached_here currentPath dir :
    reached rules path_join currentPath dir (CallTraverseDirectory currentPath)
| reached_file currentPath entries item child :
    In (item, child) entries -> isFileNode child ->
    reached rules path_join currentPath (NDir entries)
            (CallSearchInFile (path_join currentPath item))
| reached_below currentPath entries item child c :
    In (item, child) entries -> isDirNode child ->
    ~ excludedName rules item ->
    reached rules path_join (path_join currentPath item) child c ->
    reached rules path_join currentPath (NDir entries) c.

(** *** The readable part of a tree *)

Definition failing (n : node) : bool :=
  match n with
  | NFileUnreadable _ | NDirUnreadable _ | NNoStat _ => true
  | _ => false
  end.

(** The tree without the entries that cannot be read, listed or examined. *)
Fixpoint readable (n : node) : node :=
  match n with
  | NDir entries =>
      NDir ((fix each (items : list (string * node)) : list (string * node) :=
               match items with
               | [] => []
               | (item, child) :: more =>
                   if failing child then each more
                   else (item, readable child) :: each more
               end) entries)
  | other => other
  end.

Fixpoint readableItems (items : list (string * node)) : list (string * node) :=
  match items with
  | [] => []
  | (item, child) :: more =>
      if failing child then readableItems more
      else (item, readable child) :: readableItems more
  end.

(** No entry of the tree fails. *)
Fixpoint allReadable (n : node) : bool :=
  match n with
  | NDir entries =>
      (fix each (items : list (string * node)) : bool :=
         match items with
         | [] => true
         | (_, child) :: more => negb (failing child) && allReadable child && each more
         end) entries
  | _ => true
  end.

(** *** The driver in closed form *)

(** [path.join] of a normalised directory path and an entry name. *)
Definition posix_join (dir name : string) : string := dir ++ "/" ++ name.

(** The results of the search of one directory for one pattern, and of all
    the directories for all the patterns, in the order of the two loops. *)
Definition foundIn (h : Host) (o : Options) (dir : string) (pattern : SearchPattern)
    : list FileResult :=
  results (walk o (normalize pattern) (host_join h) dir (lookup h dir)).

Definition allFound (h : Host) (o : Options) (dirs : list string)
    (ps : list SearchPattern) : list FileResult :=
  flat_map (fun dir => flat_map (foundIn h o dir) ps) dirs.

Definition jobOptions (job : SearchJob) : Options :=
  mkOptions (jobExcludeDirs job) (fileTypes job) (jobVerbose job).

Definition reportPath (h : Host) (job : SearchJob) (timestamp : nat) : string :=
  host_join h (folder job) (jobFileName job ++ "-" ++ decimal timestamp ++ ".txt").

(** The file a run writes, path and text, or the error it ends with. *)
Definition finalReport (h : Host) (job : SearchJob) (timestamp : nat)
    : result (string * string) :=
  match mkdir_failure h (folder job) with
  | Some e => Throw e
  | None =>
      (let? groupedResults :=
         groupResultsByPattern
           (allFound h (jobOptions job) (directories job) (patterns job))
           (patterns job) in
       let text := formatSimpleResults groupedResults in
       match writeFile_failure h (reportPath h job timestamp) text with
       | Some e => Throw e
       | None => Ok (reportPath h job timestamp, text)
       end)%result
  end.

(** The host whose file system is the readable part of that of [h]. *)
Definition readableHost (h : Host) : Host :=
  mkHost (fun path => readable (lookup h path)) (host_join h)
         (mkdir_failure h) (writeFile_failure h).

Definition withVerbose (job : SearchJob) (v : bool) : SearchJob :=
  mkJob (directories job) (patterns job) (fileTypes job) (jobExcludeDirs job)
        (folder job) (jobFileName job) v.

(** *** Groups *)

(** [file] is in the set that [g] holds for [key]. *)
Definition inGroup (g : GroupedResult) (key file : string) : Prop :=
  exists files, map_get g key = Some files /\ In file files.

(** [text] passes the include test of [pattern] and none of its exclude
    tests, the tests being those of the grouping. *)
Definition passes (pattern : SearchPattern) (text : string) : Prop :=
  groupRegexTest pattern (searchTermOf pattern) text = Ok true /\
  Forall (fun excludeTerm => groupRegexTest pattern excludeTerm text = Ok false)
         (pattern_exclude pattern).

(** No set of the map lists a string twice. *)
Definition setsNoDup (m : GroupedResult) : Prop :=
  forall k s, map_get m k = Some s -> NoDup s.

(** The order of [sort]: that of the code units. *)
Definition ascending (a b : string) : Prop := String.leb a b = true.

(** The distinct strings of a list, in the order of their first
    occurrence. *)
Fixpoint distinct (l : list string) : list string :=
  match l with
  | [] => []
  | k :: l' => k :: filter (fun x => negb (String.eqb x k)) (distinct l')
  end.

Definition filesOf (g : GroupedResult) (key : string) : list string :=
  match map_get g key with
  | Some files => files
  | None => []
  end.

(** The lines of the report as the specification words them: a group for
    each pattern, in the order of the patterns. *)
Definition reportLinesPerPattern (ps : list SearchPattern) (g : GroupedResult)
    : list string :=
  flat_map (fun pattern =>
              searchTermOf pattern
              :: (sort (filesOf g (searchTermOf pattern)) ++ [EmptyString])%list)
           ps.

(** The file-type filter as the specification words it: every comparison is
    made up to case.  A filter is [*suffix], [prefix*], or an extension. *)
Definition specFileAccepted (filters : list string) (fileName : string) : bool :=
  match filters with
  | [] => true
  | _ =>
      existsb
        (fun filter =>
           (negb (startsWith filter "*") && negb (endsWith filter "*")
            && String.eqb (toLowerCase (extname fileName)) (toLowerCase filter))
           || (startsWith filter "*"
               && endsWith (toLowerCase fileName) (toLowerCase (slice_from1 filter)))
           || (endsWith filter "*"
               && startsWith (toLowerCase fileName) (toLowerCase (slice_to_last filter))))
        filters
  end.

(** Some code unit of the string is a word character. *)
Fixpoint hasWordChar (s : string) : bool :=
  match s with
  | EmptyString => false
  | String c t => isWordChar c || hasWordChar t
  end.

(** *** Notions used by the further properties *)

(** The string holds no line feed. *)
Fixpoint noLF (s : string) : bool :=
  match s with
  | EmptyString => true
  | String c t => negb (Ascii.eqb c LF) && noLF t
  end.

(** The map that keeps an empty set for each of the keys. *)
Definition emptyGroups (keys : list string) : GroupedResult :=
  map (fun k => (k, [])) keys.

(** A wildcard filter whose remainder changes when it is lower-cased: it
    holds a capital letter. *)
Definition capitalWildcard (pattern : string) : Prop :=
  (startsWith pattern "*" = true /\
   toLowerCase (slice_from1 pattern) <> slice_from1 pattern) \/
  (startsWith pattern "*" = false /\ endsWith pattern "*" = true /\
   toLowerCase (slice_to_last pattern) <> slice_to_last pattern).

(** Every phrase of the pattern, include and exclude, is free of the
    characters the Matcher escapes. *)
Definition plainPattern (pattern : SearchPattern) : bool :=
  plain (searchTermOf pattern) && forallb plain (pattern_exclude pattern).

(** The string does not start, or does not end, with white space. *)
Definition cleanStart (s : string) : Prop :=
  match s with String c _ => isWhiteSpace c = false | EmptyString => True end.

Definition cleanEnd (s : string) : Prop :=
  match last_char None s with Some c => isWhiteSpace c = false | None => True end.

(** * Properties *)

(** ** Code units *)

Lemma all_ascii_complete (c : ascii) : In c all_ascii.
Proof.
  unfold all_ascii. rewrite <- (ascii_nat_embedding c).
  apply in_map, in_seq. pose proof (nat_ascii_bounded c). lia.
Qed.

Lemma forall_ascii (P : ascii -> bool) :
  forallb P all_ascii = true -> forall c, P c = true.
Proof.
  intros H c. rewrite forallb_forall in H. apply H, all_ascii_complete.
Qed.

Lemma forall_ascii2 (P : ascii -> ascii -> bool) :
  forallb (fun a => forallb (P a) all_ascii) all_ascii = true ->
  forall a b, P a b = true.
Proof.
  intros H a b.
  apply (forall_ascii (P a)).
  apply (forall_ascii (fun a => forallb (P a) all_ascii) H).
Qed.

(** The case rule of the expressions and lower-casing identify the same
    code units. *)
Lemma canonicalize_toLower (a b : ascii) :
  Ascii.eqb (canonicalize a) (canonicalize b)
  = Ascii.eqb (toLowerChar a) (toLowerChar b).
Proof.
  apply Bool.eqb_prop.
  apply (forall_ascii2
           (fun a b => Bool.eqb (Ascii.eqb (canonicalize a) (canonicalize b))
                                (Ascii.eqb (toLowerChar a) (toLowerChar b)))).
  vm_compute. reflexivity.
Qed.

(** Code units the case rule identifies are both word characters or both
    not. *)
Lemma canonicalize_word (a b : ascii) :
  Ascii.eqb (canonicalize a) (canonicalize b) = true ->
  isWordChar a = isWordChar b.
Proof.
  intros H. apply Bool.eqb_prop.
  pose proof (forall_ascii2
           (fun a b => implb (Ascii.eqb (canonicalize a) (canonicalize b))
                             (Bool.eqb (isWordChar a) (isWordChar b)))) as F.
  cbv beta in F. specialize (F ltac:(vm_compute; reflexivity) a b).
  rewrite H in F. exact F.
Qed.

Lemma char_matches_word (ic : bool) (a b : ascii) :
  char_matches ic a b = true -> isWordChar a = isWordChar b.
Proof.
  destruct ic; simpl.
  - apply canonicalize_word.
  - intros H. apply Ascii.eqb_eq in H. now subst.
Qed.

Lemma special_is_syntax (c : ascii) : isRegexSpecial c = isSyntaxCharacter c.
Proof.
  apply Bool.eqb_prop.
  apply (forall_ascii (fun c => Bool.eqb (isRegexSpecial c) (isSyntaxCharacter c))).
  vm_compute. reflexivity.
Qed.

(** ** Strings *)

Lemma append_empty_r (s : string) : s ++ "" = s.
Proof. induction s; simpl; congruence. Qed.

Lemma append_assoc (a b c : string) : (a ++ b) ++ c = a ++ b ++ c.
Proof. induction a; simpl; congruence. Qed.

Lemma str_map_length (f : ascii -> ascii) (s : string) :
  String.length (str_map f s) = String.length s.
Proof. induction s; simpl; congruence. Qed.

(** ** The parser on an escaped phrase *)

Lemma parse_plain (c : ascii) (stack : list frame) (f : frame) (rest : string) :
  isRegexSpecial c = false ->
  parse stack f (String c rest) = parse stack (push_term f (LAtom (RChar c))) rest.
Proof.
  destruct c as [[] [] [] [] [] [] [] []]; intros H;
    solve [ discriminate H | reflexivity ].
Qed.

Lemma parse_escaped (c : ascii) (stack : list frame) (f : frame) (rest : string) :
  isRegexSpecial c = true ->
  parse stack f (String "\" (String c rest))
  = parse stack (push_term f (LAtom (RChar c))) rest.
Proof.
  destruct c as [[] [] [] [] [] [] [] []]; intros H;
    solve [ discriminate H | reflexivity ].
Qed.

Lemma parse_escapeRegex (p rest : string) (stack : list frame) (f : frame) :
  parse stack f (escapeRegex p ++ rest) = parse stack (push_lits f p) rest.
Proof.
  revert f. induction p as [|c t IH]; intros f.
  - reflexivity.
  - cbn [escapeRegex push_lits].
    destruct (isRegexSpecial c) eqn:Hc.
    + change (String "\" (String c (escapeRegex t)) ++ rest)
        with (String "\" (String c (escapeRegex t ++ rest))).
      rewrite (parse_escaped c) by exact Hc. apply IH.
    + change (String c (escapeRegex t) ++ rest)
        with (String c (escapeRegex t ++ rest)).
      rewrite (parse_plain c) by exact Hc. apply IH.
Qed.

Lemma close_seq_push_lits (f : frame) (p : string) :
  close_seq (push_lits f p) = lit_seq (close_seq f) p.
Proof.
  revert f. induction p as [|c t IH]; intros f; [reflexivity|].
  cbn [push_lits lit_seq]. rewrite IH. reflexivity.
Qed.

Lemma f_alts_push_lits (f : frame) (p : string) :
  f_alts (push_lits f p) = f_alts f.
Proof.
  revert f. induction p as [|c t IH]; intros f; [reflexivity|].
  cbn [push_lits]. rewrite IH. reflexivity.
Qed.

(** [createSearchRegex] never throws. *)
Lemma createSearchRegex_ok (cfg : PatternSpec) (p : string) (isWholeWord : bool) :
  createSearchRegex cfg p isWholeWord
  = Ok (mkRegExp (phraseRegex isWholeWord p) (negb (caseSensitive cfg))).
Proof.
  unfold createSearchRegex, RegExp_new.
  assert (Hflag : char_in "i" (if caseSensitive cfg then "g" else "gi")
                  = negb (caseSensitive cfg)) by (destruct (caseSensitive cfg); reflexivity).
  destruct isWholeWord.
  - change ("\b" ++ escapeRegex p ++ "\b")
      with (String "\" (String "b" (escapeRegex p ++ "\b"))).
    change (parse [] empty_frame (String "\" (String "b" (escapeRegex p ++ "\b"))))
      with (parse [] (push_term empty_frame (LAssert RWordB)) (escapeRegex p ++ "\b")).
    rewrite parse_escapeRegex.
    change (parse [] (push_lits (push_term empty_frame (LAssert RWordB)) p) "\b")
      with (Ok (A := regex)
              (finish (push_term (push_lits (push_term empty_frame (LAssert RWordB)) p)
                                 (LAssert RWordB)))).
    rewrite Hflag. unfold finish.
    change (f_alts (push_term (push_lits (push_term empty_frame (LAssert RWordB)) p)
                              (LAssert RWordB)))
      with (f_alts (push_lits (push_term empty_frame (LAssert RWordB)) p)).
    change (close_seq (push_term (push_lits (push_term empty_frame (LAssert RWordB)) p)
                                 (LAssert RWordB)))
      with (RSeq (close_seq (push_lits (push_term empty_frame (LAssert RWordB)) p))
                 RWordB).
    rewrite f_alts_push_lits, close_seq_push_lits. reflexivity.
  - change ("" ++ escapeRegex p ++ "") with (escapeRegex p ++ "").
    rewrite parse_escapeRegex.
    change (parse [] (push_lits empty_frame p) "")
      with (Ok (A := regex) (finish (push_lits empty_frame p))).
    rewrite Hflag. unfold finish.
    rewrite f_alts_push_lits, close_seq_push_lits. reflexivity.
Qed.

(** ** Matching a phrase *)

Lemma flat_map_single {A : Type} (l : list A) : flat_map (fun y => [y]) l = l.
Proof. induction l; simpl; congruence. Qed.

Lemma flat_map_assoc {A B C : Type} (f : A -> list B) (g : B -> list C) (l : list A) :
  flat_map g (flat_map f l) = flat_map (fun x => flat_map g (f x)) l.
Proof.
  induction l as [|a l IH]; simpl; [reflexivity|].
  rewrite flat_map_app, IH. reflexivity.
Qed.

Lemma ends_lit_seq (ic : bool) (p : string) (r0 : regex) (x : position) :
  ends ic (lit_seq r0 p) x
  = flat_map (fun y => opt_list (eat ic p y)) (ends ic r0 x).
Proof.
  revert r0. induction p as [|c t IH]; intros r0.
  - simpl. symmetry. apply flat_map_single.
  - cbn [lit_seq]. rewrite IH. cbn [ends]. rewrite flat_map_assoc.
    apply flat_map_ext. intros [a s]. cbn [ends eat snd].
    destruct s as [|d s']; [reflexivity|].
    destruct (char_matches ic c d); simpl; [apply app_nil_r | reflexivity].
Qed.

Lemma matches_at_phrase (ic : bool) (p : string) (x : position) :
  matches_at ic (phraseRegex false p) x
  = match eat ic p x with Some _ => true | None => false end.
Proof.
  unfold matches_at, phraseRegex. rewrite ends_lit_seq. simpl.
  destruct (eat ic p x); reflexivity.
Qed.

Lemma matches_at_word (ic : bool) (p : string) (x : position) :
  matches_at ic (phraseRegex true p) x
  = boundary x && match eat ic p x with Some z => boundary z | None => false end.
Proof.
  unfold matches_at, phraseRegex. cbn [ends]. rewrite ends_lit_seq. cbn [ends flat_map].
  fold (boundary x). destruct (boundary x); simpl; [|reflexivity].
  destruct (eat ic p x) as [z|]; simpl; [|reflexivity].
  fold (boundary z). destruct (boundary z); reflexivity.
Qed.

Lemma toLowerCase_nil (s : string) : toLowerCase s = "" -> s = "".
Proof. destruct s; [reflexivity | discriminate]. Qed.

Lemma char_matches_same (ic : bool) (c d : ascii) :
  char_matches ic c d = true <->
  (if ic then toLowerChar d = toLowerChar c else d = c).
Proof.
  unfold char_matches. destruct ic.
  - rewrite canonicalize_toLower, Ascii.eqb_eq. split; congruence.
  - rewrite Ascii.eqb_eq. split; congruence.
Qed.

Lemma same_text_cons (ic : bool) (c d : ascii) (t mid : string) :
  same_text ic (String c t) (String d mid) <->
  char_matches ic c d = true /\ same_text ic t mid.
Proof.
  rewrite char_matches_same. unfold same_text, toLowerCase.
  destruct ic; cbn [str_map].
  - split; [intros H; injection H; auto | intros [-> ->]; reflexivity].
  - split; [intros H; injection H; auto | intros [-> ->]; reflexivity].
Qed.

Lemma same_text_nil_l (ic : bool) (mid : string) :
  same_text ic "" mid <-> mid = "".
Proof.
  unfold same_text. destruct ic; [|tauto].
  split; [apply toLowerCase_nil | intros ->; reflexivity].
Qed.

Lemma same_text_nil_r (ic : bool) (p : string) :
  same_text ic p "" <-> p = "".
Proof.
  unfold same_text. destruct ic.
  - split; [intros H; symmetry in H; now apply toLowerCase_nil | intros ->; reflexivity].
  - split; congruence.
Qed.

(** Reading a phrase at a position succeeds exactly when the input goes on
    with the phrase, up to the case rule. *)
Lemma eat_spec (ic : bool) (p : string) (a : option ascii) (s : string)
    (z : position) :
  eat ic p (a, s) = Some z <->
  exists mid post, s = mid ++ post /\ same_text ic p mid /\ z = (last_char a mid, post).
Proof.
  revert a s. induction p as [|c t IH]; intros a s.
  - simpl. split.
    + intros H. injection H as <-. exists "", s. repeat split.
      now apply same_text_nil_l.
    + intros (mid & post & -> & Hm & ->). apply same_text_nil_l in Hm. now subst.
  - cbn [eat snd]. destruct s as [|d s'].
    + split; [discriminate|].
      intros (mid & post & Hs & Hm & _). destruct mid; [|discriminate].
      apply same_text_nil_r in Hm. discriminate.
    + destruct (char_matches ic c d) eqn:Hcd.
      * rewrite IH. split.
        -- intros (mid & post & -> & Hm & ->). exists (String d mid), post.
           repeat split. apply same_text_cons. auto.
        -- intros (mid & post & Hs & Hm & ->). destruct mid as [|d' mid].
           ++ apply same_text_nil_r in Hm. discriminate.
           ++ simpl in Hs. injection Hs as <- ->.
              apply same_text_cons in Hm. exists mid, post. tauto.
      * split; [discriminate|].
        intros (mid & post & Hs & Hm & _). destruct mid as [|d' mid].
        -- apply same_text_nil_r in Hm. discriminate.
        -- simpl in Hs. injection Hs as <- ->.
           apply same_text_cons in Hm. destruct Hm as [Hm _]. congruence.
Qed.

(** The search finds a match exactly when the pattern matches at some
    position of the input. *)
Lemma search_spec (ic : bool) (r : regex) (prev : option ascii) (s : string) :
  search ic r prev s = true <->
  exists pre post, s = pre ++ post /\ matches_at ic r (last_char prev pre, post) = true.
Proof.
  revert prev. induction s as [|c t IH]; intros prev; cbn [search].
  - rewrite orb_false_r. split.
    + intros H. exists "", "". auto.
    + intros (pre & post & Hs & H). destruct pre; [|discriminate].
      destruct post; [|discriminate]. exact H.
  - rewrite orb_true_iff, IH. split.
    + intros [H | (pre & post & -> & H)].
      * exists "", (String c t). auto.
      * exists (String c pre), post. auto.
    + intros (pre & post & Hs & H). destruct pre as [|c' pre].
      * left. simpl in Hs. subst post. exact H.
      * right. simpl in Hs. injection Hs as <- ->. exists pre, post. auto.
Qed.

(** Without whole-word mode, the expression of a phrase finds a match
    exactly in the lines where the phrase occurs. *)
Lemma phrase_test_occurs (ic : bool) (p L : string) :
  search ic (phraseRegex false p) None L = true <-> occurs (negb ic) p L.
Proof.
  rewrite search_spec. split.
  - intros (pre & post & -> & H). rewrite matches_at_phrase in H.
    destruct (eat ic p (last_char None pre, post)) as [z|] eqn:E; [|discriminate].
    apply eat_spec in E. destruct E as (mid & post' & -> & Hm & _).
    unfold occurs, same_text in *. destruct ic; simpl.
    + exists pre, mid, post'. auto.
    + subst mid. exists pre, post'. reflexivity.
  - intros H.
    assert (exists pre mid post, L = pre ++ mid ++ post /\ same_text ic p mid)
      as (pre & mid & post & -> & Hm).
    { unfold occurs, same_text in *. destruct ic; simpl in H.
      - exact H.
      - destruct H as (pre & post & ->). exists pre, p, post. auto. }
    exists pre, (mid ++ post). split; [reflexivity|].
    rewrite matches_at_phrase.
    destruct (eat ic p (last_char None pre, mid ++ post)) as [z|] eqn:E; [reflexivity|].
    assert (exists z, eat ic p (last_char None pre, mid ++ post) = Some z) as [z Hz].
    { eexists. apply eat_spec. exists mid, post. repeat split. exact Hm. }
    congruence.
Qed.

Lemma some_result_ext {A : Type} (f g : A -> result bool) (l : list A) :
  (forall a, f a = g a) -> some_result f l = some_result g l.
Proof.
  intros H. induction l as [|a l IH]; simpl; [reflexivity|].
  rewrite H, IH. reflexivity.
Qed.

Lemma some_result_pure {A : Type} (g : A -> bool) (l : list A) :
  some_result (fun a => Ok (g a)) l = Ok (existsb g l).
Proof.
  induction l as [|a l IH]; simpl; [reflexivity|].
  destruct (g a); [reflexivity | exact IH].
Qed.

Lemma matcherPhraseTest_eq (cfg : PatternSpec) (p L : string) :
  matcherPhraseTest cfg p L = Ok (phraseFound cfg p L).
Proof.
  unfold matcherPhraseTest. rewrite createSearchRegex_ok. reflexivity.
Qed.

(** The Matcher never throws: its verdict is a boolean in closed form. *)
Lemma matchesSearchCriteria_eq (cfg : PatternSpec) (L : string) :
  matchesSearchCriteria cfg L
  = Ok (phraseFound cfg (include cfg) L
        && negb (existsb (fun e => phraseFound cfg e L) (exclude cfg))).
Proof.
  unfold matchesSearchCriteria. rewrite createSearchRegex_ok. cbn [rbind].
  unfold RegExp_test at 1. cbn [re_source re_ignoreCase].
  fold (phraseFound cfg (include cfg) L).
  destruct (phraseFound cfg (include cfg) L); [|reflexivity].
  cbn [negb andb].
  rewrite (some_result_ext _ (fun e => Ok (phraseFound cfg e L))).
  - rewrite some_result_pure. reflexivity.
  - intros e. rewrite createSearchRegex_ok. reflexivity.
Qed.

(** C1.  Without whole-word mode and without case sensitivity, the Matcher
    accepts a line exactly when the include phrase occurs in it up to case
    and no exclude phrase does; the phrases are taken literally, whatever
    characters they hold. *)
Theorem C1_matches_iff_substrings (cfg : PatternSpec) (L : string) :
  wholeWord cfg = false ->
  caseSensitive cfg = false ->
  (matchesSearchCriteria cfg L = Ok true <->
   ci_substring (include cfg) L /\
   forall e, In e (exclude cfg) -> ~ ci_substring e L).
Proof.
  intros Hw Hc. rewrite matchesSearchCriteria_eq.
  assert (Hp : forall p, phraseFound cfg p L = true <-> ci_substring p L).
  { intros p. unfold phraseFound. rewrite Hw, Hc. apply (phrase_test_occurs true). }
  split.
  - intros H. injection H as H. apply andb_true_iff in H. destruct H as [Hi He].
    split; [now apply Hp|].
    intros e Hin Hsub. apply negb_true_iff in He.
    assert (existsb (fun e => phraseFound cfg e L) (exclude cfg) = true); [|congruence].
    apply existsb_exists. exists e. split; [exact Hin | now apply Hp].
  - intros [Hi He]. f_equal. apply andb_true_iff. split; [now apply Hp|].
    apply negb_true_iff.
    destruct (existsb (fun e => phraseFound cfg e L) (exclude cfg)) eqn:E; [|reflexivity].
    apply existsb_exists in E. destruct E as (e & Hin & Hf).
    exfalso. apply (He e Hin). now apply Hp.
Qed.

Lemma C1_witness :
  matchesSearchCriteria (mkPattern "Foo(" ["bar."] false false) "x = foo(1); // barn"
  = Ok true <->
  ci_substring "Foo(" "x = foo(1); // barn" /\
  forall e, In e ["bar."] -> ~ ci_substring e "x = foo(1); // barn".
Proof.
  apply (C1_matches_iff_substrings (mkPattern "Foo(" ["bar."] false false)
           "x = foo(1); // barn"); reflexivity.
Defined.

(** ** Whole words *)

Lemma same_text_first (ic : bool) (p mid post : string) :
  same_text ic p mid -> p <> "" ->
  starts_with_word (mid ++ post) = starts_with_word p.
Proof.
  intros H Hp. destruct p as [|c t]; [congruence|].
  destruct mid as [|d m].
  - apply same_text_nil_r in H. discriminate.
  - apply same_text_cons in H. destruct H as [H _].
    simpl. symmetry. now apply (char_matches_word ic).
Qed.

Lemma same_text_last (ic : bool) (p mid : string) (a b : option ascii) :
  same_text ic p mid -> p <> "" ->
  match last_char a mid with Some c => isWordChar c | None => false end
  = match last_char b p with Some c => isWordChar c | None => false end.
Proof.
  revert mid a b. induction p as [|c t IH]; intros mid a b H Hp; [congruence|].
  destruct mid as [|d m].
  - apply same_text_nil_r in H. discriminate.
  - apply same_text_cons in H. destruct H as [Hcd H].
    cbn [last_char]. destruct t as [|c' t'].
    + apply same_text_nil_l in H. subst m. simpl.
      symmetry. now apply (char_matches_word ic).
    + apply IH; [exact H | discriminate].
Qed.

(** In whole-word mode, a phrase that begins and ends with a word character
    is found exactly where it occurs with no word character next to it. *)
Lemma wholeWord_spec (ic : bool) (p L : string) :
  starts_with_word p = true ->
  ends_with_word p = true ->
  (search ic (phraseRegex true p) None L = true <-> whole_word_occurrence ic p L).
Proof.
  intros Hfirst Hlast.
  assert (Hp : p <> "") by (intros ->; discriminate).
  rewrite search_spec. split.
  - intros (pre & post0 & -> & H). rewrite matches_at_word in H.
    apply andb_true_iff in H. destruct H as [Hx Hz].
    destruct (eat ic p (last_char None pre, post0)) as [z|] eqn:E; [|discriminate].
    apply eat_spec in E. destruct E as (mid & post & -> & Hm & ->).
    exists pre, mid, post. split; [reflexivity|]. split; [exact Hm|].
    unfold boundary, wordBefore, wordAfter in Hx, Hz. cbn [fst snd] in Hx, Hz.
    fold (starts_with_word (mid ++ post)) in Hx.
    rewrite (same_text_first ic p mid post Hm Hp), Hfirst in Hx.
    fold (ends_with_word pre) in Hx.
    rewrite (same_text_last ic p mid _ None Hm Hp) in Hz.
    fold (ends_with_word p) in Hz. rewrite Hlast in Hz.
    fold (starts_with_word post) in Hz.
    split.
    + destruct (ends_with_word pre); [discriminate | reflexivity].
    + destruct (starts_with_word post); [discriminate | reflexivity].
  - intros (pre & mid & post & -> & Hm & Hpre & Hpost).
    exists pre, (mid ++ post). split; [reflexivity|].
    rewrite matches_at_word.
    assert (eat ic p (last_char None pre, mid ++ post)
            = Some (last_char (last_char None pre) mid, post)) as ->.
    { apply eat_spec. exists mid, post. auto. }
    unfold boundary, wordBefore, wordAfter. cbn [fst snd].
    fold (starts_with_word (mid ++ post)).
    rewrite (same_text_first ic p mid post Hm Hp), Hfirst.
    fold (ends_with_word pre). rewrite Hpre.
    rewrite (same_text_last ic p mid _ None Hm Hp).
    fold (ends_with_word p). rewrite Hlast.
    fold (starts_with_word post). rewrite Hpost. reflexivity.
Qed.

(** C6.  The examples of whole-word mode and of case sensitivity, and the
    reason for the second one: in whole-word mode the phrase "cat" is found
    exactly where it occurs with no letter, digit or underscore next to it on
    either side. *)
Theorem C6_wholeWord_and_caseSensitive :
  matchesSearchCriteria (normalize (Phrase "cat")) "cat" = Ok true /\
  matchesSearchCriteria (mkPattern "cat" [] true false) "category" = Ok false /\
  matchesSearchCriteria (mkPattern "cat" [] false false) "category" = Ok true /\
  matchesSearchCriteria (mkPattern "cat" [] false true) "Cat" = Ok false /\
  matchesSearchCriteria (mkPattern "cat" [] false false) "Cat" = Ok true /\
  forall (isCaseSensitive : bool) (L : string),
    matchesSearchCriteria (mkPattern "cat" [] true isCaseSensitive) L = Ok true <->
    whole_word_occurrence (negb isCaseSensitive) "cat" L.
Proof.
  repeat split; try (vm_compute; reflexivity).
  - intros H. rewrite matchesSearchCriteria_eq in H. injection H as H.
    cbn [exclude existsb negb] in H. rewrite andb_true_r in H.
    unfold phraseFound in H. cbn [wholeWord caseSensitive include] in H.
    apply wholeWord_spec in H; [exact H | reflexivity | reflexivity].
  - intros H. rewrite matchesSearchCriteria_eq. f_equal.
    cbn [exclude existsb negb]. rewrite andb_true_r.
    unfold phraseFound. cbn [wholeWord caseSensitive include].
    apply wholeWord_spec; [reflexivity | reflexivity | exact H].
Qed.

(** ** The expressions of the grouping *)

Lemma escapeRegex_plain (s : string) : plain s = true -> escapeRegex s = s.
Proof.
  induction s as [|c t IH]; simpl; [reflexivity|].
  intros H. apply andb_true_iff in H. destruct H as [Hc Ht].
  apply negb_true_iff in Hc. rewrite Hc, IH by exact Ht. reflexivity.
Qed.

(** On a phrase without special characters the grouping and the Matcher
    build the same expression. *)
Lemma groupRegexTest_plain (pattern : SearchPattern) (term text : string) :
  plain term = true ->
  groupRegexTest pattern term text
  = matcherPhraseTest (normalize pattern) term text.
Proof.
  intros H. unfold groupRegexTest, matcherPhraseTest, createSearchRegex.
  rewrite (escapeRegex_plain term H).
  destruct pattern as [s|c]; simpl.
  - rewrite append_empty_r. reflexivity.
  - destruct (wholeWord c); simpl; [|rewrite append_empty_r]; reflexivity.
Qed.

(** C2.  The grouping does not escape the phrase: ["a.c"] is found in ["abc"]
    by the grouping and not by the Matcher, and on ["x("] the grouping throws
    where the Matcher finds the phrase. *)
Theorem C2_grouping_does_not_escape :
  groupRegexTest (Phrase "a.c") "a.c" "abc" = Ok true /\
  matcherPhraseTest (normalize (Phrase "a.c")) "a.c" "abc" = Ok false /\
  groupRegexTest (Phrase "x(") "x(" "f = x(1)"
  = Throw "Invalid regular expression: Unterminated group" /\
  matcherPhraseTest (normalize (Phrase "x(")) "x(" "f = x(1)" = Ok true.
Proof. repeat split; vm_compute; reflexivity. Qed.

(** ** The traversal *)

Lemma node_ind_nested (P : node -> Prop) :
  (forall t, P (NFile t)) ->
  (forall m, P (NFileUnreadable m)) ->
  (forall es, Forall (fun e => P (snd e)) es -> P (NDir es)) ->
  (forall m, P (NDirUnreadable m)) ->
  (forall m, P (NNoStat m)) ->
  P NOther ->
  forall n, P n.
Proof.
  intros Hf Hfu Hd Hdu Hns Ho.
  fix IH 1.
  intros [t|m|es|m|m|];
    [apply Hf | apply Hfu | | apply Hdu | apply Hns | apply Ho].
  apply Hd. induction es as [|[i c] es IHes]; constructor; [apply IH | exact IHes].
Qed.

Lemma scan_app_nil_r (s : scan) : scan_app s scan_nil = s.
Proof. destruct s. unfold scan_app. simpl. now rewrite !app_nil_r. Qed.

Lemma scan_app_nil_l (s : scan) : scan_app scan_nil s = s.
Proof. destruct s. reflexivity. Qed.

Lemma scan_app_assoc (a b c : scan) :
  scan_app (scan_app a b) c = scan_app a (scan_app b c).
Proof. unfold scan_app. simpl. now rewrite !app_assoc. Qed.

Lemma walk_NDir o cfg j cur es :
  walk o cfg j cur (NDir es)
  = scan_app (mkScan [] [] [CallTraverseDirectory cur]) (walkItems o cfg j cur es).
Proof.
  cbn [walk]. f_equal.
  induction es as [|[item child] more IH]; [reflexivity|].
  cbn [walkItems]. rewrite <- IH. reflexivity.
Qed.

Lemma traverse_NDir o cfg j cur es :
  traverseDirectory o cfg j cur (NDir es)
  = (record_call (CallTraverseDirectory cur) ;;
     try_catch (eachItem o cfg j cur es)
       (fun error =>
          when (verbose o)
               (console_write
                  (ConsoleError ("Error reading directory " ++ cur ++ ": " ++ error)))))%monad.
Proof.
  cbn [traverseDirectory].
  match goal with
  | |- bind _ (fun _ => try_catch (?F es) _) = _ =>
      assert (E : forall l, F l = eachItem o cfg j cur l)
  end.
  { induction l as [|[item child] more IH]; [reflexivity|].
    cbn [eachItem]. rewrite <- IH. reflexivity. }
  rewrite E. reflexivity.
Qed.

Lemma matchesSearchCriteria_lineMatches (cfg : PatternSpec) (L : string) :
  matchesSearchCriteria cfg L = Ok (lineMatches cfg L).
Proof. apply matchesSearchCriteria_eq. Qed.

Lemma matchingLinesFrom_eq (cfg : PatternSpec) (index : nat) (ls : list string) :
  matchingLinesFrom cfg index ls = Ok (linesOf cfg index ls).
Proof.
  revert index. induction ls as [|line rest IH]; intros index; [reflexivity|].
  cbn [matchingLinesFrom linesOf].
  rewrite matchesSearchCriteria_lineMatches, IH. reflexivity.
Qed.

(** [searchInFile] completes normally, whatever the file. *)
Lemma searchInFile_walk o cfg filePath file (s : scan) :
  searchInFile o cfg filePath file s
  = (Ok tt, scan_app s (fileOutput o cfg filePath file)).
Proof.
  unfold searchInFile, fileOutput, bind, record_call, modify, try_catch.
  destruct (shouldIncludeFile o filePath); cbn [negb].
  - unfold lift.
    destruct (readFileSync file) as [text| e |] eqn:E.
    + rewrite matchingLinesFrom_eq.
      destruct (0 <? List.length (linesOf cfg 0 (split_lines text)))%nat;
        destruct s; unfold when, push_result, modify, ret, scan_app; simpl;
        rewrite ?app_nil_r; reflexivity.
    + destruct (verbose o); destruct s;
        unfold when, console_write, modify, ret, scan_app, said; simpl;
        rewrite ?app_nil_r; reflexivity.
    + destruct file; discriminate E.
  - destruct s; unfold ret, scan_app; simpl; rewrite ?app_nil_r; reflexivity.
Qed.

Lemma eachItem_walk o cfg j cur es :
  Forall (fun e => forall cur' s,
            traverseDirectory o cfg j cur' (snd e) s
            = (Ok tt, scan_app s (walk o cfg j cur' (snd e)))) es ->
  forall s, eachItem o cfg j cur es s = (Ok tt, scan_app s (walkItems o cfg j cur es)).
Proof.
  induction 1 as [|[item child] more Hchild _ IH]; intros s.
  - cbn [eachItem walkItems]. unfold ret. now rewrite scan_app_nil_r.
  - cbn [eachItem walkItems]. cbn [snd] in Hchild.
    unfold bind at 1.
    assert (Hitem : forall s0,
      try_catch
        (let fullPath := j cur item in
         stat <- lift (statSync child) ;;
         if isDirectory stat then
           if negb (shouldSkipDirectory o item)
           then traverseDirectory o cfg j fullPath child
           else when (verbose o)
                  (console_write (ConsoleLog ("Skipping excluded directory: " ++ fullPath)))
         else if isFile stat then searchInFile o cfg fullPath child
         else ret tt)%monad
        (fun error =>
           when (verbose o)
                (console_write
                   (ConsoleError ("Error processing " ++ item ++ " in "
                                  ++ cur ++ ": " ++ error)))) s0
      = (Ok tt, scan_app s0 (walkItem o cfg j cur (item, child)))).
    { intros s0. unfold try_catch, bind, lift, walkItem. cbn [fst snd].
      destruct child as [t|m|es|m|m|]; cbn [statSync isDirectory isFile].
      - rewrite searchInFile_walk. reflexivity.
      - rewrite searchInFile_walk. reflexivity.
      - destruct (shouldSkipDirectory o item); cbn [negb].
        + destruct (verbose o); destruct s0;
            unfold when, console_write, modify, ret, scan_app, said; simpl;
            rewrite ?app_nil_r; reflexivity.
        + rewrite Hchild. reflexivity.
      - destruct (shouldSkipDirectory o item); cbn [negb].
        + destruct (verbose o); destruct s0;
            unfold when, console_write, modify, ret, scan_app, said; simpl;
            rewrite ?app_nil_r; reflexivity.
        + rewrite Hchild. reflexivity.
      - destruct (verbose o); destruct s0;
          unfold when, console_write, modify, ret, scan_app, said; simpl;
          rewrite ?app_nil_r; reflexivity.
      - unfold ret. now rewrite scan_app_nil_r. }
    rewrite Hitem, IH, scan_app_assoc. reflexivity.
Qed.

(** [traverseDirectory] completes normally on every tree, and appends what
    [walk] says. *)
Lemma traverse_walk o cfg j (n : node) :
  forall cur s,
    traverseDirectory o cfg j cur n s = (Ok tt, scan_app s (walk o cfg j cur n)).
Proof.
  induction n as [t|m|es IH|m|m|] using node_ind_nested; intros cur s;
    try (destruct (verbose o) eqn:V; destruct s;
         unfold traverseDirectory, walk, bind, record_call, modify, try_catch,
           throw, when, console_write, ret, scan_app, said;
         simpl; rewrite ?V; simpl; rewrite ?app_nil_r; reflexivity).
  rewrite traverse_NDir, walk_NDir.
  unfold bind, record_call, modify, try_catch.
  rewrite (eachItem_walk o cfg j cur es IH).
  f_equal. destruct s. unfold scan_app. simpl.
  rewrite ?app_nil_r, <- ?app_assoc. reflexivity.
Qed.

Lemma searchRecursively_walk j dirPath root pattern o out :
  searchRecursively j dirPath root pattern o out
  = (Ok (results (walk o (normalize pattern) j dirPath root)),
     scan_app (mkScan [] out []) (walk o (normalize pattern) j dirPath root)).
Proof.
  unfold searchRecursively. rewrite traverse_walk. reflexivity.
Qed.

Lemma fileOutput_results_verbose ed inc v1 v2 cfg filePath file :
  results (fileOutput (mkOptions ed inc v1) cfg filePath file)
  = results (fileOutput (mkOptions ed inc v2) cfg filePath file).
Proof.
  unfold fileOutput.
  change (shouldIncludeFile (mkOptions ed inc v1) filePath)
    with (shouldIncludeFile (mkOptions ed inc v2) filePath).
  destruct (shouldIncludeFile (mkOptions ed inc v2) filePath); [|reflexivity].
  cbn [negb]. destruct (readFileSync file); reflexivity.
Qed.

(** The results of a walk do not depend on [verbose]. *)
Lemma walk_results_verbose ed inc v1 v2 cfg j (n : node) :
  forall cur,
    results (walk (mkOptions ed inc v1) cfg j cur n)
    = results (walk (mkOptions ed inc v2) cfg j cur n).
Proof.
  induction n as [t|m|es IH|m|m|] using node_ind_nested; intros cur;
    try (cbn [walk verbose]; destruct v1, v2; reflexivity).
  rewrite !walk_NDir. cbn [scan_app results app].
  induction IH as [|[item child] more Hchild _ IHmore]; [reflexivity|].
  cbn [walkItems scan_app results]. rewrite IHmore. f_equal.
  unfold walkItem. cbn [fst snd] in *.
  change (shouldSkipDirectory (mkOptions ed inc v1) item)
    with (shouldSkipDirectory (mkOptions ed inc v2) item).
  destruct child as [t|m|es'|m|m|];
    try apply fileOutput_results_verbose;
    try (destruct (shouldSkipDirectory (mkOptions ed inc v2) item); cbn [negb];
         [cbn [verbose]; destruct v1, v2; reflexivity | apply Hchild]);
    try (cbn [verbose]; destruct v1, v2; reflexivity).
Qed.

(** Without [verbose] a walk writes nothing to the console. *)
Lemma walk_console_quiet o cfg j (n : node) :
  verbose o = false -> forall cur, console (walk o cfg j cur n) = [].
Proof.
  intros V.
  induction n as [t|m|es IH|m|m|] using node_ind_nested; intros cur;
    try (cbn [walk]; rewrite V; reflexivity).
  rewrite walk_NDir. cbn [scan_app console app].
  induction IH as [|[item child] more Hchild _ IHmore]; [reflexivity|].
  cbn [walkItems scan_app console]. rewrite IHmore, app_nil_r.
  unfold walkItem, fileOutput. cbn [fst snd] in *.
  destruct child as [t|m|es'|m|m|]; rewrite ?V; try reflexivity;
    try (destruct (shouldIncludeFile o (j cur item)); reflexivity);
    try (destruct (shouldSkipDirectory o item); cbn [negb];
         [reflexivity | apply Hchild]).
Qed.

Lemma readable_NDir (es : list (string * node)) :
  readable (NDir es) = NDir (readableItems es).
Proof. reflexivity. Qed.

Lemma allReadable_NDir (es : list (string * node)) :
  allReadable (NDir es)
  = forallb (fun e => negb (failing (snd e)) && allReadable (snd e)) es.
Proof.
  cbn [allReadable].
  induction es as [|[item child] more IH]; [reflexivity|].
  cbn [forallb snd]. rewrite <- IH. reflexivity.
Qed.

(** Nothing fails in the readable part of a tree. *)
Lemma readable_allReadable (n : node) : allReadable (readable n) = true.
Proof.
  induction n as [t|m|es IH|m|m|] using node_ind_nested; try reflexivity.
  rewrite readable_NDir, allReadable_NDir.
  induction IH as [|[item child] more Hchild _ IHmore]; [reflexivity|].
  cbn [readableItems]. destruct (failing child) eqn:F; [exact IHmore|].
  cbn [forallb snd]. cbn [snd] in Hchild. rewrite Hchild, IHmore, andb_true_r.
  destruct child; try discriminate F; try reflexivity.
Qed.

(** The entries that fail add nothing to the results, and the walk of the
    others is not disturbed: the results are those of the readable part. *)
Lemma walk_results_readable o cfg j (n : node) :
  forall cur,
    results (walk o cfg j cur (readable n)) = results (walk o cfg j cur n).
Proof.
  induction n as [t|m|es IH|m|m|] using node_ind_nested; intros cur;
    try reflexivity.
  rewrite readable_NDir, !walk_NDir. cbn [scan_app results app].
  induction IH as [|[item child] more Hchild _ IHmore]; [reflexivity|].
  cbn [readableItems walkItems scan_app results]. cbn [snd] in Hchild.
  destruct child as [t|m|es'|m|m|]; cbn [failing];
    cbn [walkItems scan_app results]; rewrite ?IHmore; try reflexivity.
  - unfold walkItem, fileOutput. cbn [fst snd readFileSync].
    destruct (shouldIncludeFile o (j cur item)); reflexivity.
  - f_equal. unfold walkItem. cbn [fst snd].
    rewrite readable_NDir.
    destruct (shouldSkipDirectory o item); cbn [negb]; [reflexivity|].
    rewrite <- readable_NDir. apply Hchild.
  - unfold walkItem. cbn [fst snd].
    destruct (shouldSkipDirectory o item); cbn [negb]; reflexivity.
Qed.

(** ** Prefixes and suffixes *)

Lemma length_app (a b : string) :
  String.length (a ++ b) = String.length a + String.length b.
Proof. induction a; simpl; congruence. Qed.

Lemma startsWith_spec (s p : string) :
  startsWith s p = true <-> exists back, s = p ++ back.
Proof.
  revert s. induction p as [|a p IH]; intros s; cbn [startsWith].
  - split; [intros _; exists s; reflexivity | reflexivity].
  - destruct s as [|b s].
    + split; [discriminate | intros [back H]; discriminate].
    + rewrite andb_true_iff, Ascii.eqb_eq, IH. split.
      * intros [-> [back ->]]. exists back. reflexivity.
      * intros [back H]. simpl in H. injection H as <- ->. eauto.
Qed.

Lemma substring_prefix (a b : string) : substring 0 (String.length a) (a ++ b) = a.
Proof. induction a; simpl; [destruct b; reflexivity | congruence]. Qed.

Lemma substring_skip (a b : string) (n : nat) :
  substring (String.length a) n (a ++ b) = substring 0 n b.
Proof. induction a; simpl; [reflexivity | assumption]. Qed.

Lemma substring_whole (s : string) : substring 0 (String.length s) s = s.
Proof. induction s; simpl; congruence. Qed.

Lemma substring_split (s : string) (k : nat) :
  k <= String.length s ->
  s = substring 0 k s ++ substring k (String.length s - k) s.
Proof.
  revert k. induction s as [|c s IH]; intros k Hk.
  - destruct k; reflexivity.
  - destruct k as [|k].
    + simpl. now rewrite substring_whole.
    + simpl in Hk. simpl. f_equal. apply IH. lia.
Qed.

Lemma endsWith_spec (s p : string) :
  endsWith s p = true <-> exists front, s = front ++ p.
Proof.
  unfold endsWith. rewrite andb_true_iff, Nat.leb_le, String.eqb_eq. split.
  - intros [Hle Hsub].
    exists (substring 0 (String.length s - String.length p) s).
    pose proof (substring_split s (String.length s - String.length p)) as Sp.
    replace (String.length s - (String.length s - String.length p))
      with (String.length p) in Sp by lia.
    rewrite Hsub in Sp. apply Sp. lia.
  - intros [front ->]. rewrite length_app. split; [lia|].
    replace (String.length front + String.length p - String.length p)
      with (String.length front) by lia.
    rewrite substring_skip. apply substring_whole.
Qed.

Lemma append_inj_tail (a b c : string) : a ++ c = b ++ c -> a = b.
Proof.
  intros H.
  assert (L : String.length a = String.length b).
  { apply (f_equal String.length) in H. rewrite !length_app in H. lia. }
  rewrite <- (substring_prefix a c), <- (substring_prefix b c), H, L. reflexivity.
Qed.

Lemma slice_from1_star (rule : string) :
  startsWith rule "*" = true -> rule = "*" ++ slice_from1 rule.
Proof.
  intros H. apply startsWith_spec in H. destruct H as [back ->]. reflexivity.
Qed.

Lemma slice_to_last_star (rule : string) :
  endsWith rule "*" = true -> rule = slice_to_last rule ++ "*".
Proof.
  intros H. apply endsWith_spec in H. destruct H as [front ->].
  unfold slice_to_last. rewrite length_app. cbn [String.length].
  replace (String.length front + 1 - 1) with (String.length front) by lia.
  now rewrite substring_prefix.
Qed.

(** ** Excluded directories *)

(** The test of one rule of [shouldSkipDirectory], and what it means. *)
Lemma skip_rule_spec (rule dirName : string) :
  (if startsWith rule "*" then endsWith dirName (slice_from1 rule)
   else if endsWith rule "*" then startsWith dirName (slice_to_last rule)
   else String.eqb dirName rule) = true
  <-> ruleExcludes rule dirName.
Proof.
  unfold ruleExcludes.
  destruct (startsWith rule "*") eqn:S.
  - pose proof (slice_from1_star rule S) as R. rewrite endsWith_spec. split.
    + intros [front ->]. right. left. exists (slice_from1 rule). eauto.
    + intros [-> | [(suffix & E & front & ->) | (F & _)]].
      * exists "*". exact R.
      * rewrite E. cbn [slice_from1 append]. eauto.
      * discriminate F.
  - destruct (endsWith rule "*") eqn:E.
    + pose proof (slice_to_last_star rule E) as R. rewrite startsWith_spec. split.
      * intros [back ->]. right. right. split; [reflexivity|].
        exists (slice_to_last rule). eauto.
      * intros [-> | [(suffix & E' & _) | (_ & prefix & E' & back & ->)]].
        -- exists "*". exact R.
        -- rewrite E' in S. discriminate S.
        -- subst rule. apply append_inj_tail in R. rewrite <- R. eauto.
    + rewrite String.eqb_eq. split.
      * intros ->. left. reflexivity.
      * intros [-> | [(suffix & E' & _) | (_ & prefix & E' & _)]].
        -- reflexivity.
        -- rewrite E' in S. discriminate S.
        -- assert (endsWith rule "*" = true) by (apply endsWith_spec; eauto).
           congruence.
Qed.

(** [shouldSkipDirectory] holds exactly of the names some rule excludes. *)
Lemma shouldSkipDirectory_spec (o : Options) (dirName : string) :
  shouldSkipDirectory o dirName = true <-> excludedName (excludeDirs o) dirName.
Proof.
  unfold shouldSkipDirectory, excludedName. rewrite existsb_exists.
  split; intros (rule & Hin & H); exists rule; split; auto;
    now apply skip_rule_spec.
Qed.

Lemma walkItems_calls o cfg j cur es c0 :
  In c0 (calls (walkItems o cfg j cur es)) ->
  exists entry, In entry es /\ In c0 (calls (walkItem o cfg j cur entry)).
Proof.
  induction es as [|entry more IH]; cbn [walkItems scan_app calls].
  - intros [].
  - rewrite in_app_iff. intros [H | H].
    + exists entry. split; [left; reflexivity | exact H].
    + destruct (IH H) as (e & Hin & He). exists e. split; [right; exact Hin | exact He].
Qed.

(** Every call of a walk is the walk of the root, the scan of a file entry,
    or a call below a directory entry whose name no rule excludes. *)
Lemma walk_calls_reached o cfg j (n : node) :
  forall cur c0,
    In c0 (calls (walk o cfg j cur n)) -> reached (excludeDirs o) j cur n c0.
Proof.
  induction n as [t|m|es IH|m|m|] using node_ind_nested; intros cur c0;
    try (cbn [walk scan_app calls said app]; intros [<- | []]; apply reached_here).
  rewrite walk_NDir. cbn [scan_app calls app]. intros [<- | H].
  { apply reached_here. }
  apply walkItems_calls in H. destruct H as ([item child] & Hin & H).
  rewrite Forall_forall in IH. specialize (IH _ Hin). cbn [snd] in IH.
  unfold walkItem in H. cbn [fst snd] in H.
  destruct child as [t|m|es'|m|m|].
  - unfold fileOutput in H. cbn [scan_app calls app] in H.
    destruct H as [<- | H].
    + eapply reached_file; [exact Hin | exact I].
    + exfalso. destruct (shouldIncludeFile o (j cur item)); cbn in H; exact H.
  - unfold fileOutput in H. cbn [scan_app calls app] in H.
    destruct H as [<- | H].
    + eapply reached_file; [exact Hin | exact I].
    + exfalso. destruct (shouldIncludeFile o (j cur item)); cbn in H; exact H.
  - destruct (shouldSkipDirectory o item) eqn:S; cbn [negb] in H.
    + destruct H.
    + eapply reached_below; [exact Hin | exact I | | apply IH, H].
      intros X. apply shouldSkipDirectory_spec in X. congruence.
  - destruct (shouldSkipDirectory o item) eqn:S; cbn [negb] in H.
    + destruct H.
    + eapply reached_below; [exact Hin | exact I | | apply IH, H].
      intros X. apply shouldSkipDirectory_spec in X. congruence.
  - destruct H.
  - destruct H.
Qed.

Lemma walkItems_app o cfg j cur es1 es2 :
  walkItems o cfg j cur (es1 ++ es2)
  = scan_app (walkItems o cfg j cur es1) (walkItems o cfg j cur es2).
Proof.
  induction es1 as [|e es1 IH]; cbn [walkItems app].
  - now rewrite scan_app_nil_l.
  - now rewrite IH, scan_app_assoc.
Qed.

(** A directory entry whose name a rule excludes is passed over whatever it
    holds: the results and the calls of the walk are those of the directory
    without the entry. *)
Lemma excluded_entry_skipped o cfg j cur before after item (sub : node) :
  isDirNode sub ->
  excludedName (excludeDirs o) item ->
  results (walk o cfg j cur (NDir (before ++ (item, sub) :: after)))
  = results (walk o cfg j cur (NDir (before ++ after))) /\
  calls (walk o cfg j cur (NDir (before ++ (item, sub) :: after)))
  = calls (walk o cfg j cur (NDir (before ++ after))).
Proof.
  intros D X. apply shouldSkipDirectory_spec in X.
  rewrite !walk_NDir, !walkItems_app. cbn [walkItems scan_app results calls app].
  assert (W : results (walkItem o cfg j cur (item, sub)) = []
              /\ calls (walkItem o cfg j cur (item, sub)) = []).
  { unfold walkItem. cbn [fst snd]. rewrite X.
    destruct sub; try destruct D; split; reflexivity. }
  destruct W as [-> ->]. split; reflexivity.
Qed.

(** C5 (amended).  Every call a walk makes, beyond those made before it, is
    the walk of the root, the scan of a file entry, or a call below a
    directory entry whose name no rule excludes: a directory whose name is a
    rule, or ends with the remainder of a rule that starts with [*], or
    starts with the remainder of a rule that ends with [*] and does not
    start with one, is never walked, and no file below it is scanned. *)
Theorem C5_excluded_directories_are_not_walked
    (o : Options) (cfg : PatternSpec) (j : string -> string -> string)
    (dirPath : string) (root : node) (s : scan) (c0 : call) :
  In c0 (calls (snd (traverseDirectory o cfg j dirPath root s))) ->
  In c0 (calls s) \/ reached (excludeDirs o) j dirPath root c0.
Proof.
  rewrite traverse_walk. cbn [snd scan_app calls]. rewrite in_app_iff.
  intros [H | H]; [left; exact H | right].
  now apply walk_calls_reached in H.
Qed.

Lemma C5_witness :
  In (CallSearchInFile "root/src/a.js") [] \/
  reached ["node_modules"; "*cache"] posix_join "root"
    (NDir [("node_modules", NDir [("m.js", NFile "phrase1")]);
           ("mycache", NDir [("c.js", NFile "phrase1")]);
           ("src", NDir [("a.js", NFile "phrase1")])])
    (CallSearchInFile "root/src/a.js").
Proof.
  apply (C5_excluded_directories_are_not_walked
           (mkOptions ["node_modules"; "*cache"] [] false)
           (normalize (Phrase "phrase1")) posix_join "root"
           (NDir [("node_modules", NDir [("m.js", NFile "phrase1")]);
                  ("mycache", NDir [("c.js", NFile "phrase1")]);
                  ("src", NDir [("a.js", NFile "phrase1")])])
           (mkScan [] [] [])).
  vm_compute. right. right. left. reflexivity.
Defined.

(** The claim as it is worded fails on a rule that both starts and ends with
    [*]: the name ["*xy"] starts with the remainder of the rule ["*x*"], and
    the directory is walked and its file scanned. *)
Lemma C5_counterexample :
  coveredBySomeRule ["*x*"] "*xy" /\
  let s := snd (traverseDirectory (mkOptions ["*x*"] [] false)
                  (normalize (Phrase "a")) posix_join "root"
                  (NDir [("*xy", NDir [("f.txt", NFile "a")])])
                  (mkScan [] [] [])) in
  In (CallTraverseDirectory "root/*xy") (calls s) /\
  In (CallSearchInFile "root/*xy/f.txt") (calls s) /\
  results s = [mkFileResult "root/*xy/f.txt" [mkLine "a" 1]].
Proof.
  split.
  - exists "*x*". split; [left; reflexivity|].
    right. right. exists "*x". split; [reflexivity|]. exists "y". reflexivity.
  - vm_compute. repeat split; auto.
Qed.

(** ** The driver *)

Lemma runSearch_walk h o dir pattern (s : run) :
  runSearch h o dir pattern s
  = (Ok (foundIn h o dir pattern),
     mkRun (run_console s
            ++ console (walk o (normalize pattern) (host_join h) dir (lookup h dir)))
           (written s)).
Proof.
  unfold runSearch. rewrite searchRecursively_walk. reflexivity.
Qed.

Lemma searchPatterns_walk h o dir ps :
  forall acc s, exists log,
    searchPatterns h o dir ps acc s
    = (Ok (acc ++ flat_map (foundIn h o dir) ps)%list,
       mkRun (run_console s ++ log) (written s)).
Proof.
  induction ps as [|pattern ps IH]; intros acc s.
  - exists []. cbn [searchPatterns flat_map]. unfold ret.
    rewrite !app_nil_r. destruct s; reflexivity.
  - cbn [searchPatterns flat_map]. unfold bind. rewrite runSearch_walk.
    destruct (IH (acc ++ foundIn h o dir pattern)%list
                 (mkRun (run_console s
                         ++ console (walk o (normalize pattern) (host_join h) dir
                                          (lookup h dir)))
                        (written s))) as [log E].
    rewrite E. cbn [run_console written].
    exists (console (walk o (normalize pattern) (host_join h) dir (lookup h dir)) ++ log)%list.
    rewrite <- !app_assoc. reflexivity.
Qed.

Lemma searchDirectories_walk h o ps dirs :
  forall acc s, exists log,
    searchDirectories h o dirs ps acc s
    = (Ok (acc ++ allFound h o dirs ps)%list, mkRun (run_console s ++ log) (written s)).
Proof.
  induction dirs as [|dir dirs IH]; intros acc s.
  - exists []. cbn [searchDirectories allFound flat_map]. unfold ret.
    rewrite !app_nil_r. destruct s; reflexivity.
  - cbn [searchDirectories]. unfold bind.
    destruct (searchPatterns_walk h o dir ps acc s) as [log1 E1]. rewrite E1.
    destruct (IH (acc ++ flat_map (foundIn h o dir) ps)%list
                 (mkRun (run_console s ++ log1) (written s))) as [log2 E2].
    rewrite E2. cbn [run_console written].
    exists (log1 ++ log2)%list. unfold allFound. cbn [flat_map].
    rewrite <- !app_assoc. reflexivity.
Qed.

(** What [performSearch] returns and what it writes. *)
Lemma performSearch_report h job timestamp (s : run) :
  fst (performSearch h job timestamp s)
  = (let? file := finalReport h job timestamp in Ok (fst file))%result
  /\ written (snd (performSearch h job timestamp s))
     = (written s ++ match finalReport h job timestamp with
                     | Ok file => [file]
                     | _ => []
                     end)%list.
Proof.
  unfold performSearch, finalReport.
  change (mkOptions (jobExcludeDirs job) (fileTypes job) (jobVerbose job))
    with (jobOptions job).
  change (host_join h (folder job)
            (jobFileName job ++ "-" ++ decimal timestamp ++ ".txt"))
    with (reportPath h job timestamp).
  unfold try_catch, bind, mkdir.
  destruct (mkdir_failure h (folder job)) as [e|].
  - unfold throw, run_log, modify. cbn. rewrite app_nil_r; split; reflexivity.
  - unfold ret. cbn beta iota.
    destruct (searchDirectories_walk h (jobOptions job) (patterns job)
                (directories job) [] s) as [log E].
    rewrite E. cbn [app]. unfold lift.
    destruct (groupResultsByPattern
                (allFound h (jobOptions job) (directories job) (patterns job))
                (patterns job)) as [g|e|]; cbn [rbind].
    + unfold writeFile.
      destruct (writeFile_failure h (reportPath h job timestamp)
                  (formatSimpleResults g)) as [e|].
      * unfold throw, run_log, modify. cbn. rewrite app_nil_r; split; reflexivity.
      * unfold modify, when, run_log, ret.
        destruct (jobVerbose job); cbn; split; reflexivity.
    + unfold throw, run_log, modify. cbn. rewrite app_nil_r; split; reflexivity.
    + cbn. rewrite app_nil_r; split; reflexivity.
Qed.

Lemma allFound_verbose h ed inc v1 v2 dirs ps :
  allFound h (mkOptions ed inc v1) dirs ps = allFound h (mkOptions ed inc v2) dirs ps.
Proof.
  unfold allFound. apply flat_map_ext. intros dir.
  apply flat_map_ext. intros pattern. apply walk_results_verbose.
Qed.

Lemma finalReport_verbose h job timestamp :
  finalReport h (withVerbose job true) timestamp
  = finalReport h (withVerbose job false) timestamp.
Proof.
  unfold finalReport, jobOptions, reportPath, withVerbose.
  cbn [folder jobExcludeDirs fileTypes jobVerbose directories patterns jobFileName].
  rewrite (allFound_verbose h _ _ true false). reflexivity.
Qed.

Lemma allFound_readable h o dirs ps :
  allFound (readableHost h) o dirs ps = allFound h o dirs ps.
Proof.
  unfold allFound. apply flat_map_ext. intros dir.
  apply flat_map_ext. intros pattern. apply walk_results_readable.
Qed.

Lemma finalReport_readable h job timestamp :
  finalReport (readableHost h) job timestamp = finalReport h job timestamp.
Proof.
  unfold finalReport, reportPath. rewrite allFound_readable. reflexivity.
Qed.

(** An entry that fails adds nothing to the results of its directory, and
    the entries before and after it are visited as if it were not there. *)
Lemma failing_entry_skipped o cfg j cur before after item (bad : node) :
  failing bad = true ->
  results (walk o cfg j cur (NDir (before ++ (item, bad) :: after)))
  = results (walk o cfg j cur (NDir (before ++ after))).
Proof.
  intros F. rewrite !walk_NDir, !walkItems_app. cbn [walkItems scan_app results app].
  do 2 f_equal.
  destruct bad as [t|m|es|m|m|]; try discriminate F;
    unfold walkItem, fileOutput; cbn [fst snd readFileSync].
  - destruct (shouldIncludeFile o (j cur item)); reflexivity.
  - destruct (shouldSkipDirectory o item); reflexivity.
  - reflexivity.
Qed.

(** C8.  A file that cannot be read, an entry that cannot be examined and a
    directory that cannot be listed are recovered from where they happen:
    the traversal always completes normally; the failing entry adds nothing
    to the results and its siblings are visited as if it were not there, so
    the results are those of the readable part of the tree; without
    [verbose] nothing is written to the console; and the report written is
    that of the readable part. *)
Theorem C8_failures_are_recovered_locally :
  (forall o cfg j dirPath root s,
      exists s', traverseDirectory o cfg j dirPath root s = (Ok tt, s')) /\
  (forall o cfg j cur before after item m,
      results (walk o cfg j cur (NDir (before ++ (item, NFileUnreadable m) :: after)))
      = results (walk o cfg j cur (NDir (before ++ after))) /\
      results (walk o cfg j cur (NDir (before ++ (item, NNoStat m) :: after)))
      = results (walk o cfg j cur (NDir (before ++ after))) /\
      results (walk o cfg j cur (NDir (before ++ (item, NDirUnreadable m) :: after)))
      = results (walk o cfg j cur (NDir (before ++ after)))) /\
  (forall j dirPath root pattern o out,
      exists found,
        fst (searchRecursively j dirPath root pattern o out) = Ok found /\
        found = results (walk o (normalize pattern) j dirPath root) /\
        fst (searchRecursively j dirPath (readable root) pattern o out) = Ok found) /\
  (forall root, allReadable (readable root) = true) /\
  (forall j dirPath root pattern ed inc out,
      console (snd (searchRecursively j dirPath root pattern (mkOptions ed inc false) out))
      = out) /\
  (forall h job timestamp s,
      fst (performSearch h job timestamp s)
      = fst (performSearch (readableHost h) job timestamp s) /\
      written (snd (performSearch h job timestamp s))
      = written (snd (performSearch (readableHost h) job timestamp s))).
Proof.
  split; [|split; [|split; [|split; [|split]]]].
  - intros. rewrite traverse_walk. eauto.
  - intros. repeat split; apply failing_entry_skipped; reflexivity.
  - intros. rewrite !searchRecursively_walk. cbn [fst].
    eexists. split; [reflexivity|]. split; [reflexivity|].
    now rewrite walk_results_readable.
  - apply readable_allReadable.
  - intros. rewrite searchRecursively_walk. cbn [snd scan_app console].
    rewrite walk_console_quiet by reflexivity. apply app_nil_r.
  - intros. split.
    + destruct (performSearch_report h job timestamp s) as [-> _].
      destruct (performSearch_report (readableHost h) job timestamp s) as [-> _].
      now rewrite finalReport_readable.
    + destruct (performSearch_report h job timestamp s) as [_ ->].
      destruct (performSearch_report (readableHost h) job timestamp s) as [_ ->].
      now rewrite finalReport_readable.
Qed.

(** C10.  [verbose] changes neither the results of [searchRecursively] nor
    what [performSearch] returns and writes; without it the search writes
    nothing to the console. *)
Theorem C10_verbose_only_adds_logging :
  (forall j dirPath root pattern ed inc out,
      fst (searchRecursively j dirPath root pattern (mkOptions ed inc true) out)
      = fst (searchRecursively j dirPath root pattern (mkOptions ed inc false) out)) /\
  (forall h job timestamp s,
      fst (performSearch h (withVerbose job true) timestamp s)
      = fst (performSearch h (withVerbose job false) timestamp s) /\
      written (snd (performSearch h (withVerbose job true) timestamp s))
      = written (snd (performSearch h (withVerbose job false) timestamp s))) /\
  (forall j dirPath root pattern ed inc out,
      console (snd (searchRecursively j dirPath root pattern (mkOptions ed inc false) out))
      = out).
Proof.
  split; [|split].
  - intros. rewrite !searchRecursively_walk. cbn [fst]. f_equal.
    apply walk_results_verbose.
  - intros. split.
    + destruct (performSearch_report h (withVerbose job true) timestamp s) as [-> _].
      destruct (performSearch_report h (withVerbose job false) timestamp s) as [-> _].
      now rewrite finalReport_verbose.
    + destruct (performSearch_report h (withVerbose job true) timestamp s) as [_ ->].
      destruct (performSearch_report h (withVerbose job false) timestamp s) as [_ ->].
      now rewrite finalReport_verbose.
  - intros. rewrite searchRecursively_walk. cbn [snd scan_app console].
    rewrite walk_console_quiet by reflexivity. apply app_nil_r.
Qed.

(** ** An empty include phrase *)

Lemma search_empty_phrase (ic : bool) (prev : option ascii) (L : string) :
  search ic (phraseRegex false "") prev L = true.
Proof. destruct L; reflexivity. Qed.

(** In whole-word mode the empty phrase is found at a word boundary: in the
    lines that hold a word character. *)
Lemma search_empty_word (ic : bool) (prev : option ascii) (L : string) :
  wordBefore (prev, L) = false ->
  search ic (phraseRegex true "") prev L = hasWordChar L.
Proof.
  revert prev. induction L as [|c t IH]; intros prev Hp.
  - cbn [search]. rewrite matches_at_word. unfold boundary. rewrite Hp. reflexivity.
  - cbn [search hasWordChar]. rewrite matches_at_word. cbn [eat].
    unfold boundary. unfold wordBefore in Hp |- *. cbn [fst] in Hp |- *.
    rewrite Hp. unfold wordAfter. cbn [snd xorb].
    destruct (isWordChar c) eqn:W; [reflexivity|].
    cbn [andb orb]. apply IH. unfold wordBefore. cbn [fst]. exact W.
Qed.

(** C9 (amended).  An empty include phrase is not rejected and does not
    match nothing.  The Matcher never throws on it and the search completes
    normally; without whole-word mode it accepts every line in which no
    exclude phrase occurs, hence every line when there is none; in whole-word
    mode and without exclude phrases it accepts the lines that hold a word
    character. *)
Theorem C9_empty_include_phrase :
  (forall (ex : list string) (ww cs : bool) (L : string),
      exists b, matchesSearchCriteria (mkPattern "" ex ww cs) L = Ok b) /\
  (forall (ex : list string) (cs : bool) (L : string),
      matchesSearchCriteria (mkPattern "" ex false cs) L = Ok true <->
      forall e, In e ex -> ~ occurs cs e L) /\
  (forall L, matchesSearchCriteria (normalize (Phrase "")) L = Ok true) /\
  (forall (cs : bool) (L : string),
      matchesSearchCriteria (mkPattern "" [] true cs) L = Ok (hasWordChar L)) /\
  (forall j dirPath root (ex : list string) (ww cs : bool) o out,
      exists found,
        fst (searchRecursively j dirPath root (Config (mkPattern "" ex ww cs)) o out)
        = Ok found).
Proof.
  split; [|split; [|split; [|split]]].
  - intros. rewrite matchesSearchCriteria_eq. eauto.
  - intros ex cs L. rewrite matchesSearchCriteria_eq.
    unfold phraseFound at 1. cbn [include exclude wholeWord caseSensitive].
    rewrite search_empty_phrase. cbn [andb].
    assert (Hp : forall p, phraseFound (mkPattern "" ex false cs) p L = true
                           <-> occurs cs p L).
    { intros p. unfold phraseFound. cbn [wholeWord caseSensitive].
      rewrite phrase_test_occurs. now rewrite negb_involutive. }
    split.
    + intros H e Hin Hocc. injection H as H. apply negb_true_iff in H.
      assert (existsb (fun e => phraseFound (mkPattern "" ex false cs) e L) ex = true);
        [|congruence].
      apply existsb_exists. exists e. split; [exact Hin | now apply Hp].
    + intros H. f_equal. apply negb_true_iff.
      destruct (existsb _ ex) eqn:E; [|reflexivity].
      apply existsb_exists in E. destruct E as (e & Hin & Hf).
      exfalso. apply (H e Hin). now apply Hp.
  - intros L. rewrite matchesSearchCriteria_eq. unfold phraseFound.
    cbn [normalize include exclude wholeWord caseSensitive existsb negb].
    rewrite search_empty_phrase. reflexivity.
  - intros cs L. rewrite matchesSearchCriteria_eq. unfold phraseFound.
    cbn [include exclude wholeWord caseSensitive existsb negb].
    rewrite andb_true_r. f_equal. now apply search_empty_word.
  - intros. rewrite searchRecursively_walk. cbn [fst]. eauto.
Qed.

(** The claim as it is worded fails: the empty phrase is accepted by
    [searchRecursively], which reports the line ["x"] as a match. *)
Lemma C9_counterexample :
  matchesSearchCriteria (normalize (Phrase "")) "x" = Ok true /\
  fst (searchRecursively posix_join "d" (NDir [("f.txt", NFile "x")]) (Phrase "")
         (mkOptions default_excludeDirs [] false) [])
  = Ok [mkFileResult "d/f.txt" [mkLine "x" 1]].
Proof. split; vm_compute; reflexivity. Qed.

(** ** Maps and sets in insertion order *)

Lemma map_get_set (m : GroupedResult) (k k' : string) (v : StringSet) :
  map_get (map_set m k v) k' = if String.eqb k k' then Some v else map_get m k'.
Proof.
  induction m as [|[k0 v0] m IH]; cbn [map_set map_get].
  - reflexivity.
  - destruct (String.eqb k0 k) eqn:E0; cbn [map_get].
    + apply String.eqb_eq in E0. subst k0.
      destruct (String.eqb k k'); reflexivity.
    + rewrite IH. destruct (String.eqb k0 k') eqn:E1; [|reflexivity].
      apply String.eqb_eq in E1. subst k0.
      rewrite String.eqb_sym, E0. reflexivity.
Qed.

Lemma map_set_keys (m : GroupedResult) (k : string) (v : StringSet) :
  map fst (map_set m k v)
  = if existsb (String.eqb k) (map fst m) then map fst m else (map fst m ++ [k])%list.
Proof.
  induction m as [|[k0 v0] m IH]; cbn [map_set map fst existsb app].
  - reflexivity.
  - rewrite (String.eqb_sym k k0).
    destruct (String.eqb k0 k) eqn:E0; cbn [map fst orb].
    + apply String.eqb_eq in E0. now subst.
    + rewrite IH. destruct (existsb (String.eqb k) (map fst m)); reflexivity.
Qed.

Lemma map_get_keys (m : GroupedResult) (k : string) :
  existsb (String.eqb k) (map fst m)
  = match map_get m k with Some _ => true | None => false end.
Proof.
  induction m as [|[k0 v0] m IH]; cbn [map_get map fst existsb]; [reflexivity|].
  rewrite (String.eqb_sym k k0). destruct (String.eqb k0 k); [reflexivity | exact IH].
Qed.

Lemma set_add_In (s : StringSet) (x y : string) :
  In y (set_add s x) <-> In y s \/ y = x.
Proof.
  unfold set_add, set_has. destruct (existsb (String.eqb x) s) eqn:E.
  - apply existsb_exists in E. destruct E as (z & Hz & Ez).
    apply String.eqb_eq in Ez. subst z. split; [auto | intros [H | ->]; auto].
  - rewrite in_app_iff. cbn [In]. split.
    + intros [H | [<- | []]]; auto.
    + intros [H | ->]; auto.
Qed.

Lemma some_result_false {A : Type} (f : A -> result bool) (l : list A) :
  some_result f l = Ok false <-> Forall (fun a => f a = Ok false) l.
Proof.
  induction l as [|a l IH]; cbn [some_result].
  - split; [constructor | reflexivity].
  - destruct (f a) as [[|]| e |] eqn:E.
    + split; [discriminate | intros H; inversion H; congruence].
    + rewrite IH. split; [intros H; constructor; assumption | intros H; now inversion H].
    + split; [discriminate | intros H; inversion H; congruence].
    + split; [discriminate | intros H; inversion H; congruence].
Qed.

(** ** Grouping *)

(** One step of the grouping adds the file to the set of the pattern's
    phrase when the matched text passes the pattern, and changes nothing
    else; the keys stay as they are. *)
Lemma groupStep_spec (r : FileResult) (m m' : GroupedResult) (P : SearchPattern) :
  groupStep r m P = Ok m' ->
  map fst m' = map fst m /\
  forall k f,
    inGroup m' k f <->
    inGroup m k f \/
    (k = searchTermOf P /\ f = fileName r /\ passes P (matchedText r)).
Proof.
  unfold groupStep, passes.
  destruct (groupRegexTest P (searchTermOf P) (matchedText r)) as [[|]| e |];
    cbn [rbind]; try discriminate.
  - destruct (some_result (fun t => groupRegexTest P t (matchedText r))
                          (pattern_exclude P)) as [[|]| e |] eqn:E;
      cbn [rbind negb]; try discriminate.
    + intros H. injection H as <-. split; [reflexivity|].
      intros k f. split; [auto|]. intros [H | (_ & _ & _ & H)]; [exact H|].
      apply some_result_false in H. congruence.
    + unfold map_get_add.
      destruct (map_get m (searchTermOf P)) as [s|] eqn:G; [|discriminate].
      intros H. injection H as <-. split.
      * rewrite map_set_keys, map_get_keys, G. reflexivity.
      * intros k f. unfold inGroup. rewrite map_get_set.
        destruct (String.eqb (searchTermOf P) k) eqn:K.
        -- apply String.eqb_eq in K. subst k. split.
           ++ intros (files & Hf & Hin). injection Hf as <-.
              apply set_add_In in Hin. destruct Hin as [Hin | ->].
              ** left. eauto.
              ** right. repeat split. now apply some_result_false.
           ++ intros [(files & Hf & Hin) | (_ & -> & _)].
              ** rewrite G in Hf. injection Hf as <-.
                 eexists. split; [reflexivity|]. apply set_add_In. auto.
              ** eexists. split; [reflexivity|]. apply set_add_In. auto.
        -- split; [auto|]. intros [H | (-> & _)]; [exact H|].
           rewrite String.eqb_refl in K. discriminate.
  - intros H. injection H as <-. split; [reflexivity|].
    intros k f. split; [auto|]. intros [H | (_ & _ & H & _)]; [exact H | discriminate].
Qed.

Lemma group_patterns_spec (r : FileResult) (ps : list SearchPattern) :
  forall m m',
    foldM (groupStep r) ps m = Ok m' ->
    map fst m' = map fst m /\
    forall k f,
      inGroup m' k f <->
      inGroup m k f \/
      exists P, In P ps /\ k = searchTermOf P /\ f = fileName r /\
                passes P (matchedText r).
Proof.
  induction ps as [|P ps IH]; intros m m'; cbn [foldM].
  - intros H. injection H as <-. split; [reflexivity|].
    intros k f. split; [auto|]. intros [H | (P & [] & _)]. exact H.
  - destruct (groupStep r m P) as [m1| e |] eqn:E; cbn [rbind]; try discriminate.
    intros H. apply groupStep_spec in E. destruct E as [K1 S1].
    apply IH in H. destruct H as [K2 S2]. split; [congruence|].
    intros k f. rewrite S2, S1. split.
    + intros [[H | H] | (Q & Hin & H)].
      * auto.
      * right. exists P. split; [left; reflexivity | exact H].
      * right. exists Q. split; [right; exact Hin | exact H].
    + intros [H | (Q & [<- | Hin] & H)]; [auto | auto |].
      right. exists Q. auto.
Qed.

Lemma group_results_spec (ps : list SearchPattern) (rs : list FileResult) :
  forall m m',
    foldM (fun m r => foldM (groupStep r) ps m) rs m = Ok m' ->
    map fst m' = map fst m /\
    forall k f,
      inGroup m' k f <->
      inGroup m k f \/
      exists r P, In r rs /\ In P ps /\ k = searchTermOf P /\ f = fileName r /\
                  passes P (matchedText r).
Proof.
  induction rs as [|r rs IH]; intros m m'; cbn [foldM].
  - intros H. injection H as <-. split; [reflexivity|].
    intros k f. split; [auto|]. intros [H | (r & P & [] & _)]. exact H.
  - destruct (foldM (groupStep r) ps m) as [m1| e |] eqn:E; cbn [rbind];
      try discriminate.
    intros H. apply group_patterns_spec in E. destruct E as [K1 S1].
    apply IH in H. destruct H as [K2 S2]. split; [congruence|].
    intros k f. rewrite S2, S1. split.
    + intros [[H | (P & Hin & H)] | (r' & P & Hr & H)].
      * auto.
      * right. exists r, P. split; [left; reflexivity | auto].
      * right. exists r', P. split; [right; exact Hr | exact H].
    + intros [H | (r' & P & [<- | Hr] & Hin & H)]; [auto | |].
      * left. right. exists P. auto.
      * right. exists r', P. auto.
Qed.

(** The map the grouping starts from: an empty set for each phrase. *)
Lemma initial_groups_get (ps : list SearchPattern) :
  forall m k,
    map_get (fold_left (fun m pattern => map_set m (searchTermOf pattern) []) ps m) k
    = if existsb (fun P => String.eqb (searchTermOf P) k) ps then Some []
      else map_get m k.
Proof.
  induction ps as [|P ps IH]; intros m k; cbn [fold_left existsb]; [reflexivity|].
  rewrite IH, map_get_set.
  destruct (existsb (fun P => String.eqb (searchTermOf P) k) ps);
    [now rewrite orb_true_r|].
  rewrite orb_false_r. reflexivity.
Qed.

Lemma filter_filter {A : Type} (f g : A -> bool) (l : list A) :
  filter f (filter g l) = filter (fun x => g x && f x) l.
Proof.
  induction l as [|a l IH]; cbn [filter]; [reflexivity|].
  destruct (g a); cbn [filter andb]; [destruct (f a)|]; rewrite IH; reflexivity.
Qed.

Lemma existsb_snoc (k x : string) (l : list string) :
  existsb (String.eqb x) (l ++ [k]) = existsb (String.eqb x) l || String.eqb x k.
Proof. rewrite existsb_app. cbn [existsb]. now rewrite orb_false_r. Qed.

Lemma initial_groups_keys (ps : list SearchPattern) :
  forall m,
    map fst (fold_left (fun m pattern => map_set m (searchTermOf pattern) []) ps m)
    = (map fst m
       ++ filter (fun x => negb (existsb (String.eqb x) (map fst m)))
                 (distinct (map searchTermOf ps)))%list.
Proof.
  induction ps as [|P ps IH]; intros m; cbn [fold_left map distinct filter].
  - now rewrite app_nil_r.
  - rewrite IH, map_set_keys.
    destruct (existsb (String.eqb (searchTermOf P)) (map fst m)) eqn:E; cbn [negb].
    + f_equal. rewrite filter_filter. apply filter_ext. intros x.
      destruct (String.eqb x (searchTermOf P)) eqn:X; [|reflexivity].
      apply String.eqb_eq in X. subst x. rewrite E. reflexivity.
    + rewrite <- app_assoc. cbn [app]. do 2 f_equal.
      rewrite filter_filter. apply filter_ext. intros x.
      rewrite existsb_snoc, negb_orb. apply andb_comm.
Qed.

Lemma filter_all {A : Type} (f : A -> bool) (l : list A) :
  (forall x, f x = true) -> filter f l = l.
Proof.
  intros H. induction l as [|a l IH]; cbn [filter]; [reflexivity|].
  rewrite H, IH. reflexivity.
Qed.

Lemma distinct_In (x : string) (l : list string) : In x (distinct l) <-> In x l.
Proof.
  induction l as [|k l IH]; cbn [distinct In]; [tauto|].
  rewrite filter_In, IH. split.
  - intros [H | [H _]]; auto.
  - intros [H | H]; [auto|].
    destruct (String.eqb x k) eqn:E.
    + apply String.eqb_eq in E. auto.
    + right. split; [exact H | reflexivity].
Qed.

(** The groups of the result: one for each distinct phrase, in the order of
    first occurrence; a file is in the group of a phrase exactly when the
    matched text of one of its results passes a pattern with this phrase. *)
Lemma groupResultsByPattern_spec (rs : list FileResult) (ps : list SearchPattern)
    (g : GroupedResult) :
  groupResultsByPattern rs ps = Ok g ->
  map fst g = distinct (map searchTermOf ps) /\
  forall k f,
    inGroup g k f <->
    exists r P, In r rs /\ In P ps /\ k = searchTermOf P /\ f = fileName r /\
                passes P (matchedText r).
Proof.
  unfold groupResultsByPattern. intros H.
  apply group_results_spec in H. destruct H as [K S]. split.
  - rewrite K, initial_groups_keys. cbn [map app]. now apply filter_all.
  - intros k f. rewrite S. split; [|auto].
    intros [(files & G & Hin) | H]; [|exact H].
    rewrite initial_groups_get in G. cbn [map_get] in G.
    destruct (existsb _ ps); [|discriminate]. injection G as <-. destruct Hin.
Qed.

(** C3 (amended).  When the grouping completes, a set is kept for the
    include phrase of every pattern [P], and a file path is in this set
    exactly when some [FileResult] for this path, whichever scan produced it,
    has a matched text that passes the include test and none of the exclude
    tests of a pattern whose include phrase is that of [P]; this pattern is
    [P] itself when no other pattern has its include phrase. *)
Theorem C3_group_membership
    (rs : list FileResult) (ps : list SearchPattern) (g : GroupedResult)
    (P : SearchPattern) (f : string) :
  groupResultsByPattern rs ps = Ok g ->
  In P ps ->
  (exists files, map_get g (searchTermOf P) = Some files) /\
  (inGroup g (searchTermOf P) f <->
   exists Q r, In Q ps /\ searchTermOf Q = searchTermOf P /\
               In r rs /\ fileName r = f /\ passes Q (matchedText r)) /\
  ((forall Q, In Q ps -> searchTermOf Q = searchTermOf P -> Q = P) ->
   (inGroup g (searchTermOf P) f <->
    exists r, In r rs /\ fileName r = f /\ passes P (matchedText r))).
Proof.
  intros H HP. apply groupResultsByPattern_spec in H. destruct H as [K S].
  assert (A : inGroup g (searchTermOf P) f <->
              exists Q r, In Q ps /\ searchTermOf Q = searchTermOf P /\
                          In r rs /\ fileName r = f /\ passes Q (matchedText r)).
  { rewrite S. split.
    - intros (r & Q & Hr & HQ & E & -> & Hp). exists Q, r. auto.
    - intros (Q & r & HQ & E & Hr & <- & Hp). exists r, Q. auto. }
  split; [|split; [exact A|]].
  - assert (E : existsb (String.eqb (searchTermOf P)) (map fst g) = true).
    { apply existsb_exists. exists (searchTermOf P).
      split; [|apply String.eqb_refl].
      rewrite K. apply distinct_In. now apply in_map. }
    rewrite map_get_keys in E.
    destruct (map_get g (searchTermOf P)) as [files|]; [eauto | discriminate].
  - intros U. rewrite A. split.
    + intros (Q & r & HQ & E & Hr & Hf & Hp).
      rewrite (U Q HQ E) in Hp. exists r. auto.
    + intros (r & Hr & Hf & Hp). exists P, r. auto.
Qed.

Lemma C3_witness :
  (exists files, map_get [("a", ["m.js"]); ("b", [])] "a" = Some files) /\
  (inGroup [("a", ["m.js"]); ("b", [])] "a" "m.js" <->
   exists Q r, In Q [Phrase "a"; Phrase "b"] /\ searchTermOf Q = "a" /\
               In r [mkFileResult "m.js" [mkLine "a c" 1]] /\ fileName r = "m.js" /\
               passes Q (matchedText r)) /\
  ((forall Q, In Q [Phrase "a"; Phrase "b"] -> searchTermOf Q = "a" -> Q = Phrase "a") ->
   (inGroup [("a", ["m.js"]); ("b", [])] "a" "m.js" <->
    exists r, In r [mkFileResult "m.js" [mkLine "a c" 1]] /\ fileName r = "m.js" /\
              passes (Phrase "a") (matchedText r))).
Proof.
  apply (C3_group_membership [mkFileResult "m.js" [mkLine "a c" 1]]
           [Phrase "a"; Phrase "b"] [("a", ["m.js"]); ("b", [])] (Phrase "a") "m.js").
  - vm_compute. reflexivity.
  - simpl. auto.
Defined.

(** The claim as it is worded fails when two patterns share an include
    phrase: the file is in the set of the first pattern although its matched
    text holds a phrase this pattern excludes. *)
Lemma C3_counterexample :
  let rs := [mkFileResult "m.js" [mkLine "a b" 1]] in
  let P := Config (mkPattern "a" ["b"] false false) in
  let ps := [P; Phrase "a"] in
  groupResultsByPattern rs ps = Ok [("a", ["m.js"])] /\
  inGroup [("a", ["m.js"])] (searchTermOf P) "m.js" /\
  ~ (exists r, In r rs /\ fileName r = "m.js" /\ passes P (matchedText r)).
Proof.
  cbv zeta. split; [vm_compute; reflexivity|]. split.
  - exists ["m.js"]. split; [reflexivity | left; reflexivity].
  - intros (r & [<- | []] & _ & _ & H).
    inversion H as [|x l Hx _]. vm_compute in Hx. discriminate Hx.
Qed.

(** ** The report *)

Lemma sort_insert_perm (x : string) (l : list string) :
  Permutation (x :: l) (sort_insert x l).
Proof.
  induction l as [|y l IH]; cbn [sort_insert]; [reflexivity|].
  destruct (String.leb x y); [reflexivity|].
  rewrite perm_swap. now apply perm_skip.
Qed.

Lemma sort_perm (l : list string) : Permutation l (sort l).
Proof.
  induction l as [|x l IH]; cbn [sort]; [reflexivity|].
  rewrite <- sort_insert_perm. now apply perm_skip.
Qed.

Lemma sort_insert_sorted (x : string) (l : list string) :
  Sorted ascending l -> Sorted ascending (sort_insert x l).
Proof.
  induction 1 as [|y l Hl IH Hd]; cbn [sort_insert].
  - repeat constructor.
  - destruct (String.leb x y) eqn:E.
    + constructor; [constructor; assumption | constructor; exact E].
    + constructor; [exact IH|].
      assert (Hyx : ascending y x).
      { destruct (String.leb_total x y) as [H | H]; [congruence | exact H]. }
      destruct Hd as [|z l Hyz]; cbn [sort_insert].
      * constructor. exact Hyx.
      * destruct (String.leb x z); constructor; assumption.
Qed.

Lemma sort_sorted (l : list string) : Sorted ascending (sort l).
Proof.
  induction l as [|x l IH]; cbn [sort]; [constructor|].
  now apply sort_insert_sorted.
Qed.

Lemma ascending_trans (a b c : string) :
  ascending a b -> ascending b c -> ascending a c.
Proof.
  unfold ascending, String.leb. revert b c.
  induction a as [|x a IH]; intros [|y b] [|z c]; cbn [String.compare];
    try congruence.
  destruct (Ascii.compare x y) eqn:XY; try congruence;
    destruct (Ascii.compare y z) eqn:YZ; try congruence.
  - apply Ascii.compare_eq_iff in XY, YZ. subst y z.
    assert (Ascii.compare x x = Eq) as -> by (unfold Ascii.compare; apply N.compare_refl).
    apply IH.
  - apply Ascii.compare_eq_iff in XY. subst y. rewrite YZ. congruence.
  - apply Ascii.compare_eq_iff in YZ. subst z. rewrite XY. congruence.
  - assert (Ascii.compare x z = Lt) as ->; [|congruence].
    unfold Ascii.compare in *. rewrite N.compare_lt_iff in *.
    eapply N.lt_trans; eassumption.
Qed.

(** [sort] puts every string before all those that follow it. *)
Lemma sort_strongly_sorted (l : list string) : StronglySorted ascending (sort l).
Proof.
  apply Sorted_StronglySorted; [|apply sort_sorted].
  intros a b c. apply ascending_trans.
Qed.


Lemma distinct_NoDup (l : list string) : NoDup (distinct l).
Proof.
  induction l as [|k l IH]; cbn [distinct]; constructor.
  - rewrite filter_In. intros [_ H]. now rewrite String.eqb_refl in H.
  - now apply NoDup_filter.
Qed.

Lemma filter_absent (k : string) (l : list string) :
  ~ In k l -> filter (fun x => negb (String.eqb x k)) l = l.
Proof.
  induction l as [|x l IH]; cbn [filter]; [reflexivity|].
  intros H. destruct (String.eqb x k) eqn:E.
  - apply String.eqb_eq in E. subst x. exfalso. apply H. left. reflexivity.
  - cbn [negb]. f_equal. apply IH. intros Hin. apply H. right. exact Hin.
Qed.

Lemma distinct_of_NoDup (l : list string) : NoDup l -> distinct l = l.
Proof.
  induction 1 as [|k l Hk Hl IH]; cbn [distinct]; [reflexivity|].
  rewrite IH. f_equal. now apply filter_absent.
Qed.

Lemma set_add_NoDup (s : StringSet) (x : string) : NoDup s -> NoDup (set_add s x).
Proof.
  intros H. unfold set_add, set_has.
  destruct (existsb (String.eqb x) s) eqn:E; [exact H|].
  apply (Permutation_NoDup (l := x :: s)).
  - rewrite Permutation_app_comm. reflexivity.
  - constructor; [|exact H]. intros Hin.
    assert (existsb (String.eqb x) s = true); [|congruence].
    apply existsb_exists. exists x. split; [exact Hin | apply String.eqb_refl].
Qed.

Lemma groupStep_NoDup (r : FileResult) (m m' : GroupedResult) (P : SearchPattern) :
  groupStep r m P = Ok m' -> setsNoDup m -> setsNoDup m'.
Proof.
  unfold groupStep.
  destruct (groupRegexTest P (searchTermOf P) (matchedText r)) as [[|]| e |];
    cbn [rbind]; try discriminate; [|intros H; injection H as <-; auto].
  destruct (some_result _ (pattern_exclude P)) as [[|]| e |];
    cbn [rbind negb]; try discriminate; [intros H; injection H as <-; auto|].
  unfold map_get_add.
  destruct (map_get m (searchTermOf P)) as [s|] eqn:G; [|discriminate].
  intros H Hm. injection H as <-. intros k s'. rewrite map_get_set.
  destruct (String.eqb (searchTermOf P) k).
  - intros E. injection E as <-. apply set_add_NoDup. eapply Hm. exact G.
  - apply Hm.
Qed.

Lemma foldM_invariant {A B : Type} (f : B -> A -> result B) (Inv : B -> Prop) :
  (forall b a b', f b a = Ok b' -> Inv b -> Inv b') ->
  forall l b b', foldM f l b = Ok b' -> Inv b -> Inv b'.
Proof.
  intros Hf. induction l as [|a l IH]; intros b b'; cbn [foldM].
  - intros H. injection H as <-. auto.
  - destruct (f b a) as [b1| e |] eqn:E; cbn [rbind]; try discriminate.
    intros H Hb. eapply IH; [exact H|]. eapply Hf; eassumption.
Qed.

Lemma groupResultsByPattern_NoDup (rs : list FileResult) (ps : list SearchPattern)
    (g : GroupedResult) :
  groupResultsByPattern rs ps = Ok g -> setsNoDup g.
Proof.
  unfold groupResultsByPattern. intros H.
  eapply (foldM_invariant _ setsNoDup); [| exact H |].
  - intros m r m' Hm. eapply (foldM_invariant _ setsNoDup); [|exact Hm].
    intros b P b'. apply groupStep_NoDup.
  - intros k s. rewrite initial_groups_get. cbn [map_get].
    destruct (existsb _ ps); [|discriminate]. intros E. injection E as <-. constructor.
Qed.

Lemma entries_by_keys (g : GroupedResult) :
  NoDup (map fst g) ->
  forall entry, In entry g -> map_get g (fst entry) = Some (snd entry).
Proof.
  induction g as [|[k0 v0] g IH]; cbn [map fst]; intros N entry; [intros []|].
  inversion N as [|x l Hk Hg]; subst. intros [<- | Hin]; cbn [map_get fst snd].
  - now rewrite String.eqb_refl.
  - destruct (String.eqb k0 (fst entry)) eqn:E.
    + apply String.eqb_eq in E. subst k0. exfalso. apply Hk.
      apply in_map. exact Hin.
    + now apply IH.
Qed.

Lemma reportLines_by_keys (g : GroupedResult) :
  NoDup (map fst g) ->
  reportLines g
  = flat_map (fun k => k :: (sort (filesOf g k) ++ [EmptyString])%list) (map fst g).
Proof.
  intros N. pose proof (entries_by_keys g N) as E. unfold reportLines.
  revert E. generalize g at 1 3 5. intros l E.
  induction l as [|entry l IH]; cbn [flat_map map]; [reflexivity|].
  unfold filesOf at 1. rewrite (E entry) by (left; reflexivity).
  f_equal. f_equal. apply IH. intros e He. apply E. right. exact He.
Qed.

Lemma flat_map_map {A B C : Type} (h : A -> B) (f : B -> list C) (l : list A) :
  flat_map f (map h l) = flat_map (fun a => f (h a)) l.
Proof. induction l as [|a l IH]; cbn [flat_map map]; congruence. Qed.

(** C7 (amended).  When the grouping completes, the report has one group for
    each distinct include phrase, in the order of first occurrence in the
    pattern list: a line with the phrase, the file paths of its set in
    ascending order, each once and on a line of its own, and one empty line.
    When the include phrases are pairwise distinct this is one group for each
    pattern, in the order of the patterns. *)
Theorem C7_report_format
    (rs : list FileResult) (ps : list SearchPattern) (g : GroupedResult) :
  groupResultsByPattern rs ps = Ok g ->
  reportLines g
  = flat_map (fun k => k :: (sort (filesOf g k) ++ [EmptyString])%list)
             (distinct (map searchTermOf ps)) /\
  formatSimpleResults g = join_lines (reportLines g) /\
  (forall k, StronglySorted ascending (sort (filesOf g k)) /\
             Permutation (filesOf g k) (sort (filesOf g k)) /\
             NoDup (filesOf g k)) /\
  (NoDup (map searchTermOf ps) -> reportLines g = reportLinesPerPattern ps g) /\
  sort ["z.js"; "a.js"; "m.js"] = ["a.js"; "m.js"; "z.js"].
Proof.
  intros H. pose proof (groupResultsByPattern_NoDup rs ps g H) as N.
  apply groupResultsByPattern_spec in H. destruct H as [K _].
  assert (L : reportLines g
              = flat_map (fun k => k :: (sort (filesOf g k) ++ [EmptyString])%list)
                         (distinct (map searchTermOf ps))).
  { rewrite <- K. apply reportLines_by_keys. rewrite K. apply distinct_NoDup. }
  split; [exact L|]. split; [reflexivity|]. split; [|split; [|reflexivity]].
  - intros k. split; [apply sort_strongly_sorted|]. split; [apply sort_perm|].
    unfold filesOf. destruct (map_get g k) as [s|] eqn:G; [|constructor].
    eapply N. exact G.
  - intros U. rewrite L, (distinct_of_NoDup _ U).
    unfold reportLinesPerPattern. apply flat_map_map.
Qed.

Lemma C7_witness :
  reportLines [("b", ["z.js"; "a.js"]); ("a", [])]
  = flat_map (fun k => k :: (sort (filesOf [("b", ["z.js"; "a.js"]); ("a", [])] k)
                             ++ [EmptyString])%list)
             (distinct (map searchTermOf [Phrase "b"; Phrase "a"; Phrase "b"])).
Proof.
  apply (C7_report_format
           [mkFileResult "z.js" [mkLine "b" 1]; mkFileResult "a.js" [mkLine "b" 2]]
           [Phrase "b"; Phrase "a"; Phrase "b"]
           [("b", ["z.js"; "a.js"]); ("a", [])]).
  vm_compute. reflexivity.
Defined.

(** The claim as it is worded fails when two patterns share an include
    phrase: the report has one group for the phrase, not one for each of the
    two patterns. *)
Lemma C7_counterexample :
  let ps := [Phrase "a"; Phrase "a"] in
  groupResultsByPattern [] ps = Ok [("a", [])] /\
  reportLines [("a", [])] = ["a"; ""] /\
  reportLinesPerPattern ps [("a", [])] = ["a"; ""; "a"; ""] /\
  formatSimpleResults [("a", [])] = "a" ++ newline.
Proof. cbv zeta. repeat split; vm_compute; reflexivity. Qed.

(** ** The file-type filter *)

Lemma str_map_substring (f : ascii -> ascii) (s : string) :
  forall n m, str_map f (substring n m s) = substring n m (str_map f s).
Proof.
  induction s as [|c s IH]; intros n m.
  - destruct n, m; reflexivity.
  - destruct n as [|n]; [destruct m as [|m]|]; cbn [substring str_map];
      rewrite ?IH; reflexivity.
Qed.

Lemma toLowerCase_slice_from1 (s : string) :
  toLowerCase (slice_from1 s) = slice_from1 (toLowerCase s).
Proof. destruct s; reflexivity. Qed.

Lemma toLowerCase_slice_to_last (s : string) :
  toLowerCase (slice_to_last s) = slice_to_last (toLowerCase s).
Proof.
  unfold slice_to_last, toLowerCase. now rewrite str_map_substring, str_map_length.
Qed.

Lemma existsb_ext_in {A : Type} (f g : A -> bool) (l : list A) :
  (forall x, In x l -> f x = g x) -> existsb f l = existsb g l.
Proof.
  induction l as [|a l IH]; cbn [existsb]; [reflexivity|].
  intros H. rewrite (H a) by (left; reflexivity).
  rewrite IH; [reflexivity|]. intros x Hx. apply H. right. exact Hx.
Qed.

(** On filters written in lower case, none of which both starts and ends
    with [*], the filter of the code is the one the specification words. *)
Lemma shouldIncludeFile_lower_filters (ed filters : list string) (v : bool)
    (fileName : string) :
  (forall filter, In filter filters ->
                  toLowerCase filter = filter /\
                  startsWith filter "*" && endsWith filter "*" = false) ->
  shouldIncludeFile (mkOptions ed filters v) fileName
  = specFileAccepted filters fileName.
Proof.
  intros H. unfold shouldIncludeFile, specFileAccepted. cbn [includeFiles].
  destruct filters as [|filter0 rest]; [reflexivity|].
  cbn [List.length Nat.eqb]. apply existsb_ext_in. intros filter Hin.
  destruct (H filter Hin) as [Hl Hs].
  rewrite toLowerCase_slice_from1, toLowerCase_slice_to_last, Hl.
  destruct (startsWith filter "*"), (endsWith filter "*");
    cbn [andb orb negb] in *; try discriminate Hs;
    rewrite ?orb_false_r; reflexivity.
Qed.

(** C4.  The wildcard filters are compared with the lower-cased file name
    as they are written, so a filter with a capital letter in it accepts no
    file, where the extension filter is lower-cased before the comparison:
    ["*.JS"] rejects ["src/a.js"] and ["Test*"] rejects ["test1.js"], which
    the filter of the specification accepts, and [".JS"] accepts
    ["src/a.js"]. *)
Theorem C4_wildcard_filters_keep_their_case :
  shouldIncludeFile (mkOptions default_excludeDirs ["*.JS"] false) "src/a.js" = false /\
  specFileAccepted ["*.JS"] "src/a.js" = true /\
  shouldIncludeFile (mkOptions default_excludeDirs ["Test*"] false) "test1.js" = false /\
  specFileAccepted ["Test*"] "test1.js" = true /\
  shouldIncludeFile (mkOptions default_excludeDirs [".JS"] false) "src/a.js" = true /\
  shouldIncludeFile (mkOptions default_excludeDirs ["*.js"] false) "src/a.JS" = true /\
  forall fileName, shouldIncludeFile (mkOptions default_excludeDirs [] false) fileName = true.
Proof. repeat split; vm_compute; reflexivity. Qed.

(** * Further properties *)

(** ** The Matcher *)

(** X1.  [createSearchRegex] returns an expression for every phrase, whatever
    characters it holds, in both modes, and the Matcher returns a verdict for
    every pattern and every line: neither ever throws. *)
Theorem X1_matcher_never_throws (cfg : PatternSpec) (p L : string) (ww : bool) :
  (exists re, createSearchRegex cfg p ww = Ok re) /\
  (exists b, matchesSearchCriteria cfg L = Ok b).
Proof.
  split.
  - rewrite createSearchRegex_ok. eauto.
  - rewrite matchesSearchCriteria_eq. eauto.
Qed.

(** X2.  Without whole-word mode and with case sensitivity, the Matcher
    accepts a line exactly when the include phrase occurs in it as written
    and no exclude phrase does. *)
Theorem X2_case_sensitive_matches_iff_substrings
    (inc : string) (ex : list string) (L : string) :
  matchesSearchCriteria (mkPattern inc ex false true) L = Ok true <->
  cs_substring inc L /\ forall e, In e ex -> ~ cs_substring e L.
Proof.
  rewrite matchesSearchCriteria_eq. cbn [include exclude].
  assert (Hp : forall p, phraseFound (mkPattern inc ex false true) p L = true
                         <-> cs_substring p L).
  { intros p. unfold phraseFound. cbn [wholeWord caseSensitive negb].
    apply (phrase_test_occurs false). }
  split.
  - intros H. injection H as H. apply andb_true_iff in H. destruct H as [Hi He].
    split; [now apply Hp|].
    intros e Hin Hsub. apply negb_true_iff in He.
    assert (existsb (fun e => phraseFound (mkPattern inc ex false true) e L) ex = true);
      [|congruence].
    apply existsb_exists. exists e. split; [exact Hin | now apply Hp].
  - intros [Hi He]. f_equal. apply andb_true_iff. split; [now apply Hp|].
    apply negb_true_iff.
    destruct (existsb _ ex) eqn:E; [|reflexivity].
    apply existsb_exists in E. destruct E as (e & Hin & Hf).
    exfalso. apply (He e Hin). now apply Hp.
Qed.

Lemma eat_case (p : string) (x z : position) :
  eat false p x = Some z -> eat true p x = Some z.
Proof.
  revert x. induction p as [|c t IH]; intros [a s]; cbn [eat snd]; [auto|].
  destruct s as [|d s']; [discriminate|].
  unfold char_matches. destruct (Ascii.eqb c d) eqn:E; [|discriminate].
  apply Ascii.eqb_eq in E. subst d. rewrite Ascii.eqb_refl. apply IH.
Qed.

Lemma matches_at_case (ww : bool) (p : string) (x : position) :
  matches_at false (phraseRegex ww p) x = true ->
  matches_at true (phraseRegex ww p) x = true.
Proof.
  destruct ww.
  - rewrite !matches_at_word.
    destruct (eat false p x) as [z|] eqn:E; [|now rewrite andb_false_r].
    now rewrite (eat_case p x z E).
  - rewrite !matches_at_phrase.
    destruct (eat false p x) as [z|] eqn:E; [|discriminate].
    now rewrite (eat_case p x z E).
Qed.

Lemma matches_at_whole (ic : bool) (p : string) (x : position) :
  matches_at ic (phraseRegex true p) x = true ->
  matches_at ic (phraseRegex false p) x = true.
Proof.
  rewrite matches_at_word, matches_at_phrase.
  intros H. apply andb_true_iff in H. destruct H as [_ H].
  destruct (eat ic p x); [reflexivity | discriminate].
Qed.

Lemma search_mono (ic ic' : bool) (r r' : regex) (L : string) :
  (forall x, matches_at ic r x = true -> matches_at ic' r' x = true) ->
  forall prev, search ic r prev L = true -> search ic' r' prev L = true.
Proof.
  intros H. induction L as [|c t IH]; intros prev; cbn [search];
    rewrite !orb_true_iff.
  - intros [M | M]; [left; now apply H | discriminate].
  - intros [M | M]; [left; now apply H | right; now apply IH].
Qed.

(** X3.  The two modes only narrow what a phrase finds: where a phrase is
    found in whole-word mode it is found without it, and where it is found
    with case sensitivity it is found without it. *)
Theorem X3_modes_only_narrow (inc : string) (ex : list string) (p L : string) :
  (forall cs,
      matcherPhraseTest (mkPattern inc ex true cs) p L = Ok true ->
      matcherPhraseTest (mkPattern inc ex false cs) p L = Ok true) /\
  (forall ww,
      matcherPhraseTest (mkPattern inc ex ww true) p L = Ok true ->
      matcherPhraseTest (mkPattern inc ex ww false) p L = Ok true).
Proof.
  split; intros b; rewrite !matcherPhraseTest_eq; unfold phraseFound;
    cbn [wholeWord caseSensitive negb]; intros H; injection H as H; f_equal.
  - revert H. apply search_mono. intros x. apply matches_at_whole.
  - revert H. apply search_mono. intros x. apply matches_at_case.
Qed.

(** ** The File Scanner *)

Lemma linesOf_In (cfg : PatternSpec) (ls : list string) :
  forall k ml,
    In ml (linesOf cfg k ls) <->
    exists i line, nth_error ls i = Some line /\ lineMatches cfg line = true /\
                   ml = mkLine (trim line) (k + i + 1).
Proof.
  induction ls as [|line rest IH]; intros k ml; cbn [linesOf].
  - split; [intros [] | intros (i & l & H & _)]. destruct i; discriminate H.
  - assert (T : In ml (linesOf cfg (S k) rest) <->
                exists i l, nth_error rest i = Some l /\ lineMatches cfg l = true /\
                            ml = mkLine (trim l) (k + S i + 1)).
    { rewrite IH. split; intros (i & l & H1 & H2 & ->); exists i, l;
        repeat split; auto; f_equal; lia. }
    destruct (lineMatches cfg line) eqn:E; cbn [In]; rewrite T; split.
    + intros [<- | (i & l & H1 & H2 & ->)].
      * exists 0, line. repeat split; auto; try (f_equal; lia).
      * exists (S i), l. auto.
    + intros ([|i] & l & H1 & H2 & ->); cbn [nth_error] in H1.
      * injection H1 as <-. left. f_equal. lia.
      * right. exists i, l. auto.
    + intros (i & l & H1 & H2 & ->). exists (S i), l. auto.
    + intros ([|i] & l & H1 & H2 & ->); cbn [nth_error] in H1.
      * injection H1 as <-. congruence.
      * exists i, l. auto.
Qed.

Lemma linesOf_numbers (cfg : PatternSpec) (ls : list string) :
  forall k,
    Forall (fun n => k < n) (map lineNumber (linesOf cfg k ls)) /\
    StronglySorted lt (map lineNumber (linesOf cfg k ls)).
Proof.
  induction ls as [|line rest IH]; intros k; cbn [linesOf].
  - split; constructor.
  - destruct (IH (S k)) as [F St].
    assert (F' : Forall (fun n => k < n) (map lineNumber (linesOf cfg (S k) rest))).
    { eapply Forall_impl; [|exact F]. intros n Hn. cbv beta in *. lia. }
    destruct (lineMatches cfg line); [|split; assumption].
    cbn [map lineNumber]. split.
    + constructor; [lia | exact F'].
    + constructor; [exact St|]. eapply Forall_impl; [|exact F].
      intros n Hn. cbv beta in *. lia.
Qed.

(** X4.  The lines the scanner keeps for a file are exactly the lines the
    Matcher accepts, each with its content trimmed and its position in the
    file counted from 1; they are kept in the order of the file, so the line
    numbers increase strictly. *)
Theorem X4_matching_lines (cfg : PatternSpec) (ls : list string) :
  exists ms,
    matchingLinesFrom cfg 0 ls = Ok ms /\
    (forall ml,
        In ml ms <->
        exists i line, nth_error ls i = Some line /\
                       matchesSearchCriteria cfg line = Ok true /\
                       ml = mkLine (trim line) (i + 1)) /\
    StronglySorted lt (map lineNumber ms).
Proof.
  exists (linesOf cfg 0 ls). split; [apply matchingLinesFrom_eq|]. split.
  - intros ml. rewrite linesOf_In. split; intros (i & line & H1 & H2 & ->);
      exists i, line; repeat split; auto.
    + rewrite matchesSearchCriteria_lineMatches. now f_equal.
    + rewrite matchesSearchCriteria_lineMatches in H2. now injection H2.
  - apply linesOf_numbers.
Qed.

Lemma trimStart_clean (s : string) :
  match trimStart s with
  | String c _ => isWhiteSpace c = false
  | EmptyString => True
  end.
Proof.
  induction s as [|c t IH]; cbn [trimStart]; [exact I|].
  destruct (isWhiteSpace c) eqn:E; [exact IH | exact E].
Qed.

Lemma trimStart_of_clean (s : string) :
  match s with String c _ => isWhiteSpace c = false | EmptyString => True end ->
  trimStart s = s.
Proof. destruct s as [|c t]; cbn [trimStart]; [reflexivity|]. now intros ->. Qed.

Lemma trimEnd_clean (s : string) :
  match s with String c _ => isWhiteSpace c = false | EmptyString => True end ->
  match trimEnd s with String c _ => isWhiteSpace c = false | EmptyString => True end.
Proof.
  destruct s as [|c t]; cbn [trimEnd]; [auto|]. intros E.
  destruct (trimEnd t); [rewrite E|]; exact E.
Qed.

Lemma trimEnd_idempotent (s : string) : trimEnd (trimEnd s) = trimEnd s.
Proof.
  induction s as [|c t IH]; cbn [trimEnd]; [reflexivity|].
  destruct (trimEnd t) as [|d t'] eqn:E.
  - destruct (isWhiteSpace c) eqn:W; cbn [trimEnd]; [reflexivity|].
    now rewrite W.
  - change (trimEnd (String c (String d t')))
      with (match trimEnd (String d t') with
            | EmptyString => if isWhiteSpace c then EmptyString else String c EmptyString
            | String a b => String c (String a b)
            end).
    rewrite IH. reflexivity.
Qed.

Lemma trim_idempotent (s : string) : trim (trim s) = trim s.
Proof.
  unfold trim. rewrite trimStart_of_clean.
  - apply trimEnd_idempotent.
  - apply trimEnd_clean, trimStart_clean.
Qed.

Lemma linesOf_trimmed (cfg : PatternSpec) (ls : list string) (k : nat) :
  Forall (fun ml => trim (content ml) = content ml /\ 1 <= lineNumber ml)
         (linesOf cfg k ls).
Proof.
  apply Forall_forall. intros ml H. apply linesOf_In in H.
  destruct H as (i & line & _ & _ & ->). cbn [content lineNumber].
  split; [apply trim_idempotent | lia].
Qed.

Lemma walkItems_results o cfg j cur es r :
  In r (results (walkItems o cfg j cur es)) ->
  exists entry, In entry es /\ In r (results (walkItem o cfg j cur entry)).
Proof.
  induction es as [|entry more IH]; cbn [walkItems scan_app results].
  - intros [].
  - rewrite in_app_iff. intros [H | H].
    + exists entry. split; [left; reflexivity | exact H].
    + destruct (IH H) as (e & Hin & He). exists e. split; [right; exact Hin | exact He].
Qed.

Lemma walkItems_calls_of_entry o cfg j cur es entry c0 :
  In entry es -> In c0 (calls (walkItem o cfg j cur entry)) ->
  In c0 (calls (walkItems o cfg j cur es)).
Proof.
  induction es as [|e more IH]; cbn [walkItems scan_app calls]; [intros []|].
  rewrite in_app_iff. intros [-> | Hin] H; [left; exact H | right; now apply IH].
Qed.

Lemma walk_results_well_formed o cfg j (n : node) :
  forall cur r,
    In r (results (walk o cfg j cur n)) ->
    lines r <> [] /\
    shouldIncludeFile o (fileName r) = true /\
    In (CallSearchInFile (fileName r)) (calls (walk o cfg j cur n)) /\
    Forall (fun ml => trim (content ml) = content ml /\ 1 <= lineNumber ml) (lines r).
Proof.
  induction n as [t|m|es IH|m|m|] using node_ind_nested; intros cur r;
    try (cbn [walk scan_app results said app]; intros []).
  rewrite walk_NDir. cbn [scan_app results calls app]. intros H.
  apply walkItems_results in H. destruct H as ([item child] & Hin & H).
  assert (C : forall c0, In c0 (calls (walkItem o cfg j cur (item, child))) ->
                         CallTraverseDirectory cur = c0 \/
                         In c0 (calls (walkItems o cfg j cur es))).
  { intros c0 Hc. right. eapply walkItems_calls_of_entry; eassumption. }
  rewrite Forall_forall in IH. specialize (IH _ Hin). cbn [snd] in IH.
  unfold walkItem in H, C. cbn [fst snd] in H, C.
  destruct child as [t|m|es'|m|m|].
  - unfold fileOutput in H, C. cbn [scan_app results calls app readFileSync] in H, C.
    destruct (shouldIncludeFile o (j cur item)) eqn:S; cbn [negb results scan_nil] in H;
      [|destruct H].
    destruct (0 <? List.length (linesOf cfg 0 (split_lines t)))%nat eqn:Z;
      [|destruct H].
    destruct H as [<- | []]. cbn [lines fileName].
    split; [|split; [exact S | split; [apply C; left; reflexivity | apply linesOf_trimmed]]].
    intros E. rewrite E in Z. discriminate Z.
  - unfold fileOutput in H. cbn [scan_app results app readFileSync] in H.
    destruct (shouldIncludeFile o (j cur item)); cbn in H; destruct H.
  - destruct (shouldSkipDirectory o item); cbn [negb] in H, C; [destruct H|].
    destruct (IH _ _ H) as (A1 & A2 & A3 & A4).
    split; [exact A1|]. split; [exact A2|]. split; [apply C, A3 | exact A4].
  - destruct (shouldSkipDirectory o item); cbn [negb] in H, C; [destruct H|].
    destruct (IH _ _ H) as (A1 & A2 & A3 & A4).
    split; [exact A1|]. split; [exact A2|]. split; [apply C, A3 | exact A4].
  - destruct H.
  - destruct H.
Qed.

(** X5.  Every result of [searchRecursively] has at least one line, names a
    file the file-type filter accepts and [searchInFile] was called on, and
    each of its lines has a trimmed content and a line number of at least
    1. *)
Theorem X5_results_are_well_formed
    (j : string -> string -> string) (dirPath : string) (root : node)
    (pattern : SearchPattern) (o : Options) (out : list logEntry)
    (found : list FileResult) (r : FileResult) :
  fst (searchRecursively j dirPath root pattern o out) = Ok found ->
  In r found ->
  lines r <> [] /\
  shouldIncludeFile o (fileName r) = true /\
  In (CallSearchInFile (fileName r))
     (calls (snd (searchRecursively j dirPath root pattern o out))) /\
  Forall (fun ml => trim (content ml) = content ml /\ 1 <= lineNumber ml) (lines r).
Proof.
  rewrite searchRecursively_walk. cbn [fst snd scan_app calls app].
  intros H Hin. injection H as <-. now apply walk_results_well_formed.
Qed.

Lemma X5_witness :
  let r := mkFileResult "d/a.js" [mkLine "x = 1" 2] in
  lines r <> [] /\
  shouldIncludeFile (mkOptions default_excludeDirs [".js"] false) (fileName r) = true /\
  In (CallSearchInFile (fileName r))
     (calls (snd (searchRecursively posix_join "d"
                    (NDir [("a.js", NFile ("y" ++ newline ++ "  x = 1 "))])
                    (Phrase "x") (mkOptions default_excludeDirs [".js"] false) []))) /\
  Forall (fun ml => trim (content ml) = content ml /\ 1 <= lineNumber ml) (lines r).
Proof.
  apply (X5_results_are_well_formed posix_join "d"
           (NDir [("a.js", NFile ("y" ++ newline ++ "  x = 1 "))])
           (Phrase "x") (mkOptions default_excludeDirs [".js"] false) []
           [mkFileResult "d/a.js" [mkLine "x = 1" 2]]).
  - vm_compute. reflexivity.
  - left. reflexivity.
Defined.

(** ** The Tree Walker *)

(** X6.  A root that is not a directory that can be listed yields no result
    and no exception: [searchRecursively] returns the empty list, and the
    failure of [readdirSync] is written to the console with [verbose] and
    nowhere without it. *)
Theorem X6_unlistable_root_gives_no_results
    (j : string -> string -> string) (dirPath : string) (root : node)
    (pattern : SearchPattern) (o : Options) (out : list logEntry) :
  (forall entries, root <> NDir entries) ->
  fst (searchRecursively j dirPath root pattern o out) = Ok [] /\
  console (snd (searchRecursively j dirPath root pattern o out))
  = (out ++ if verbose o
            then [ConsoleError ("Error reading directory " ++ dirPath ++ ": "
                                ++ readdir_failure root)]
            else [])%list.
Proof.
  intros H. rewrite searchRecursively_walk. cbn [fst snd scan_app console].
  destruct root as [t|m|es|m|m|]; try (split; reflexivity).
  exfalso. apply (H es). reflexivity.
Qed.

Lemma X6_witness :
  fst (searchRecursively posix_join "d/a.js" (NFile "x") (Phrase "x")
         (mkOptions default_excludeDirs [] true) []) = Ok [] /\
  console (snd (searchRecursively posix_join "d/a.js" (NFile "x") (Phrase "x")
                  (mkOptions default_excludeDirs [] true) []))
  = ([] ++ if verbose (mkOptions default_excludeDirs [] true)
           then [ConsoleError ("Error reading directory " ++ "d/a.js" ++ ": "
                               ++ readdir_failure (NFile "x"))]
           else [])%list.
Proof.
  apply (X6_unlistable_root_gives_no_results posix_join "d/a.js" (NFile "x")
           (Phrase "x") (mkOptions default_excludeDirs [] true) []).
  intros entries. discriminate.
Defined.

(** X7.  The results of a directory are those of its entries in the order
    of the listing: the results for a listing in two parts are the results
    for the first part followed by those for the second. *)
Theorem X7_results_follow_the_listing
    (j : string -> string -> string) (dirPath : string)
    (before after : list (string * node))
    (pattern : SearchPattern) (o : Options) (out : list logEntry) :
  exists first second,
    fst (searchRecursively j dirPath (NDir before) pattern o out) = Ok first /\
    fst (searchRecursively j dirPath (NDir after) pattern o out) = Ok second /\
    fst (searchRecursively j dirPath (NDir (before ++ after)) pattern o out)
    = Ok (first ++ second)%list.
Proof.
  rewrite !searchRecursively_walk. cbn [fst]. do 2 eexists.
  split; [reflexivity|]. split; [reflexivity|].
  rewrite !walk_NDir, walkItems_app. reflexivity.
Qed.

(** X8.  [shouldSkipDirectory] accepts exactly the names a rule excludes: a
    name that is a rule, that ends with the remainder of a rule starting with
    [*], or that starts with the remainder of a rule ending with [*] and not
    starting with one.  The comparison keeps the case; no rule, no skip; the
    rule [*] skips every directory. *)
Theorem X8_shouldSkipDirectory_rules (o : Options) (dirName : string) :
  (shouldSkipDirectory o dirName = true <-> excludedName (excludeDirs o) dirName) /\
  (excludeDirs o = [] -> shouldSkipDirectory o dirName = false) /\
  (In "*" (excludeDirs o) -> shouldSkipDirectory o dirName = true).
Proof.
  split; [apply shouldSkipDirectory_spec|]. split.
  - unfold shouldSkipDirectory. intros ->. reflexivity.
  - intros H. apply shouldSkipDirectory_spec. exists "*". split; [exact H|].
    right. left. exists "". split; [reflexivity|]. exists dirName.
    symmetry. apply append_empty_r.
Qed.

(** ** The file-type filter *)

Lemma toLowerChar_idempotent (c : ascii) : toLowerChar (toLowerChar c) = toLowerChar c.
Proof.
  apply Ascii.eqb_eq.
  apply (forall_ascii (fun c => Ascii.eqb (toLowerChar (toLowerChar c)) (toLowerChar c))).
  vm_compute. reflexivity.
Qed.

Lemma toLowerCase_idempotent (s : string) : toLowerCase (toLowerCase s) = toLowerCase s.
Proof.
  unfold toLowerCase. induction s as [|c t IH]; cbn [str_map]; [reflexivity|].
  now rewrite toLowerChar_idempotent, IH.
Qed.

Lemma str_map_app (f : ascii -> ascii) (a b : string) :
  str_map f (a ++ b) = str_map f a ++ str_map f b.
Proof. induction a as [|c a IH]; cbn [str_map append]; congruence. Qed.

Lemma append_inj_length (a a' b b' : string) :
  a ++ b = a' ++ b' -> String.length a = String.length a' -> a = a' /\ b = b'.
Proof.
  revert a'. induction a as [|c a IH]; intros [|c' a'] H L; try discriminate L.
  - split; [reflexivity | exact H].
  - cbn [append] in H. injection H as -> H. injection L as L.
    destruct (IH a' H L) as [-> ->]. split; reflexivity.
Qed.

(** A suffix and a prefix of a lower-cased string are in lower case. *)
Lemma lower_suffix (f rem : string) :
  endsWith (toLowerCase f) rem = true -> toLowerCase rem = rem.
Proof.
  intros H. apply endsWith_spec in H. destruct H as [front H].
  pose proof (f_equal toLowerCase H) as L.
  rewrite toLowerCase_idempotent, H in L. unfold toLowerCase in L.
  rewrite str_map_app in L. symmetry in L.
  apply append_inj_length in L; [now destruct L | apply str_map_length].
Qed.

Lemma lower_prefix (f rem : string) :
  startsWith (toLowerCase f) rem = true -> toLowerCase rem = rem.
Proof.
  intros H. apply startsWith_spec in H. destruct H as [back H].
  pose proof (f_equal toLowerCase H) as L.
  rewrite toLowerCase_idempotent, H in L. unfold toLowerCase in L.
  rewrite str_map_app in L. symmetry in L.
  apply append_inj_length in L; [now destruct L | apply str_map_length].
Qed.

(** X9.  A wildcard filter whose remainder holds a capital letter accepts no
    file: when the list of filters is made of such filters only, every file
    is rejected, whatever its name. *)
Theorem X9_capital_wildcards_accept_nothing (o : Options) (fileName : string) :
  includeFiles o <> [] ->
  (forall pattern, In pattern (includeFiles o) -> capitalWildcard pattern) ->
  shouldIncludeFile o fileName = false.
Proof.
  intros N H. unfold shouldIncludeFile.
  destruct (includeFiles o) as [|p0 ps] eqn:E; [congruence|].
  cbn [List.length Nat.eqb].
  destruct (existsb _ (p0 :: ps)) eqn:X; [|reflexivity].
  apply existsb_exists in X. destruct X as (pattern & Hin & T).
  destruct (H pattern Hin) as [(S1 & C) | (S1 & S2 & C)]; rewrite S1 in T.
  - apply lower_suffix in T. congruence.
  - rewrite S2 in T. apply lower_prefix in T. congruence.
Qed.

Lemma X9_witness :
  shouldIncludeFile (mkOptions default_excludeDirs ["*.JS"; "Test*"] false) "Test.JS"
  = false.
Proof.
  apply (X9_capital_wildcards_accept_nothing
           (mkOptions default_excludeDirs ["*.JS"; "Test*"] false) "Test.JS").
  - discriminate.
  - intros pattern [<- | [<- | []]].
    + left. split; [reflexivity | discriminate].
    + right. split; [reflexivity|]. split; [reflexivity | discriminate].
Defined.

Lemma list_ascii_str_map (f : ascii -> ascii) (s : string) :
  list_ascii_of_string (str_map f s) = map f (list_ascii_of_string s).
Proof. induction s as [|c t IH]; cbn; congruence. Qed.

Lemma combine_map_r {A B C : Type} (f : B -> C) (l : list A) (l' : list B) :
  combine l (map f l') = map (fun p => (fst p, f (snd p))) (combine l l').
Proof.
  revert l'. induction l as [|a l IH]; intros [|b l']; cbn; try reflexivity.
  now rewrite IH.
Qed.

Lemma extname_loop_map (f : ascii -> ascii) (l : list (nat * ascii)) :
  (forall c, Ascii.eqb (f c) "/" = Ascii.eqb c "/") ->
  (forall c, Ascii.eqb (f c) "." = Ascii.eqb c ".") ->
  forall st,
    extname_loop (map (fun p => (fst p, f (snd p))) l) st = extname_loop l st.
Proof.
  intros Hs Hd. induction l as [|[i c] l IH]; intros st; cbn [map extname_loop fst snd];
    [reflexivity|].
  rewrite Hs, Hd. destruct (Ascii.eqb c "/").
  - destruct (negb (matchedSlash st)); [reflexivity | apply IH].
  - apply IH.
Qed.

Lemma toLowerChar_slash (c : ascii) : Ascii.eqb (toLowerChar c) "/" = Ascii.eqb c "/".
Proof.
  apply Bool.eqb_prop.
  apply (forall_ascii (fun c => Bool.eqb (Ascii.eqb (toLowerChar c) "/") (Ascii.eqb c "/"))).
  vm_compute. reflexivity.
Qed.

Lemma toLowerChar_dot (c : ascii) : Ascii.eqb (toLowerChar c) "." = Ascii.eqb c ".".
Proof.
  apply Bool.eqb_prop.
  apply (forall_ascii (fun c => Bool.eqb (Ascii.eqb (toLowerChar c) ".") (Ascii.eqb c "."))).
  vm_compute. reflexivity.
Qed.

(** The extension of a lower-cased path is the lower-cased extension. *)
Lemma extname_lower (path : string) :
  toLowerCase (extname path) = extname (toLowerCase path).
Proof.
  unfold extname, toLowerCase.
  rewrite list_ascii_str_map, length_map, combine_map_r, <- map_rev.
  rewrite (extname_loop_map toLowerChar _ toLowerChar_slash toLowerChar_dot).
  destruct (extname_loop _ _) as [[sd|] sp [e|] ms [pre|]]; cbn; try reflexivity.
  destruct (pre && (sd =? e - 1)%nat && (sd =? sp + 1)%nat); [reflexivity|].
  apply str_map_substring.
Qed.

(** X10.  The file-type filter does not look at the case of the file name:
    two names with the same lower-case form are both accepted or both
    rejected. *)
Theorem X10_filter_ignores_file_name_case (o : Options) (name1 name2 : string) :
  toLowerCase name1 = toLowerCase name2 ->
  shouldIncludeFile o name1 = shouldIncludeFile o name2.
Proof.
  intros H. unfold shouldIncludeFile. rewrite !extname_lower, H. reflexivity.
Qed.

Lemma X10_witness :
  shouldIncludeFile (mkOptions default_excludeDirs [".js"; "*.vue"; "src*"] false)
                    "SRC/Main.VUE"
  = shouldIncludeFile (mkOptions default_excludeDirs [".js"; "*.vue"; "src*"] false)
                      "src/main.vue".
Proof.
  apply (X10_filter_ignores_file_name_case
           (mkOptions default_excludeDirs [".js"; "*.vue"; "src*"] false)
           "SRC/Main.VUE" "src/main.vue").
  reflexivity.
Defined.

(** ** The Aggregator *)

Lemma emptyGroups_set (ks : list string) (k : string) :
  map_set (emptyGroups ks) k []
  = emptyGroups (if existsb (String.eqb k) ks then ks else ks ++ [k])%list.
Proof.
  unfold emptyGroups. induction ks as [|k0 ks IH]; cbn [map map_set existsb app].
  - reflexivity.
  - rewrite (String.eqb_sym k k0). destruct (String.eqb k0 k) eqn:E; cbn [orb].
    + apply String.eqb_eq in E. now subst.
    + rewrite IH. destruct (existsb (String.eqb k) ks); reflexivity.
Qed.

Lemma emptyGroups_keys (ks : list string) : map fst (emptyGroups ks) = ks.
Proof.
  unfold emptyGroups. rewrite map_map. cbn [fst]. apply map_id.
Qed.

Lemma initial_groups_empty (ps : list SearchPattern) :
  forall ks,
    exists ks',
      fold_left (fun m pattern => map_set m (searchTermOf pattern) []) ps (emptyGroups ks)
      = emptyGroups ks'.
Proof.
  induction ps as [|P ps IH]; intros ks; cbn [fold_left]; [eauto|].
  rewrite emptyGroups_set. apply IH.
Qed.

Lemma initial_groups_closed (ps : list SearchPattern) :
  fold_left (fun m pattern => map_set m (searchTermOf pattern) []) ps []
  = emptyGroups (distinct (map searchTermOf ps)).
Proof.
  destruct (initial_groups_empty ps []) as [ks E].
  change (emptyGroups []) with (@nil (string * StringSet)) in E.
  rewrite E. f_equal.
  rewrite <- (emptyGroups_keys ks), <- E, initial_groups_keys.
  cbn [map app]. now apply filter_all.
Qed.

(** X11.  Without results the grouping keeps an empty set for each distinct
    include phrase, in the order of first occurrence, and builds no
    expression: it completes even for phrases that are not valid patterns.
    Without patterns it returns the empty map, whatever the results. *)
Theorem X11_grouping_of_nothing (rs : list FileResult) (ps : list SearchPattern) :
  groupResultsByPattern [] ps = Ok (emptyGroups (distinct (map searchTermOf ps))) /\
  groupResultsByPattern rs [] = Ok [].
Proof.
  unfold groupResultsByPattern. split.
  - cbn [foldM]. now rewrite initial_groups_closed.
  - cbn [fold_left]. induction rs as [|r rs IH]; cbn [foldM rbind]; [reflexivity|].
    exact IH.
Qed.

Lemma groupRegexTest_plain_ok (P : SearchPattern) (term text : string) :
  plain term = true -> exists b, groupRegexTest P term text = Ok b.
Proof.
  intros H. rewrite (groupRegexTest_plain P term text H), matcherPhraseTest_eq. eauto.
Qed.

Lemma some_result_ok {A : Type} (f : A -> result bool) (l : list A) :
  (forall a, In a l -> exists b, f a = Ok b) -> exists b, some_result f l = Ok b.
Proof.
  induction l as [|a l IH]; intros H; cbn [some_result]; [eauto|].
  destruct (H a (or_introl eq_refl)) as [[|] ->]; [eauto|].
  apply IH. intros x Hx. apply H. right. exact Hx.
Qed.

Lemma groupStep_ok (r : FileResult) (m : GroupedResult) (P : SearchPattern) :
  plainPattern P = true ->
  In (searchTermOf P) (map fst m) ->
  exists m', groupStep r m P = Ok m'.
Proof.
  unfold plainPattern. intros H K. apply andb_true_iff in H. destruct H as [Hi He].
  unfold groupStep.
  destruct (groupRegexTest_plain_ok P (searchTermOf P) (matchedText r) Hi) as [[|] ->];
    cbn [rbind]; [|eauto].
  destruct (some_result_ok (fun t => groupRegexTest P t (matchedText r))
                           (pattern_exclude P)) as [[|] ->]; cbn [rbind negb]; [|eauto|].
  - intros t Ht. apply groupRegexTest_plain_ok.
    rewrite forallb_forall in He. now apply He.
  - unfold map_get_add.
    assert (E : existsb (String.eqb (searchTermOf P)) (map fst m) = true).
    { apply existsb_exists. exists (searchTermOf P). split; [exact K | apply String.eqb_refl]. }
    rewrite map_get_keys in E.
    destruct (map_get m (searchTermOf P)); [eauto | discriminate].
Qed.

Lemma group_patterns_ok (r : FileResult) (ps : list SearchPattern) :
  forall m,
    (forall P, In P ps -> plainPattern P = true /\ In (searchTermOf P) (map fst m)) ->
    exists m', foldM (groupStep r) ps m = Ok m'.
Proof.
  induction ps as [|P ps IH]; intros m H; cbn [foldM]; [eauto|].
  destruct (H P (or_introl eq_refl)) as [Hp Hk].
  destruct (groupStep_ok r m P Hp Hk) as [m1 E]. rewrite E. cbn [rbind].
  apply IH. intros Q HQ. destruct (H Q (or_intror HQ)) as [Hq Hkq].
  split; [exact Hq|]. apply groupStep_spec in E. destruct E as [-> _]. exact Hkq.
Qed.

Lemma group_results_ok (ps : list SearchPattern) (rs : list FileResult) :
  forall m,
    (forall P, In P ps -> plainPattern P = true /\ In (searchTermOf P) (map fst m)) ->
    exists m', foldM (fun m r => foldM (groupStep r) ps m) rs m = Ok m'.
Proof.
  induction rs as [|r rs IH]; intros m H; cbn [foldM]; [eauto|].
  destruct (group_patterns_ok r ps m H) as [m1 E]. rewrite E. cbn [rbind].
  apply IH. intros Q HQ. destruct (H Q HQ) as [Hq Hkq].
  split; [exact Hq|]. apply group_patterns_spec in E. destruct E as [-> _]. exact Hkq.
Qed.

(** The grouping completes when no phrase holds a special character. *)
Lemma groupResultsByPattern_plain_ok (rs : list FileResult) (ps : list SearchPattern) :
  (forall P, In P ps -> plainPattern P = true) ->
  exists g, groupResultsByPattern rs ps = Ok g.
Proof.
  intros H. unfold groupResultsByPattern. apply group_results_ok.
  intros P HP. split; [now apply H|].
  rewrite initial_groups_closed, emptyGroups_keys.
  apply distinct_In. now apply in_map.
Qed.

(** X12.  When no include or exclude phrase holds one of the characters the
    Matcher escapes, the grouping completes: it throws for no list of
    results. *)
Theorem X12_grouping_completes_on_plain_phrases
    (rs : list FileResult) (ps : list SearchPattern) :
  (forall P, In P ps -> plainPattern P = true) ->
  exists g, groupResultsByPattern rs ps = Ok g.
Proof. apply groupResultsByPattern_plain_ok. Qed.

Lemma X12_witness :
  exists g,
    groupResultsByPattern
      [mkFileResult "a.js" [mkLine "const phrase1 = 1" 3]]
      [Config (mkPattern "phrase1" ["phrase1NotThis"] true false); Phrase "const"]
    = Ok g.
Proof.
  apply (X12_grouping_completes_on_plain_phrases
           [mkFileResult "a.js" [mkLine "const phrase1 = 1" 3]]
           [Config (mkPattern "phrase1" ["phrase1NotThis"] true false); Phrase "const"]).
  intros P [<- | [<- | []]]; reflexivity.
Defined.

(** X13.  On a phrase that holds none of the characters the Matcher escapes,
    the test of the grouping and the test of the Matcher give the same
    verdict on every text, in every mode. *)
Theorem X13_tests_agree_on_plain_phrases
    (pattern : SearchPattern) (term text : string) :
  plain term = true ->
  groupRegexTest pattern term text = matcherPhraseTest (normalize pattern) term text.
Proof. apply groupRegexTest_plain. Qed.

Lemma X13_witness :
  groupRegexTest (Config (mkPattern "phrase1" [] true true)) "phrase1" "x phrase1 y"
  = matcherPhraseTest (normalize (Config (mkPattern "phrase1" [] true true)))
                      "phrase1" "x phrase1 y".
Proof.
  apply (X13_tests_agree_on_plain_phrases
           (Config (mkPattern "phrase1" [] true true)) "phrase1" "x phrase1 y").
  reflexivity.
Defined.

(** ** The Reporter *)

Lemma sorted_perm_unique (l1 : list string) :
  forall l2,
    StronglySorted ascending l1 -> StronglySorted ascending l2 ->
    Permutation l1 l2 -> l1 = l2.
Proof.
  induction l1 as [|a l1 IH]; intros l2 S1 S2 P.
  - apply Permutation_nil in P. now subst.
  - destruct l2 as [|y l2]; [symmetry in P; apply Permutation_nil in P; discriminate|].
    inversion S1 as [|? ? S1' F1]; subst. inversion S2 as [|? ? S2' F2]; subst.
    assert (Hay : ascending a y).
    { assert (I : In y (a :: l1)) by (eapply Permutation_in; [symmetry; exact P | left; reflexivity]).
      destruct I as [-> | I].
      - unfold ascending. destruct (String.leb_total y y); assumption.
      - rewrite Forall_forall in F1. now apply F1. }
    assert (Hya : ascending y a).
    { assert (I : In a (y :: l2)) by (eapply Permutation_in; [exact P | left; reflexivity]).
      destruct I as [-> | I].
      - unfold ascending. destruct (String.leb_total a a); assumption.
      - rewrite Forall_forall in F2. now apply F2. }
    assert (a = y) by (apply String.leb_antisym; assumption). subst y.
    f_equal. apply IH; try assumption. eapply Permutation_cons_inv. exact P.
Qed.

(** [sort] gives the same list for every order of its input. *)
Lemma sort_of_perm (l l' : list string) : Permutation l l' -> sort l = sort l'.
Proof.
  intros P. apply sorted_perm_unique; try apply sort_strongly_sorted.
  rewrite <- (sort_perm l), <- (sort_perm l'). exact P.
Qed.

(** X14.  The report does not depend on the order in which the files were
    added to the sets: two maps with the same phrases in the same order,
    whose sets hold the same paths in any order, give the same report. *)
Theorem X14_report_ignores_discovery_order (g g' : GroupedResult) :
  Forall2 (fun e e' => fst e = fst e' /\ Permutation (snd e) (snd e')) g g' ->
  formatSimpleResults g = formatSimpleResults g'.
Proof.
  intros H. unfold formatSimpleResults, reportLines. f_equal.
  induction H as [|e e' g g' [K P] _ IH]; cbn [flat_map]; [reflexivity|].
  now rewrite K, (sort_of_perm _ _ P), IH.
Qed.

Lemma X14_witness :
  formatSimpleResults [("a", ["z.js"; "a.js"; "m.js"]); ("b", [])]
  = formatSimpleResults [("a", ["m.js"; "z.js"; "a.js"]); ("b", [])].
Proof.
  apply (X14_report_ignores_discovery_order
           [("a", ["z.js"; "a.js"; "m.js"]); ("b", [])]
           [("a", ["m.js"; "z.js"; "a.js"]); ("b", [])]).
  repeat constructor.
  cbn [snd].
  apply (perm_trans (l' := ["z.js"; "m.js"; "a.js"])).
  - apply perm_skip. apply perm_swap.
  - apply (perm_trans (l' := ["m.js"; "z.js"; "a.js"])); [apply perm_swap | reflexivity].
Defined.

Lemma split_lines_nonempty (s : string) : split_lines s <> [].
Proof.
  destruct s as [|c t]; cbn [split_lines]; [discriminate|].
  destruct (Ascii.eqb c LF); [discriminate|].
  destruct (split_lines t); discriminate.
Qed.

Lemma join_split (s : string) : join_lines (split_lines s) = s.
Proof.
  unfold join_lines. induction s as [|c t IH]; cbn [split_lines]; [reflexivity|].
  pose proof (split_lines_nonempty t) as N.
  destruct (Ascii.eqb c LF) eqn:E.
  - apply Ascii.eqb_eq in E. subst c.
    destruct (split_lines t) as [|h r]; [congruence|].
    change (String.concat newline (EmptyString :: h :: r))
      with (String LF (String.concat newline (h :: r))).
    now rewrite IH.
  - destruct (split_lines t) as [|h r]; [congruence|].
    destruct r as [|h' r]; cbn [String.concat] in *; cbn [append]; now rewrite IH.
Qed.

Lemma split_lines_noLF (s : string) : Forall (fun l => noLF l = true) (split_lines s).
Proof.
  induction s as [|c t IH]; cbn [split_lines]; [repeat constructor|].
  destruct (Ascii.eqb c LF) eqn:E; [constructor; [reflexivity | exact IH]|].
  destruct (split_lines t) as [|h r].
  { constructor; [cbn [noLF]; rewrite E; reflexivity | constructor]. }
  inversion IH as [|? ? Hh Hr]; subst. constructor; [|exact Hr].
  cbn [noLF]. now rewrite E, Hh.
Qed.

Lemma split_single (a : string) : noLF a = true -> split_lines a = [a].
Proof.
  induction a as [|c a IH]; cbn [noLF split_lines]; [reflexivity|].
  intros H. apply andb_true_iff in H. destruct H as [Hc Ha].
  apply negb_true_iff in Hc. rewrite Hc, (IH Ha). reflexivity.
Qed.

Lemma split_cons (a rest : string) :
  noLF a = true -> split_lines (a ++ newline ++ rest) = a :: split_lines rest.
Proof.
  induction a as [|c a IH]; cbn [noLF]; intros H.
  - cbn [append split_lines newline]. now rewrite Ascii.eqb_refl.
  - apply andb_true_iff in H. destruct H as [Hc Ha]. apply negb_true_iff in Hc.
    cbn [append split_lines]. rewrite Hc, (IH Ha). reflexivity.
Qed.

Lemma split_join (l : list string) :
  l <> [] -> Forall (fun s => noLF s = true) l -> split_lines (join_lines l) = l.
Proof.
  unfold join_lines. induction l as [|a l IH]; intros N F; [congruence|].
  inversion F as [|? ? Ha Fl]; subst. destruct l as [|b l].
  - cbn [String.concat]. now apply split_single.
  - change (String.concat newline (a :: b :: l))
      with (a ++ newline ++ String.concat newline (b :: l)).
    rewrite (split_cons _ _ Ha), IH; [reflexivity | discriminate | exact Fl].
Qed.

(** X15.  The scanner loses nothing of a file when it splits it: the lines
    hold no line feed, there is at least one, and joined by line feeds they
    are the text of the file. *)
Theorem X15_lines_of_a_file (text : string) :
  split_lines text <> [] /\
  Forall (fun line => noLF line = true) (split_lines text) /\
  join_lines (split_lines text) = text.
Proof.
  split; [apply split_lines_nonempty|]. split; [apply split_lines_noLF | apply join_split].
Qed.

(** X16.  The report can be read back: when no phrase and no file path
    holds a line feed, the lines of the report of a map that is not empty
    are, for each phrase in turn, the phrase, its sorted paths and an empty
    line. *)
Theorem X16_report_reads_back (g : GroupedResult) :
  g <> [] ->
  Forall (fun e => noLF (fst e) = true /\ Forall (fun f => noLF f = true) (snd e)) g ->
  split_lines (formatSimpleResults g) = reportLines g.
Proof.
  intros N F. unfold formatSimpleResults. apply split_join.
  - destruct g as [|e g]; [congruence | discriminate].
  - unfold reportLines. clear N.
    induction F as [|e g [Hk Hf] _ IH]; cbn [flat_map]; [constructor|].
    cbn [app]. constructor; [exact Hk|].
    apply Forall_app. split; [apply Forall_app; split | exact IH].
    + rewrite Forall_forall in *. intros x Hx. apply Hf.
      eapply Permutation_in; [symmetry; apply sort_perm | exact Hx].
    + constructor; [reflexivity | constructor].
Qed.

Lemma X16_witness :
  split_lines (formatSimpleResults [("a", ["z.js"; "a.js"]); ("b", [])])
  = reportLines [("a", ["z.js"; "a.js"]); ("b", [])].
Proof.
  apply (X16_report_reads_back [("a", ["z.js"; "a.js"]); ("b", [])]).
  - discriminate.
  - repeat constructor.
Defined.

(** ** The driver: errors and outcomes *)

(** X17.  [performSearch] writes one file or none.  When it returns a path,
    this is [<folder>/<fileName>-<timestamp>.txt] and exactly this file was
    written; when it throws, nothing was written and the last entry of the
    console is the error, logged whether [verbose] is set or not. *)
Theorem X17_one_report_or_none (h : Host) (job : SearchJob) (timestamp : nat) (s : run) :
  match fst (performSearch h job timestamp s) with
  | Ok path =>
      path = reportPath h job timestamp /\
      exists text,
        written (snd (performSearch h job timestamp s))
        = (written s ++ [(path, text)])%list
  | Throw e =>
      written (snd (performSearch h job timestamp s)) = written s /\
      exists log,
        run_console (snd (performSearch h job timestamp s))
        = (run_console s ++ log ++ [ConsoleError ("Error in performSearch: " ++ e)])%list
  | OutOfModel => True
  end.
Proof.
  unfold performSearch.
  change (mkOptions (jobExcludeDirs job) (fileTypes job) (jobVerbose job))
    with (jobOptions job).
  change (host_join h (folder job)
            (jobFileName job ++ "-" ++ decimal timestamp ++ ".txt"))
    with (reportPath h job timestamp).
  unfold try_catch, bind, mkdir.
  destruct (mkdir_failure h (folder job)) as [e|].
  - unfold throw, run_log, modify. cbn. split; [reflexivity|]. exists []. reflexivity.
  - unfold ret. cbn beta iota.
    destruct (searchDirectories_walk h (jobOptions job) (patterns job)
                (directories job) [] s) as [log E].
    rewrite E. cbn [app]. unfold lift.
    destruct (groupResultsByPattern
                (allFound h (jobOptions job) (directories job) (patterns job))
                (patterns job)) as [g|e|].
    + unfold writeFile.
      destruct (writeFile_failure h (reportPath h job timestamp)
                  (formatSimpleResults g)) as [e|].
      * unfold throw, run_log, modify. cbn. split; [reflexivity|].
        exists log. now rewrite app_assoc.
      * unfold modify, when, run_log, ret.
        destruct (jobVerbose job); cbn; split; eauto.
    + unfold throw, run_log, modify. cbn. split; [reflexivity|].
      exists log. now rewrite app_assoc.
    + exact I.
Qed.

(** X18.  When the output folder cannot be created nothing is searched and
    nothing is written: the error is thrown at once and the console gets this
    one entry. *)
Theorem X18_mkdir_failure_stops_the_run
    (h : Host) (job : SearchJob) (timestamp : nat) (s : run) (e : string) :
  mkdir_failure h (folder job) = Some e ->
  performSearch h job timestamp s
  = (Throw e,
     mkRun (run_console s ++ [ConsoleError ("Error in performSearch: " ++ e)])
           (written s)).
Proof.
  intros H. unfold performSearch, try_catch, bind, mkdir. rewrite H. reflexivity.
Qed.

Lemma X18_witness :
  let h := mkHost (fun _ => NDir [("a.js", NFile "x")]) posix_join
                  (fun _ => Some "EACCES: permission denied, mkdir") (fun _ _ => None) in
  let job := mkJob ["src"] [Phrase "x"] [] default_excludeDirs "out" "report" true in
  performSearch h job 7 (mkRun [] [])
  = (Throw "EACCES: permission denied, mkdir",
     mkRun ([] ++ [ConsoleError ("Error in performSearch: "
                                 ++ "EACCES: permission denied, mkdir")]) []).
Proof.
  cbv zeta.
  apply (X18_mkdir_failure_stops_the_run
           (mkHost (fun _ => NDir [("a.js", NFile "x")]) posix_join
                   (fun _ => Some "EACCES: permission denied, mkdir") (fun _ _ => None))
           (mkJob ["src"] [Phrase "x"] [] default_excludeDirs "out" "report" true)
           7 (mkRun [] []) "EACCES: permission denied, mkdir").
  reflexivity.
Defined.

Lemma finalReport_text (h : Host) (job : SearchJob) (timestamp : nat)
    (path text : string) :
  finalReport h job timestamp = Ok (path, text) ->
  path = reportPath h job timestamp /\
  exists g,
    groupResultsByPattern
      (allFound h (jobOptions job) (directories job) (patterns job)) (patterns job)
    = Ok g /\
    text = formatSimpleResults g.
Proof.
  unfold finalReport.
  destruct (mkdir_failure h (folder job)); [discriminate|].
  destruct (groupResultsByPattern _ (patterns job)) as [g|e|]; cbn [rbind];
    try discriminate.
  destruct (writeFile_failure h _ _); [discriminate|].
  intros H. injection H as <- <-. eauto.
Qed.

Lemma performSearch_ok_report (h : Host) (job : SearchJob) (timestamp : nat)
    (s : run) (path : string) :
  fst (performSearch h job timestamp s) = Ok path ->
  exists text,
    finalReport h job timestamp = Ok (path, text) /\
    written (snd (performSearch h job timestamp s)) = (written s ++ [(path, text)])%list.
Proof.
  destruct (performSearch_report h job timestamp s) as [-> ->].
  destruct (finalReport h job timestamp) as [[p t]| e |]; cbn [rbind fst];
    try discriminate.
  intros H. injection H as <-. eauto.
Qed.

(** X19.  The text of the report does not depend on the timestamp, nor on
    what the console and the files written held before: two runs of the same
    job on the same file system that both return write the same text. *)
Theorem X19_report_text_is_independent_of_the_timestamp
    (h : Host) (job : SearchJob) (t1 t2 : nat) (s1 s2 : run) (p1 p2 : string) :
  fst (performSearch h job t1 s1) = Ok p1 ->
  fst (performSearch h job t2 s2) = Ok p2 ->
  exists text,
    written (snd (performSearch h job t1 s1)) = (written s1 ++ [(p1, text)])%list /\
    written (snd (performSearch h job t2 s2)) = (written s2 ++ [(p2, text)])%list.
Proof.
  intros H1 H2.
  destruct (performSearch_ok_report _ _ _ _ _ H1) as (x1 & F1 & W1).
  destruct (performSearch_ok_report _ _ _ _ _ H2) as (x2 & F2 & W2).
  apply finalReport_text in F1, F2.
  destruct F1 as (_ & g1 & G1 & ->). destruct F2 as (_ & g2 & G2 & ->).
  assert (g1 = g2) by congruence. subst g2. eauto.
Qed.

Lemma X19_witness :
  let h := mkHost (fun _ => NDir [("a.js", NFile "x")]) posix_join
                  (fun _ => None) (fun _ _ => None) in
  let job := mkJob ["src"] [Phrase "x"] [] default_excludeDirs "out" "report" false in
  exists text,
    written (snd (performSearch h job 1 (mkRun [] [])))
    = ([] ++ [("out/report-1.txt", text)])%list /\
    written (snd (performSearch h job 2 (mkRun [] [("old.txt", "old")])))
    = ([("old.txt", "old")] ++ [("out/report-2.txt", text)])%list.
Proof.
  cbv zeta.
  apply (X19_report_text_is_independent_of_the_timestamp
           (mkHost (fun _ => NDir [("a.js", NFile "x")]) posix_join
                   (fun _ => None) (fun _ _ => None))
           (mkJob ["src"] [Phrase "x"] [] default_excludeDirs "out" "report" false)
           1 2 (mkRun [] []) (mkRun [] [("old.txt", "old")])
           "out/report-1.txt" "out/report-2.txt").
  - vm_compute. reflexivity.
  - vm_compute. reflexivity.
Defined.

(** X20.  When the output folder can be created, the report can be written
    and no phrase holds a special character, [performSearch] returns the path
    of the report and writes the grouped results of all the searches, and
    nothing else. *)
Theorem X20_performSearch_succeeds
    (h : Host) (job : SearchJob) (timestamp : nat) (s : run) :
  mkdir_failure h (folder job) = None ->
  (forall path text, writeFile_failure h path text = None) ->
  (forall P, In P (patterns job) -> plainPattern P = true) ->
  fst (performSearch h job timestamp s) = Ok (reportPath h job timestamp) /\
  exists g,
    groupResultsByPattern
      (allFound h (jobOptions job) (directories job) (patterns job)) (patterns job)
    = Ok g /\
    written (snd (performSearch h job timestamp s))
    = (written s ++ [(reportPath h job timestamp, formatSimpleResults g)])%list.
Proof.
  intros Hm Hw Hp.
  destruct (groupResultsByPattern_plain_ok
              (allFound h (jobOptions job) (directories job) (patterns job))
              (patterns job) Hp) as [g G].
  destruct (performSearch_report h job timestamp s) as [-> ->].
  unfold finalReport. rewrite Hm, G. cbn [rbind]. rewrite Hw. cbn [rbind fst].
  split; [reflexivity|]. exists g. split; reflexivity.
Qed.

Lemma X20_witness :
  let h := mkHost (fun _ => NDir [("a.js", NFile "x")]) posix_join
                  (fun _ => None) (fun _ _ => None) in
  let job := mkJob ["src"] [Phrase "x"] [] default_excludeDirs "out" "report" false in
  fst (performSearch h job 1 (mkRun [] [])) = Ok (reportPath h job 1) /\
  exists g,
    groupResultsByPattern
      (allFound h (jobOptions job) (directories job) (patterns job)) (patterns job)
    = Ok g /\
    written (snd (performSearch h job 1 (mkRun [] [])))
    = ([] ++ [(reportPath h job 1, formatSimpleResults g)])%list.
Proof.
  cbv zeta.
  apply (X20_performSearch_succeeds
           (mkHost (fun _ => NDir [("a.js", NFile "x")]) posix_join
                   (fun _ => None) (fun _ _ => None))
           (mkJob ["src"] [Phrase "x"] [] default_excludeDirs "out" "report" false)
           1 (mkRun [] [])).
  - reflexivity.
  - reflexivity.
  - intros P [<- | []]. reflexivity.
Defined.

Lemma allFound_no_directories (h : Host) (o : Options) (ps : list SearchPattern) :
  allFound h o [] ps = [].
Proof. reflexivity. Qed.

(** X21.  With no directory to search, a run whose folder can be created
    and whose report can be written lists every distinct include phrase with
    no file under it; no expression is built, so this holds for phrases that
    are not valid patterns too. *)
Theorem X21_no_directories
    (h : Host) (job : SearchJob) (timestamp : nat) (s : run) :
  directories job = [] ->
  mkdir_failure h (folder job) = None ->
  (forall path text, writeFile_failure h path text = None) ->
  fst (performSearch h job timestamp s) = Ok (reportPath h job timestamp) /\
  written (snd (performSearch h job timestamp s))
  = (written s
     ++ [(reportPath h job timestamp,
          formatSimpleResults
            (emptyGroups (distinct (map searchTermOf (patterns job)))))])%list.
Proof.
  intros Hd Hm Hw.
  destruct (performSearch_report h job timestamp s) as [-> ->].
  unfold finalReport. rewrite Hm, Hd, allFound_no_directories.
  unfold groupResultsByPattern. cbn [foldM]. rewrite initial_groups_closed.
  cbn [rbind]. rewrite Hw. cbn [rbind fst]. split; reflexivity.
Qed.

Lemma X21_witness :
  let h := mkHost (fun _ => NOther) posix_join (fun _ => None) (fun _ _ => None) in
  let job := mkJob [] [Phrase "x("; Phrase "y"; Phrase "x("] [] default_excludeDirs
                   "out" "report" false in
  fst (performSearch h job 1 (mkRun [] [])) = Ok (reportPath h job 1) /\
  written (snd (performSearch h job 1 (mkRun [] [])))
  = ([] ++ [(reportPath h job 1,
             formatSimpleResults
               (emptyGroups (distinct (map searchTermOf (patterns job)))))])%list.
Proof.
  cbv zeta.
  apply (X21_no_directories
           (mkHost (fun _ => NOther) posix_join (fun _ => None) (fun _ _ => None))
           (mkJob [] [Phrase "x("; Phrase "y"; Phrase "x("] [] default_excludeDirs
                  "out" "report" false)
           1 (mkRun [] [])); reflexivity.
Defined.

(** ** From the scan to the groups *)

Lemma occurs_same_text (cs : bool) (p L : string) :
  occurs cs p L <->
  exists pre mid post, L = pre ++ mid ++ post /\ same_text (negb cs) p mid.
Proof.
  unfold occurs, cs_substring, ci_substring, same_text. destruct cs; cbn [negb].
  - split.
    + intros (pre & post & ->). exists pre, p, post. auto.
    + intros (pre & mid & post & -> & ->). eauto.
  - tauto.
Qed.

Lemma phraseFound_occurs (cfg : PatternSpec) (p L : string) :
  wholeWord cfg = false ->
  (phraseFound cfg p L = true <-> occurs (caseSensitive cfg) p L).
Proof.
  intros W. unfold phraseFound. rewrite W, phrase_test_occurs.
  now rewrite negb_involutive.
Qed.

Lemma char_matches_white (ic : bool) (a b : ascii) :
  char_matches ic a b = true -> isWhiteSpace a = isWhiteSpace b.
Proof.
  destruct ic; cbn [char_matches].
  - intros H. apply Bool.eqb_prop.
    pose proof (forall_ascii2
             (fun a b => implb (Ascii.eqb (canonicalize a) (canonicalize b))
                               (Bool.eqb (isWhiteSpace a) (isWhiteSpace b)))) as F.
    cbv beta in F. specialize (F ltac:(vm_compute; reflexivity) a b).
    unfold char_matches in H. rewrite H in F. exact F.
  - unfold char_matches. intros H. apply Ascii.eqb_eq in H. now subst.
Qed.

Lemma char_matches_LF (ic : bool) (a b : ascii) :
  char_matches ic a b = true -> Ascii.eqb a LF = Ascii.eqb b LF.
Proof.
  destruct ic.
  - intros H. apply Bool.eqb_prop.
    pose proof (forall_ascii2
             (fun a b => implb (Ascii.eqb (canonicalize a) (canonicalize b))
                               (Bool.eqb (Ascii.eqb a LF) (Ascii.eqb b LF)))) as F.
    cbv beta in F. specialize (F ltac:(vm_compute; reflexivity) a b).
    unfold char_matches in H. rewrite H in F. exact F.
  - unfold char_matches. intros H. apply Ascii.eqb_eq in H. now subst.
Qed.

Lemma same_text_noLF (ic : bool) (p mid : string) :
  same_text ic p mid -> noLF p = true -> noLF mid = true.
Proof.
  revert mid. induction p as [|c t IH]; intros mid H N.
  - apply same_text_nil_l in H. now subst.
  - destruct mid as [|d m]; [reflexivity|].
    apply same_text_cons in H. destruct H as [Hcd H].
    cbn [noLF] in *. apply andb_true_iff in N. destruct N as [Nc Nt].
    rewrite <- (char_matches_LF ic c d Hcd), Nc. cbn [andb]. now apply IH.
Qed.

Lemma last_char_app (a : option ascii) (x y : string) :
  last_char a (x ++ y) = last_char (last_char a x) y.
Proof. revert a. induction x as [|c x IH]; intros a; cbn; auto. Qed.

Lemma last_char_Some (a : ascii) (s : string) :
  exists c, last_char (Some a) s = Some c.
Proof. revert a. induction s as [|d s IH]; intros a; cbn [last_char]; eauto. Qed.

Lemma trimEnd_cleanEnd (s : string) : cleanEnd (trimEnd s).
Proof.
  unfold cleanEnd. induction s as [|c t IH]; cbn [trimEnd]; [exact I|].
  destruct (trimEnd t) as [|d t'] eqn:E.
  - destruct (isWhiteSpace c) eqn:W; cbn; [exact I | exact W].
  - exact IH.
Qed.

Lemma trim_clean (p : string) : trim p = p -> cleanStart p /\ cleanEnd p.
Proof.
  intros H. rewrite <- H. unfold trim. split.
  - apply trimEnd_clean, trimStart_clean.
  - apply trimEnd_cleanEnd.
Qed.

Lemma trimStart_keeps (pre x : string) :
  cleanStart x -> exists pre', trimStart (pre ++ x) = pre' ++ x.
Proof.
  intros C. induction pre as [|c pre IH]; cbn [append trimStart].
  - exists "". now apply trimStart_of_clean.
  - destruct (isWhiteSpace c); [exact IH|]. exists (String c pre). reflexivity.
Qed.

Lemma trimEnd_keeps (y post : string) :
  y <> "" -> cleanEnd y -> exists post', trimEnd (y ++ post) = y ++ post'.
Proof.
  unfold cleanEnd. induction y as [|c y IH]; intros N C; [congruence|].
  destruct y as [|d y].
  - cbn in C. cbn [append trimEnd]. exists (trimEnd post).
    destruct (trimEnd post); [now rewrite C | reflexivity].
  - destruct IH as [post' E]; [discriminate | exact C |].
    exists post'.
    change (trimEnd (String c (String d y) ++ post))
      with (match trimEnd (String d y ++ post) with
            | EmptyString => if isWhiteSpace c then EmptyString else String c EmptyString
            | String a b => String c (String a b)
            end).
    rewrite E. reflexivity.
Qed.

Lemma same_text_cleanStart (ic : bool) (p mid post : string) :
  same_text ic p mid -> cleanStart p -> p <> "" -> cleanStart (mid ++ post).
Proof.
  intros H C N. destruct p as [|c t]; [congruence|].
  destruct mid as [|d m]; [apply same_text_nil_r in H; discriminate|].
  apply same_text_cons in H. destruct H as [H _].
  cbn. cbn in C. now rewrite <- (char_matches_white ic c d H).
Qed.

Lemma same_text_cleanEnd (ic : bool) (p mid : string) (a b : option ascii) :
  same_text ic p mid -> p <> "" ->
  match last_char a mid with Some c => isWhiteSpace c | None => false end
  = match last_char b p with Some c => isWhiteSpace c | None => false end.
Proof.
  revert mid a b. induction p as [|c t IH]; intros mid a b H Hp; [congruence|].
  destruct mid as [|d m].
  - apply same_text_nil_r in H. discriminate.
  - apply same_text_cons in H. destruct H as [Hcd H].
    cbn [last_char]. destruct t as [|c' t'].
    + apply same_text_nil_l in H. subst m. simpl.
      symmetry. now apply (char_matches_white ic).
    + apply IH; [exact H | discriminate].
Qed.

(** A phrase without white space at its ends that occurs in a line occurs
    in the trimmed line. *)
Lemma occurs_trim (cs : bool) (p L : string) :
  trim p = p -> occurs cs p L -> occurs cs p (trim L).
Proof.
  intros T. rewrite !occurs_same_text.
  intros (pre & mid & post & -> & H).
  destruct p as [|c t].
  { exists "", "", (trim (pre ++ mid ++ post)).
    split; [reflexivity|]. now apply same_text_nil_l. }
  destruct (trim_clean _ T) as [Cs Ce].
  assert (N : String c t <> "") by discriminate.
  assert (Nm : mid <> "").
  { intros ->. apply same_text_nil_r in H. discriminate. }
  destruct (trimStart_keeps pre (mid ++ post)
              (same_text_cleanStart _ _ _ post H Cs N)) as [pre' E1].
  assert (Cm : cleanEnd (pre' ++ mid)).
  { unfold cleanEnd. rewrite last_char_app.
    pose proof (same_text_cleanEnd _ _ _ (last_char None pre') None H N) as Q.
    unfold cleanEnd in Ce. cbn [last_char] in Q, Ce.
    destruct (last_char_Some c t) as [y Ey]. rewrite Ey in Q, Ce.
    destruct (last_char (last_char None pre') mid) as [x|]; [congruence | exact I]. }
  destruct (trimEnd_keeps (pre' ++ mid) post) as [post' E2]; [|exact Cm|].
  { destruct pre'; [exact Nm | discriminate]. }
  exists pre', mid, post'. split; [|exact H].
  unfold trim. rewrite E1, <- append_assoc, E2. apply append_assoc.
Qed.

Lemma trimStart_suffix (s : string) : exists w, s = w ++ trimStart s.
Proof.
  induction s as [|c t IH]; cbn [trimStart]; [exists ""; reflexivity|].
  destruct (isWhiteSpace c); [|exists ""; reflexivity].
  destruct IH as [w E]. exists (String c w). cbn [append]. now rewrite <- E.
Qed.

Lemma trimEnd_prefix (s : string) : exists w, s = trimEnd s ++ w.
Proof.
  induction s as [|c t IH]; cbn [trimEnd]; [exists ""; reflexivity|].
  destruct IH as [w E]. destruct (trimEnd t) as [|d t'].
  - cbn [append] in E. subst w.
    destruct (isWhiteSpace c); [exists (String c t) | exists t]; reflexivity.
  - exists w. cbn [append]. cbn [append] in E. now rewrite <- E.
Qed.

(** What occurs in the trimmed line occurs in the line. *)
Lemma occurs_of_trim (cs : bool) (p L : string) :
  occurs cs p (trim L) -> occurs cs p L.
Proof.
  rewrite !occurs_same_text. intros (pre & mid & post & E & H).
  destruct (trimStart_suffix L) as [w1 E1].
  destruct (trimEnd_prefix (trimStart L)) as [w2 E2].
  exists (w1 ++ pre), mid, (post ++ w2). split; [|exact H].
  rewrite E1 at 1. rewrite E2. unfold trim in E. rewrite E.
  now rewrite !append_assoc.
Qed.

Lemma occurs_join_head (cs : bool) (p a : string) (rest : list string) :
  occurs cs p a -> occurs cs p (join_lines (a :: rest)).
Proof.
  rewrite !occurs_same_text. intros (pre & mid & post & -> & H).
  unfold join_lines. destruct rest as [|b rest]; cbn [String.concat].
  - eauto.
  - exists pre, mid, (post ++ newline ++ String.concat newline (b :: rest)).
    split; [|exact H]. now rewrite !append_assoc.
Qed.

Lemma noLF_prefix (mid post x y : string) :
  x ++ String LF y = mid ++ post -> noLF mid = true -> exists p', x = mid ++ p'.
Proof.
  revert x. induction mid as [|c m IH]; intros x E N; [exists x; reflexivity|].
  cbn [noLF] in N. apply andb_true_iff in N. destruct N as [Nc Nm].
  destruct x as [|d x]; cbn [append] in E.
  - injection E as <- _. cbn in Nc. discriminate Nc.
  - injection E as -> E. destruct (IH x E Nm) as [p' ->]. exists p'. reflexivity.
Qed.

Lemma noLF_split (pre mid post x y : string) :
  x ++ String LF y = pre ++ mid ++ post -> noLF mid = true ->
  (exists p', x = pre ++ mid ++ p') \/ (exists p', y = p' ++ mid ++ post).
Proof.
  revert x. induction pre as [|c pre IH]; intros x E N.
  - left. cbn [append] in *. eapply noLF_prefix; eassumption.
  - destruct x as [|d x]; cbn [append] in E.
    + injection E as _ ->. right. eauto.
    + injection E as -> E. destruct (IH x E N) as [[p' ->] | [p' ->]].
      * left. exists p'. reflexivity.
      * right. eauto.
Qed.

(** A phrase without line feed that occurs in the joined lines occurs in
    one of them. *)
Lemma occurs_in_join (cs : bool) (e : string) (l : list string) :
  noLF e = true -> l <> [] -> occurs cs e (join_lines l) ->
  exists a, In a l /\ occurs cs e a.
Proof.
  intros N. unfold join_lines.
  induction l as [|a l IH]; intros Hl H; [congruence|].
  destruct l as [|b l]; cbn [String.concat] in H.
  - exists a. split; [left; reflexivity | exact H].
  - apply occurs_same_text in H. destruct H as (pre & mid & post & E & H).
    change (a ++ newline ++ String.concat newline (b :: l))
      with (a ++ String LF (String.concat newline (b :: l))) in E.
    destruct (noLF_split _ _ _ _ _ E (same_text_noLF _ _ _ H N)) as [[p' ->] | [p' E']].
    + exists (pre ++ mid ++ p'). split; [left; reflexivity|].
      apply occurs_same_text. eauto.
    + destruct IH as (x & Hx & Ox); [discriminate | |].
      * apply occurs_same_text. eauto.
      * exists x. split; [right; exact Hx | exact Ox].
Qed.

(** Every result of a walk comes from a file: its lines are the lines of
    the file the Matcher accepts, and there is at least one. *)
Lemma walk_results_from_files o cfg j (n : node) :
  forall cur r,
    In r (results (walk o cfg j cur n)) ->
    exists text, lines r = linesOf cfg 0 (split_lines text) /\ lines r <> [].
Proof.
  induction n as [t|m|es IH|m|m|] using node_ind_nested; intros cur r;
    try (cbn [walk scan_app results said app]; intros []).
  rewrite walk_NDir. cbn [scan_app results app]. intros H.
  apply walkItems_results in H. destruct H as ([item child] & Hin & H).
  rewrite Forall_forall in IH. specialize (IH _ Hin). cbn [snd] in IH.
  unfold walkItem in H. cbn [fst snd] in H.
  destruct child as [t|m|es'|m|m|].
  - unfold fileOutput in H. cbn [scan_app results app readFileSync] in H.
    destruct (shouldIncludeFile o (j cur item)); cbn [negb results scan_nil] in H;
      [|destruct H].
    destruct (0 <? List.length (linesOf cfg 0 (split_lines t)))%nat eqn:Z;
      [|destruct H].
    destruct H as [<- | []]. cbn [lines]. exists t. split; [reflexivity|].
    intros E. rewrite E in Z. discriminate Z.
  - unfold fileOutput in H. cbn [scan_app results app readFileSync] in H.
    destruct (shouldIncludeFile o (j cur item)); cbn in H; destruct H.
  - destruct (shouldSkipDirectory o item); cbn [negb] in H; [destruct H|].
    eapply IH. exact H.
  - destruct (shouldSkipDirectory o item); cbn [negb] in H; [destruct H|].
    eapply IH. exact H.
  - destruct H.
  - destruct H.
Qed.

Lemma searchTermOf_normalize (P : SearchPattern) :
  searchTermOf P = include (normalize P).
Proof. destruct P; reflexivity. Qed.

Lemma pattern_exclude_normalize (P : SearchPattern) :
  pattern_exclude P = exclude (normalize P).
Proof. destruct P; reflexivity. Qed.

(** The matched text of a scanned file passes the pattern of the scan, when
    the pattern is without whole-word mode, its phrases hold no special
    character, its include phrase has no white space at its ends and its
    exclude phrases hold no line feed. *)
Lemma scanned_text_passes o j cur (n : node) (P : SearchPattern) (r : FileResult) :
  wholeWord (normalize P) = false ->
  plainPattern P = true ->
  trim (searchTermOf P) = searchTermOf P ->
  forallb noLF (pattern_exclude P) = true ->
  In r (results (walk o (normalize P) j cur n)) ->
  passes P (matchedText r).
Proof.
  intros W Hplain T NL Hr.
  apply walk_results_from_files in Hr. destruct Hr as (text & E & N).
  unfold plainPattern in Hplain. apply andb_true_iff in Hplain.
  destruct Hplain as [Pi Pe].
  assert (A : forall ml, In ml (lines r) ->
                         exists line, lineMatches (normalize P) line = true /\
                                      content ml = trim line).
  { intros ml Hml. rewrite E in Hml. apply linesOf_In in Hml.
    destruct Hml as (i & line & _ & M & ->). eauto. }
  unfold passes, matchedText. split.
  - rewrite (groupRegexTest_plain _ _ _ Pi), matcherPhraseTest_eq. f_equal.
    apply (phraseFound_occurs _ _ _ W).
    destruct (lines r) as [|ml0 rest] eqn:L; [congruence|]. cbn [map].
    apply occurs_join_head.
    destruct (A ml0 (or_introl eq_refl)) as (line & M & ->).
    apply occurs_trim; [exact T|].
    unfold lineMatches in M. apply andb_true_iff in M. destruct M as [M _].
    rewrite <- searchTermOf_normalize in M. now apply (phraseFound_occurs _ _ _ W).
  - apply Forall_forall. intros e He.
    rewrite forallb_forall in Pe, NL.
    rewrite (groupRegexTest_plain _ _ _ (Pe e He)), matcherPhraseTest_eq. f_equal.
    destruct (phraseFound (normalize P) e (join_lines (map content (lines r)))) eqn:F;
      [|reflexivity].
    exfalso. apply (phraseFound_occurs _ _ _ W) in F.
    apply occurs_in_join in F; [|now apply NL|].
    + destruct F as (a & Ha & Oa). apply in_map_iff in Ha.
      destruct Ha as (ml & <- & Hml). destruct (A ml Hml) as (line & M & Ec).
      rewrite Ec in Oa. apply occurs_of_trim in Oa.
      apply (phraseFound_occurs _ _ _ W) in Oa.
      unfold lineMatches in M. apply andb_true_iff in M. destruct M as [_ M].
      apply negb_true_iff in M.
      assert (X : existsb (fun e => phraseFound (normalize P) e line)
                          (exclude (normalize P)) = true); [|congruence].
      apply existsb_exists. exists e. split; [|exact Oa].
      now rewrite <- pattern_exclude_normalize.
    + destruct (lines r); [congruence | discriminate].
Qed.

(** X22.  The scan and the grouping fit together: a file found by the scan
    of a pattern is in the set of this pattern's include phrase, when the
    pattern is without whole-word mode, its phrases hold none of the
    characters the Matcher escapes, its include phrase has no white space at
    its ends and its exclude phrases hold no line feed. *)
Theorem X22_scanned_files_are_grouped
    (h : Host) (o : Options) (dir : string) (P : SearchPattern)
    (rs : list FileResult) (ps : list SearchPattern) (g : GroupedResult)
    (r : FileResult) :
  wholeWord (normalize P) = false ->
  plainPattern P = true ->
  trim (searchTermOf P) = searchTermOf P ->
  forallb noLF (pattern_exclude P) = true ->
  In r (foundIn h o dir P) ->
  In r rs ->
  In P ps ->
  groupResultsByPattern rs ps = Ok g ->
  inGroup g (searchTermOf P) (fileName r).
Proof.
  intros W Hplain T NL Hr Hrs HP G.
  apply groupResultsByPattern_spec in G. destruct G as [_ S].
  apply S. exists r, P. repeat split; auto.
  - eapply scanned_text_passes; eassumption.
  - eapply scanned_text_passes; eassumption.
Qed.

Lemma X22_witness :
  inGroup [("todo", ["src/a.js"])] "todo" "src/a.js".
Proof.
  apply (X22_scanned_files_are_grouped
           (mkHost (fun _ => NDir [("a.js", NFile ("x" ++ newline ++ "  // TODO: fix  "))])
                   posix_join (fun _ => None) (fun _ _ => None))
           (mkOptions default_excludeDirs [] false) "src"
           (Config (mkPattern "todo" ["done"] false false))
           [mkFileResult "src/a.js" [mkLine "// TODO: fix" 2]]
           [Config (mkPattern "todo" ["done"] false false)]
           [("todo", ["src/a.js"])]
           (mkFileResult "src/a.js" [mkLine "// TODO: fix" 2])).
  - reflexivity.
  - reflexivity.
  - reflexivity.
  - reflexivity.
  - vm_compute. left. reflexivity.
  - left. reflexivity.
  - left. reflexivity.
  - vm_compute. reflexivity.
Defined.

(** ** Whole words, for every phrase *)

(** X23.  In whole-word mode a phrase that begins and ends with a word
    character is found exactly where it occurs, up to the case rule of the
    pattern, with no word character next to it on either side. *)
Theorem X23_whole_word_phrases
    (inc : string) (ex : list string) (cs : bool) (p L : string) :
  starts_with_word p = true ->
  ends_with_word p = true ->
  (matcherPhraseTest (mkPattern inc ex true cs) p L = Ok true <->
   whole_word_occurrence (negb cs) p L).
Proof.
  intros Hf Hl. rewrite matcherPhraseTest_eq. unfold phraseFound.
  cbn [wholeWord caseSensitive]. rewrite <- (wholeWord_spec _ p L Hf Hl).
  split; [intros H; now injection H | intros ->; reflexivity].
Qed.

Lemma X23_witness :
  matcherPhraseTest (mkPattern "phrase1" ["phrase1NotThis"] true false)
                    "phrase1NotThis" "use phrase1, not phrase1NotThis!"
  = Ok true <->
  whole_word_occurrence (negb false) "phrase1NotThis" "use phrase1, not phrase1NotThis!".
Proof.
  apply (X23_whole_word_phrases "phrase1" ["phrase1NotThis"] false
           "phrase1NotThis" "use phrase1, not phrase1NotThis!"); reflexivity.
Defined.

(** X24.  In whole-word mode a phrase that begins with a character that is
    not a word character is found only right after a word character: the
    boundary before the phrase asks for one, so that ["(x)"] is found
    neither in ["(x)"] nor in ["f (x)"]. *)
Theorem X24_whole_word_after_a_non_word_start
    (inc : string) (ex : list string) (cs : bool) (p L : string) :
  p <> "" ->
  starts_with_word p = false ->
  matcherPhraseTest (mkPattern inc ex true cs) p L = Ok true ->
  exists pre mid post,
    L = pre ++ mid ++ post /\ same_text (negb cs) p mid /\ ends_with_word pre = true.
Proof.
  intros N Hf. rewrite matcherPhraseTest_eq. unfold phraseFound.
  cbn [wholeWord caseSensitive]. intros H. injection H as H.
  apply search_spec in H. destruct H as (pre & post0 & -> & H).
  change (RSeq (lit_seq (RSeq REmpty RWordB) p) RWordB) with (phraseRegex true p) in H.
  rewrite matches_at_word in H. apply andb_true_iff in H. destruct H as [Hx Hz].
  destruct (eat (negb cs) p (last_char None pre, post0)) as [z|] eqn:E;
    [|discriminate Hz].
  apply eat_spec in E. destruct E as (mid & post & -> & Hm & _).
  exists pre, mid, post. split; [reflexivity|]. split; [exact Hm|].
  unfold boundary, wordBefore, wordAfter in Hx. cbn [fst snd] in Hx.
  fold (starts_with_word (mid ++ post)) in Hx.
  rewrite (same_text_first _ p mid post Hm N), Hf in Hx.
  fold (ends_with_word pre) in Hx.
  destruct (ends_with_word pre); [reflexivity | discriminate].
Qed.

Lemma X24_witness :
  exists pre mid post,
    "f(x)y" = pre ++ mid ++ post /\
    same_text (negb true) "(x)" mid /\
    ends_with_word pre = true.
Proof.
  apply (X24_whole_word_after_a_non_word_start "(x)" [] true "(x)" "f(x)y").
  - discriminate.
  - reflexivity.
  - vm_compute. reflexivity.
Defined.

(** ** The grouping and the order of the results *)

Lemma inGroup_filesOf (g : GroupedResult) (k f : string) :
  inGroup g k f <-> In f (filesOf g k).
Proof.
  unfold inGroup, filesOf. destruct (map_get g k) as [s|].
  - split; [intros (x & E & H); now injection E as <- | eauto].
  - split; [intros (x & E & _); discriminate | intros []].
Qed.

(** X25.  Membership in the groups grows with the results and looks at
    nothing but which results there are: when every result of one list is in
    another, every file grouped under a phrase for the first list is grouped
    under it for the second, whatever the order and the repetitions. *)
Theorem X25_grouping_is_monotone
    (rs rs' : list FileResult) (ps : list SearchPattern) (g g' : GroupedResult)
    (k f : string) :
  (forall r, In r rs -> In r rs') ->
  groupResultsByPattern rs ps = Ok g ->
  groupResultsByPattern rs' ps = Ok g' ->
  inGroup g k f ->
  inGroup g' k f.
Proof.
  intros Sub G G' H.
  apply groupResultsByPattern_spec in G, G'.
  destruct G as [_ S]. destruct G' as [_ S'].
  apply S in H. apply S'. destruct H as (r & P & Hr & H).
  exists r, P. split; [now apply Sub | exact H].
Qed.

Lemma X25_witness :
  inGroup [("a", ["y.js"; "x.js"])] "a" "x.js".
Proof.
  apply (X25_grouping_is_monotone
           [mkFileResult "x.js" [mkLine "a" 1]]
           [mkFileResult "y.js" [mkLine "a" 4]; mkFileResult "x.js" [mkLine "a" 1];
            mkFileResult "x.js" [mkLine "a" 1]]
           [Phrase "a"] [("a", ["x.js"])] [("a", ["y.js"; "x.js"])] "a" "x.js").
  - intros r [<- | []]. right. left. reflexivity.
  - vm_compute. reflexivity.
  - vm_compute. reflexivity.
  - exists ["x.js"]. split; [reflexivity | left; reflexivity].
Defined.

Lemma flat_map_ext_in {A B : Type} (f g : A -> list B) (l : list A) :
  (forall a, In a l -> f a = g a) -> flat_map f l = flat_map g l.
Proof.
  induction l as [|a l IH]; intros H; cbn [flat_map]; [reflexivity|].
  rewrite (H a (or_introl eq_refl)), IH; [reflexivity|].
  intros x Hx. apply H. right. exact Hx.
Qed.

(** X26.  The report looks at nothing but which results there are: two
    lists of results with the same elements, in any order and with any
    repetitions, give the same report for the same patterns. *)
Theorem X26_report_depends_on_the_set_of_results
    (rs rs' : list FileResult) (ps : list SearchPattern) (g g' : GroupedResult) :
  (forall r, In r rs <-> In r rs') ->
  groupResultsByPattern rs ps = Ok g ->
  groupResultsByPattern rs' ps = Ok g' ->
  formatSimpleResults g = formatSimpleResults g'.
Proof.
  intros Same G G'.
  pose proof (groupResultsByPattern_NoDup _ _ _ G) as N.
  pose proof (groupResultsByPattern_NoDup _ _ _ G') as N'.
  apply groupResultsByPattern_spec in G, G'.
  destruct G as [K S]. destruct G' as [K' S'].
  unfold formatSimpleResults. f_equal.
  rewrite (reportLines_by_keys g), (reportLines_by_keys g');
    try (rewrite ?K, ?K'; apply distinct_NoDup).
  rewrite K, K'. apply flat_map_ext_in. intros k _. do 2 f_equal.
  apply sort_of_perm. apply NoDup_Permutation.
  - unfold filesOf. destruct (map_get g k) eqn:E; [eapply N; exact E | constructor].
  - unfold filesOf. destruct (map_get g' k) eqn:E; [eapply N'; exact E | constructor].
  - intros f. rewrite <- !inGroup_filesOf, S, S'.
    split; intros (r & P & Hr & H); exists r, P; (split; [now apply Same | exact H]).
Qed.

Lemma X26_witness :
  formatSimpleResults [("a", ["x.js"; "y.js"])]
  = formatSimpleResults [("a", ["y.js"; "x.js"])].
Proof.
  apply (X26_report_depends_on_the_set_of_results
           [mkFileResult "x.js" [mkLine "a" 1]; mkFileResult "y.js" [mkLine "a" 4]]
           [mkFileResult "y.js" [mkLine "a" 4]; mkFileResult "x.js" [mkLine "a" 1];
            mkFileResult "x.js" [mkLine "a" 1]]
           [Phrase "a"]).
  - intros r. cbn [In]. tauto.
  - vm_compute. reflexivity.
  - vm_compute. reflexivity.
Defined.
